(** * GRACE knowledge-graph explorer: overlay engine and viewport controller

    A shallow embedding of the retrieval-to-graph overlay code of the
    [kgx-ui] front end:

    - [src/kgx-ui/src/overlay.ts]: [normalize], [buildOverlay], [edgeKey];
    - [src/kgx-ui/src/App.tsx]: the effect that merges the overlays of the
      whole chat history;
    - [src/kgx-ui/src/components/GraphCanvas.tsx]: the zoom-signature
      effects and the level band force.

    Conventions of the embedding.

    - A JavaScript string is a [string] (a sequence of code units, one
      [ascii] each).  The model is exact on 7-bit ASCII text; on other code
      units [toUpperCase] and [trim] are modelled as leaving the unit alone.
    - [Set<string>] is a [gset string], [Map<string, string[]>] is a
      [gmap string (list string)].
    - A value that may be [undefined] or [null] is an [option].
    - A function that may raise is in the [outcome] monad.
    - A JavaScript number holding a level or a pixel size is a [Z].  The
      numbers that the band force computes from them are IEEE-754 doubles
      ([Number.number]), with the rounding of each operation.  The zoom
      scale of the label test is a rational ([Q]). *)

From Stdlib Require Import ZArith QArith Ascii String List Lia SpecFloat.
From stdpp Require Import base option list gmap strings sorting.

Local Open Scope string_scope.

Set Warnings "-clear-no-such-hyp".

(** ** Exceptions *)

Inductive JsError : Type :=
| TypeError.

Inductive outcome (A : Type) : Type :=
| Ok (a : A)
| Throw (e : JsError).

Arguments Ok {A} a.
Arguments Throw {A} e.

Definition obind {A B : Type} (m : outcome A) (k : A → outcome B) : outcome B :=
  match m with
  | Ok a => k a
  | Throw e => Throw e
  end.

Notation "x ←! m ;; k" := (obind m (λ x, k))
  (at level 100, m at next level, right associativity).

(** ** overlay.ts: [normalize] *)

Module Normalizer.

(** The double-quote character (code 34). *)
Definition dquote : ascii := "034"%char.

Definition is_quote (c : ascii) : bool := Ascii.eqb c dquote.

(** The ASCII members of the WhiteSpace and LineTerminator classes that
    [String.prototype.trim] removes: TAB, LF, VT, FF, CR and SP. *)
Definition is_space (c : ascii) : bool :=
  match c with
  | "009" | "010" | "011" | "012" | "013" | " " => true
  | _ => false
  end%char.

(** [toUpperCase] on one code unit: [a]..[z] go to [A]..[Z]. *)
Definition upper_char (c : ascii) : ascii :=
  let n := nat_of_ascii c in
  if (97 <=? n)%nat && (n <=? 122)%nat then ascii_of_nat (n - 32) else c.

Fixpoint toUpperCase (s : string) : string :=
  match s with
  | EmptyString => EmptyString
  | String c s' => String (upper_char c) (toUpperCase s')
  end.

(** Remove the longest prefix whose characters satisfy [p]. *)
Fixpoint strip_start (p : ascii → bool) (s : string) : string :=
  match s with
  | EmptyString => EmptyString
  | String c s' => if p c then strip_start p s' else s
  end.

(** Remove the longest suffix whose characters satisfy [p]. *)
Fixpoint strip_end (p : ascii → bool) (s : string) : string :=
  match s with
  | EmptyString => EmptyString
  | String c s' =>
      match strip_end p s' with
      | EmptyString => if p c then EmptyString else String c EmptyString
      | r => String c r
      end
  end.

(** The [replace] call of [normalize]: its global pattern (one or more
    quotes at the start, or one or more quotes at the end) deletes the
    maximal run of quotes at the start and the maximal run at the end. *)
Definition replace_wrapping_quotes (s : string) : string :=
  strip_end is_quote (strip_start is_quote s).

(** [s.trim()] *)
Definition trim (s : string) : string :=
  strip_end is_space (strip_start is_space s).

(** [normalize]: the quote-stripping [replace], then [trim], then
    [toUpperCase], in that order. *)
Definition normalize (s : string) : string :=
  toUpperCase (trim (replace_wrapping_quotes s)).

(** Does the first (last) character of [s] satisfy [p]? *)
Definition starts_with (p : ascii → bool) (s : string) : bool :=
  match s with
  | EmptyString => false
  | String c _ => p c
  end.

Fixpoint ends_with (p : ascii → bool) (s : string) : bool :=
  match s with
  | EmptyString => false
  | String c EmptyString => p c
  | String _ s' => ends_with p s'
  end.

(** A string made of quotes only. *)
Fixpoint all_quotes (s : string) : bool :=
  match s with
  | EmptyString => true
  | String c s' => is_quote c && all_quotes s'
  end.

End Normalizer.

Import Normalizer.

(** ** types.ts: the records the overlay code reads

    Only the fields that the modelled functions read are kept.  The graph
    index is plain JSON, so [label] and [description] may be missing at run
    time; [id] is the identity of the node and is always a string. *)

Record NodeRec : Type := {
  id : string;
  label : option string;
  description : option string;
  level : Z;
}.

Record NodeData : Type := { entity_name : string }.

Record ReasoningPath : Type := { src_tgt : string * string }.

Record NodeHits : Type := {
  use_reasoning_path : option (list ReasoningPath);
  node_datas : option (list NodeData);
}.

Record RetrieveResponse : Type := {
  qid : string;
  node_hits : option NodeHits;
}.

Record ChatMessage : Type := {
  msg_id : string;
  retrieval : option RetrieveResponse;
}.

Record IndexJson : Type := { nodes : option (list NodeRec) }.

(** ** overlay.ts: [buildOverlay] and [edgeKey] *)

Record Overlay : Type := {
  hitNodeIds : gset string;
  pathNodeIds : gset string;
  pathEdgeKeys : gset string;
}.

Definition emptyOverlay : Overlay :=
  {| hitNodeIds := ∅; pathNodeIds := ∅; pathEdgeKeys := ∅ |}.

(** [!key] for a value that is a string, [undefined] or [null]. *)
Definition falsy (key : option string) : bool :=
  match key with
  | None => true
  | Some EmptyString => true
  | Some (String _ _) => false
  end.

(** Reading a property of [undefined] or [null], and iterating over one
    with [for ... of], raise a [TypeError]. *)
Definition property_of {A : Type} (o : option A) : outcome A :=
  match o with
  | Some a => Ok a
  | None => Throw TypeError
  end.

Definition iterate {A : Type} (o : option (list A)) : outcome (list A) :=
  match o with
  | Some l => Ok l
  | None => Throw TypeError
  end.

(** [nameMap.get(k) || []] (an array, even an empty one, is truthy). *)
Definition get_or_empty (nameMap : gmap string (list string)) (k : string) : list string :=
  default [] (nameMap !! k).

(** One round of the inner loop over [[n.id, n.label, n.description]]. *)
Definition index_key (n : NodeRec) (nameMap : gmap string (list string))
    (key : option string) : gmap string (list string) :=
  if falsy key then nameMap
  else
    let k := normalize (default "" key) in
    let arr := get_or_empty nameMap k in
    <[k := (arr ++ [id n])%list]> nameMap.

(** The array [[n.id, n.label, n.description]]. *)
Definition attributes (n : NodeRec) : list (option string) :=
  [Some (id n); label n; description n].

Definition index_node (nameMap : gmap string (list string)) (n : NodeRec)
    : gmap string (list string) :=
  fold_left (index_key n) (attributes n) nameMap.

(** The first loop of [buildOverlay]: the identity index. *)
Definition buildNameMap (nodes : list NodeRec) : gmap string (list string) :=
  fold_left index_node nodes ∅.

(** [for (const id of ids) set.add(id)] *)
Definition add_all (set : gset string) (ids : list string) : gset string :=
  fold_left (λ acc i, {[ i ]} ∪ acc) ids set.

(** The template literal that joins two normalized names with the
    two-bar delimiter. *)
Definition key_of (a b : string) : string := a ++ "||" ++ b.

Definition hit_step (nameMap : gmap string (list string)) (hits : gset string)
    (nd : NodeData) : gset string :=
  let k := normalize (entity_name nd) in
  add_all hits (get_or_empty nameMap k).

Definition path_step (nameMap : gmap string (list string))
    (acc : gset string * gset string) (p : ReasoningPath) : gset string * gset string :=
  let sNorm := normalize (fst (src_tgt p)) in
  let tNorm := normalize (snd (src_tgt p)) in
  let pathNodes := add_all (add_all (fst acc) (get_or_empty nameMap sNorm))
                           (get_or_empty nameMap tNorm) in
  let pathEdges := {[ key_of tNorm sNorm ]} ∪ ({[ key_of sNorm tNorm ]} ∪ snd acc) in
  (pathNodes, pathEdges).

Definition buildOverlay (res : RetrieveResponse) (nodes : list NodeRec) : outcome Overlay :=
  let nameMap := buildNameMap nodes in
  hits ←! property_of (node_hits res) ;;
  datas ←! iterate (node_datas hits) ;;
  let hitIds := fold_left (hit_step nameMap) datas ∅ in
  let reasoning := default [] (use_reasoning_path hits) in
  let paths := fold_left (path_step nameMap) reasoning (∅, ∅) in
  Ok {| hitNodeIds := hitIds; pathNodeIds := fst paths; pathEdgeKeys := snd paths |}.

(** The attributes of a node that pass the guard of the index loop: the
    texts under whose normal form the node is indexed. *)
Definition indexed_texts (n : NodeRec) : list string :=
  omap (λ key, if falsy key then None else key) (attributes n).

(** The node ids of a node list. *)
Definition node_ids (ns : list NodeRec) : list string := id <$> ns.

(** Every entry of the index lists at least one node. *)
Definition entries_nonempty (m : gmap string (list string)) : Prop :=
  ∀ k l, m !! k = Some l → l ≠ [].

(** What one reasoning-path entry resolves to, and the two keys it adds. *)
Definition resolves (m : gmap string (list string)) (p : ReasoningPath) (x : string) : Prop :=
  x ∈ get_or_empty m (normalize (fst (src_tgt p))) ∨
  x ∈ get_or_empty m (normalize (snd (src_tgt p))).

Definition keys_of (p : ReasoningPath) (k : string) : Prop :=
  k = key_of (normalize (fst (src_tgt p))) (normalize (snd (src_tgt p))) ∨
  k = key_of (normalize (snd (src_tgt p))) (normalize (fst (src_tgt p))).

(** The reasoning path after [?? []]. *)
Definition reasoning_of (hits : NodeHits) : list ReasoningPath :=
  default [] (use_reasoning_path hits).

(** *** Sample data

    The two-node graph and the retrieval result of the egg scenario. *)
Definition egg_node : NodeRec :=
  {| id := "n1"; label := Some "Egg"; description := None; level := 0 |}.

Definition boil_node : NodeRec :=
  {| id := "n2"; label := Some "Boil"; description := None; level := 1 |}.

Definition egg_graph : list NodeRec := [egg_node; boil_node].

Definition egg_retrieval : RetrieveResponse :=
  {| qid := "q1";
     node_hits := Some
       {| use_reasoning_path := Some [ {| src_tgt := ("Egg", "Boil") |} ];
          node_datas := Some [ {| entity_name := "EGG" |} ] |} |}.

(** A second node with the label of [egg_node]. *)
Definition egg_twin_node : NodeRec :=
  {| id := "n3"; label := Some "Egg"; description := None; level := 2 |}.

(** A node whose label is a single space, and a retrieval result that
    names a single space. *)
Definition blank_label_node : NodeRec :=
  {| id := "n1"; label := Some " "; description := None; level := 0 |}.

Definition blank_retrieval : RetrieveResponse :=
  {| qid := "q2";
     node_hits := Some
       {| use_reasoning_path := Some [];
          node_datas := Some [ {| entity_name := " " |} ] |} |}.

(** A [node_hits] object without [node_datas], as a context file may
    carry it. *)
Definition retrieval_without_node_datas : RetrieveResponse :=
  {| qid := "q3";
     node_hits := Some {| use_reasoning_path := Some []; node_datas := None |} |}.

(** A [node_hits] object without [use_reasoning_path]. *)
Definition retrieval_without_reasoning_path : RetrieveResponse :=
  {| qid := "q4";
     node_hits := Some {| use_reasoning_path := None; node_datas := Some [] |} |}.

(** The value of the [id] property of a node object: missing, a string, or
    a value of another type (the force-graph library also takes numbers as
    node ids). *)
Inductive IdValue : Type :=
| IdAbsent
| IdString (s : string)
| IdNumber (n : Z).

(** An end of a rendered link: the string of the edge record, or, once the
    force simulation has resolved it, the node object; [EndpointNullish] is
    [undefined] or [null]. *)
Inductive Endpoint : Type :=
| EndpointString (s : string)
| EndpointNode (node_id : IdValue)
| EndpointNullish.

Record Link : Type := {
  source : Endpoint;
  target : Endpoint;
  edge_type : string;
}.

(** [normalize(x?.id ?? '')] on a node object: a missing [id] becomes the
    empty string, and calling [replace] on a value that is not a string
    raises a [TypeError]. *)
Definition normalize_id (i : IdValue) : outcome string :=
  match i with
  | IdAbsent => Ok (normalize "")
  | IdString s => Ok (normalize s)
  | IdNumber _ => Throw TypeError
  end.

(** The local function [g] of [edgeKey]. *)
Definition endpoint_text (x : Endpoint) : outcome string :=
  match x with
  | EndpointString s => Ok (normalize s)
  | EndpointNode i => normalize_id i
  | EndpointNullish => Ok (normalize "")
  end.

Definition edgeKey (e : Link) : outcome string :=
  s ←! endpoint_text (source e) ;;
  t ←! endpoint_text (target e) ;;
  Ok (key_of s t).

(** GraphCanvas.tsx: [isPathEdge]; without an overlay the optional chain
    stops before [edgeKey] is called. *)
Definition isPathEdge (overlay : option Overlay) (l : Link) : outcome bool :=
  match overlay with
  | Some ov => k ←! edgeKey l ;; Ok (bool_decide (k ∈ pathEdgeKeys ov))
  | None => Ok false
  end.

(** The ends that the renderer produces: a string, or a node object whose
    [id] is a string or is missing. *)
Definition rendered_end (x : Endpoint) : bool :=
  match x with
  | EndpointString _ => true
  | EndpointNode (IdString _) => true
  | EndpointNode IdAbsent => true
  | EndpointNode (IdNumber _) => false
  | EndpointNullish => false
  end.

(** ** App.tsx: the merged overlay of the chat history *)

Definition union_overlay (acc ov : Overlay) : Overlay :=
  {| hitNodeIds := hitNodeIds acc ∪ hitNodeIds ov;
     pathNodeIds := pathNodeIds acc ∪ pathNodeIds ov;
     pathEdgeKeys := pathEdgeKeys acc ∪ pathEdgeKeys ov |}.

(** One round of the loop over [chatHistory]; [nodes] is
    [indexData.nodes]. *)
Definition merge_step (nodes : option (list NodeRec)) (acc : Overlay)
    (msg : ChatMessage) : outcome Overlay :=
  match retrieval msg, nodes with
  | Some r, Some ns => ov ←! buildOverlay r ns ;; Ok (union_overlay acc ov)
  | _, _ => Ok acc
  end.

Fixpoint merge_loop (nodes : option (list NodeRec)) (acc : Overlay)
    (history : list ChatMessage) : outcome Overlay :=
  match history with
  | [] => Ok acc
  | msg :: rest => acc' ←! merge_step nodes acc msg ;; merge_loop nodes acc' rest
  end.

(** The effect on [[chatHistory, indexData]]: the value of the
    [mergedOverlay] state after it ran, given the value before. *)
Definition mergedOverlay_effect (indexData : option IndexJson)
    (chatHistory : list ChatMessage) (prev : option Overlay) : outcome (option Overlay) :=
  match indexData with
  | None => Ok prev
  | Some data =>
      merged ←! merge_loop (nodes data) emptyOverlay chatHistory ;; Ok (Some merged)
  end.

(** [mergeHistory(messages, nodes)]: the effect run on a loaded index. *)
Definition mergeHistory (messages : list ChatMessage) (ns : list NodeRec) : outcome Overlay :=
  merge_loop (Some ns) emptyOverlay messages.

(** The outcome of [buildOverlay] for each message that carries a retrieval
    payload, in history order. *)
Definition message_overlays (ns : list NodeRec) (history : list ChatMessage)
    : list (outcome Overlay) :=
  omap (λ msg, (λ r, buildOverlay r ns) <$> retrieval msg) history.

(** The element-wise union of a list of overlays. *)
Definition union_all (ovs : list Overlay) : Overlay :=
  {| hitNodeIds := ⋃ (hitNodeIds <$> ovs);
     pathNodeIds := ⋃ (pathNodeIds <$> ovs);
     pathEdgeKeys := ⋃ (pathEdgeKeys <$> ovs) |}.

(** [x] is in the set [sel] of the overlay of some message of the history. *)
Definition derivable (sel : Overlay → gset string) (ns : list NodeRec)
    (history : list ChatMessage) (x : string) : Prop :=
  ∃ msg r ov, msg ∈ history ∧ retrieval msg = Some r ∧
              buildOverlay r ns = Ok ov ∧ x ∈ sel ov.

(** A history of two messages with the egg retrieval and one without a
    payload. *)
Definition egg_history : list ChatMessage :=
  [ {| msg_id := "q1_user"; retrieval := Some egg_retrieval |};
    {| msg_id := "q0_user"; retrieval := None |};
    {| msg_id := "q1_assistant"; retrieval := Some egg_retrieval |} ].

(** ** GraphCanvas.tsx: the zoom-signature effects *)

(** What a callback handed to [requestAnimationFrame] will do. *)
Inductive FrameCallback : Type :=
| FocusFit (focusSet : gset string)
| ResetFit.

(** The calls made on the force-graph handle: [zoomToFit] with an optional
    node filter, and [d3ReheatSimulation]. *)
Inductive CameraOp : Type :=
| ZoomToFit (filter : option (gset string))
| ReheatSimulation.

(** The part of the component that the two effects read and write:
    whether [fgRef.current] is set, [zoomSigRef.current], and the callbacks
    waiting for the next animation frame. *)
Record Canvas : Type := {
  fg_mounted : bool;
  zoomSigRef : string;
  pendingFrames : list FrameCallback;
}.

(** [useRef('')] *)
Definition initialCanvas : Canvas :=
  {| fg_mounted := true; zoomSigRef := ""; pendingFrames := [] |}.

Definition focusSet_of (overlay : option Overlay) : gset string :=
  match overlay with
  | Some ov => hitNodeIds ov ∪ pathNodeIds ov
  | None => ∅
  end.

(** [Array.from(focusSet).sort().join('|')]: the default sort compares
    strings by code units. *)
Definition signature_of (focusSet : gset string) : string :=
  String.concat "|" (merge_sort String.le (elements focusSet)).

(** The effect on [[overlay]]. *)
Definition overlay_effect (c : Canvas) (overlay : option Overlay) : Canvas :=
  if negb (fg_mounted c) then c
  else
    let focusSet := focusSet_of overlay in
    if (size focusSet =? 0)%nat then c
    else
      let signature := signature_of focusSet in
      if String.eqb signature (zoomSigRef c) then c
      else {| fg_mounted := fg_mounted c;
              zoomSigRef := signature;
              pendingFrames := (pendingFrames c ++ [FocusFit focusSet])%list |}.

(** The effect on [[resetZoomTick]]. *)
Definition reset_effect (c : Canvas) (resetZoomTick : option nat) : Canvas :=
  if negb (fg_mounted c) then c
  else
    match resetZoomTick with
    | None => c
    | Some _ =>
        {| fg_mounted := fg_mounted c;
           zoomSigRef := zoomSigRef c;
           pendingFrames := (pendingFrames c ++ [ResetFit])%list |}
    end.

(** Running one pending callback: the stored signature after it, and the
    camera calls it made. *)
Definition run_callback (acc : string * list CameraOp) (cb : FrameCallback)
    : string * list CameraOp :=
  match cb with
  | FocusFit focusSet =>
      (fst acc, (snd acc ++ [ZoomToFit (Some focusSet); ReheatSimulation])%list)
  | ResetFit =>
      ("reset", (snd acc ++ [ZoomToFit None; ReheatSimulation])%list)
  end.

(** The next animation frame runs every pending callback, oldest first. *)
Definition animation_frame (c : Canvas) : Canvas * list CameraOp :=
  let r := fold_left run_callback (pendingFrames c) (zoomSigRef c, []) in
  ({| fg_mounted := fg_mounted c; zoomSigRef := fst r; pendingFrames := [] |}, snd r).

(** Did the overlay effect hand a camera fit to the next frame? *)
Definition schedules_fit (c : Canvas) (overlay : option Overlay) : bool :=
  (length (pendingFrames c) <? length (pendingFrames (overlay_effect c overlay)))%nat.

(** The number of camera fits that running the overlay effect on [ov1] and
    then on [ov2] hands to the next frame. *)
Definition fits_scheduled (c : Canvas) (ov1 ov2 : option Overlay) : nat :=
  length (pendingFrames (overlay_effect (overlay_effect c ov1) ov2))
  - length (pendingFrames c).

(** *** Sample data

    The overlay of the egg scenario, and an overlay whose only focus node
    has the id [reset]. *)
Definition egg_overlay : Overlay :=
  {| hitNodeIds := {[ "n1" ]};
     pathNodeIds := {[ "n1"; "n2" ]};
     pathEdgeKeys := {[ "EGG||BOIL"; "BOIL||EGG" ]} |}.

Definition reset_overlay : Overlay :=
  {| hitNodeIds := {[ "reset" ]}; pathNodeIds := ∅; pathEdgeKeys := ∅ |}.

(** The canvas once the egg overlay has been applied and its frame has
    run. *)
Definition canvas_after_egg : Canvas :=
  fst (animation_frame (overlay_effect initialCanvas (Some egg_overlay))).

(** ** JavaScript numbers

    A JavaScript number is an IEEE-754 binary64 value.  Numbers are the
    values of the Standard Library's executable specification of binary
    floating point, at precision 53 and maximal exponent 1024; its
    operations round to nearest, ties to even, as JavaScript's do.
    [of_Z] is the number that an integer literal denotes: the nearest
    double. *)
Module Number.

Definition number : Type := spec_float.
Definition prec : Z := 53.
Definition emax : Z := 1024.

Definition of_Z (z : Z) : number := binary_normalize prec emax z 0 false.

Definition Infinity : number := S754_infinity false.

(** Unary minus, and the operators [+], [-], [*], [/], [<] and [<=]. *)
Definition neg : number → number := SFopp.
Definition add : number → number → number := SFadd prec emax.
Definition sub : number → number → number := SFsub prec emax.
Definition mul : number → number → number := SFmul prec emax.
Definition div : number → number → number := SFdiv prec emax.
Definition ltb : number → number → bool := SFltb.
Definition leb : number → number → bool := SFleb.

(** [Number.isFinite] *)
Definition isFinite (x : number) : bool :=
  match x with
  | S754_zero _ | S754_finite _ _ _ => true
  | _ => false
  end.

(** The numbers that count as false: both zeros and NaN. *)
Definition falsy (x : number) : bool :=
  match x with
  | S754_zero _ | S754_nan => true
  | _ => false
  end.

(** [x || y] *)
Definition or_else (x y : number) : number := if falsy x then y else x.

(** [Math.max(a, b)]: NaN if either is NaN, and [+0] above [-0]. *)
Definition max (a b : number) : number :=
  match a, b with
  | S754_nan, _ | _, S754_nan => S754_nan
  | S754_zero true, S754_zero false => b
  | _, _ => if ltb a b then b else a
  end.

End Number.

(** *** Integers in numbers

    Vocabulary of the proofs about numbers that hold integers: the number
    of binary digits of a positive, a positive with [k] zero bits appended,
    the double with sign [s] that holds a positive of at most 53 digits, and
    the integers that doubles hold exactly. *)
Definition digits (p : positive) : Z := Zpos (digits2_pos p).

Definition shift (k : nat) (p : positive) : positive := Nat.iter k xO p.

Definition normal (s : bool) (p : positive) : Number.number :=
  S754_finite s (shift (Z.to_nat (53 - digits p)) p) (digits p - 53).

Definition safe_integer (z : Z) : Prop := (Z.abs z < 2 ^ 53)%Z.

(** *** Rounding

    Vocabulary of the proofs about numbers that do not hold integers:
    [M / 2 ^ n] rounded to the nearest integer, ties to even; an integer
    rounded to 53 significant bits; the value of a number in units of
    [2 ^ -400]; and the numbers on which that value is exact. *)
Definition rneZ (M : Z) (n : nat) : Z :=
  let q := (M / 2 ^ Z.of_nat n)%Z in
  match (2 * (M mod 2 ^ Z.of_nat n) ?= 2 ^ Z.of_nat n)%Z with
  | Lt => q
  | Eq => if Z.even q then q else (q + 1)%Z
  | Gt => (q + 1)%Z
  end.

Definition round_int (V : Z) : Z :=
  let n := Z.to_nat (Zdigits2 V - 53) in
  (rneZ V n * 2 ^ Z.of_nat n)%Z.

Definition sround (V : Z) : Z := (Z.sgn V * round_int (Z.abs V))%Z.

Definition scaled (x : Number.number) : Z :=
  match x with
  | S754_finite s m e => cond_Zopp s (Zpos m * 2 ^ (e + 400))
  | _ => 0%Z
  end.

(** A zero, or a finite number with a full mantissa and an exponent
    between [-R] and [R]. *)
Definition regular (R : Z) (x : Number.number) : Prop :=
  match x with
  | S754_zero _ => True
  | S754_finite _ m e => digits m = 53%Z ∧ (-R ≤ e ≤ R)%Z
  | _ => False
  end.

(** ** GraphCanvas.tsx: the level band force

    The level of a node is an integer and the viewport height [dims.h] is
    one; the numbers that the effect computes with are their doubles,
    [Number.of_Z (level n)] and [Number.of_Z h]. *)

Definition padding : Number.number := Number.of_Z 48.

(** [if (n.level < min) min = n.level] *)
Definition lower (min l : Number.number) : Number.number :=
  if Number.ltb l min then l else min.

(** [if (n.level > max) max = n.level] *)
Definition upper (max l : Number.number) : Number.number :=
  if Number.ltb max l then l else max.

Definition bounds_step (acc : Number.number * Number.number) (n : NodeRec)
    : Number.number * Number.number :=
  (lower (fst acc) (Number.of_Z (level n)), upper (snd acc) (Number.of_Z (level n))).

(** [Number.isFinite(x) ? x : 0] *)
Definition finite_or_zero (x : Number.number) : Number.number :=
  if Number.isFinite x then x else Number.of_Z 0.

(** The memo [[minLevel, maxLevel]]. *)
Definition minmaxLevel (ns : option (list NodeRec)) : Number.number * Number.number :=
  match ns with
  | None => (Number.of_Z 0, Number.of_Z 0)
  | Some [] => (Number.of_Z 0, Number.of_Z 0)
  | Some l =>
      let r := fold_left bounds_step l (Number.Infinity, Number.neg Number.Infinity) in
      (finite_or_zero (fst r), finite_or_zero (snd r))
  end.

(** [maxLevel - minLevel + 1 || 1] *)
Definition level_count (minLevel maxLevel : Number.number) : Number.number :=
  Number.or_else (Number.add (Number.sub maxLevel minLevel) (Number.of_Z 1))
                 (Number.of_Z 1).

(** [Math.max(1, dims.h - padding * 2)] *)
Definition innerHeight (h : Z) : Number.number :=
  Number.max (Number.of_Z 1)
             (Number.sub (Number.of_Z h) (Number.mul padding (Number.of_Z 2))).

Definition spacing (h : Z) (minLevel maxLevel : Number.number) : Number.number :=
  Number.div (innerHeight h) (level_count minLevel maxLevel).

(** [yFor] of the band-force effect. *)
Definition yFor (h : Z) (minLevel maxLevel : Number.number) (lvl : Number.number)
    : Number.number :=
  Number.sub (Number.sub (Number.of_Z h) padding)
             (Number.mul (Number.sub lvl minLevel) (spacing h minLevel maxLevel)).

(** The effect on [[dims.h, minLevel, maxLevel]]: the target that the
    [levelY] force it installs gives to a node of level [lvl], if it
    installs one. *)
Definition levelY_effect (mounted : bool) (h : Z) (ns : option (list NodeRec))
    : option (Z → Number.number) :=
  if negb mounted || (h =? 0)%Z then None
  else
    let mm := minmaxLevel ns in
    Some (λ lvl, yFor h (fst mm) (snd mm) (Number.of_Z lvl)).

(** The target that the installed force gives to level [lvl]. *)
Definition band_target (mounted : bool) (h : Z) (ns : option (list NodeRec))
    (lvl : Z) : option Number.number :=
  (λ f : Z → Number.number, f lvl) <$> levelY_effect mounted h ns.

(** ** The band allocation as the specification words it

    The distinct levels present, sorted ascending; each gets an equal slice
    of the viewport height less twice the padding; the lowest level is
    nearest the bottom.  A graph without levels has a single band.  The
    quotient and the product are taken in double arithmetic, as any
    implementation in JavaScript takes them. *)
Module BandSpec.

Definition distinct_levels (ns : list NodeRec) : list Z :=
  merge_sort Z.le (remove_dups (level <$> ns)).

Fixpoint rank_of (lvl : Z) (sorted : list Z) : option Z :=
  match sorted with
  | [] => None
  | x :: rest => if (x =? lvl)%Z then Some 0%Z else Z.succ <$> rank_of lvl rest
  end.

Definition band_count (ns : list NodeRec) : Z :=
  Z.max 1 (Z.of_nat (length (distinct_levels ns))).

Definition slice (h : Z) (ns : list NodeRec) : Number.number :=
  Number.div (Number.of_Z (h - 2 * 48)) (Number.of_Z (band_count ns)).

Definition band_y (h : Z) (ns : list NodeRec) (lvl : Z) : option Number.number :=
  match rank_of lvl (distinct_levels ns) with
  | Some r => Some (Number.sub (Number.of_Z (h - 48)) (Number.mul (Number.of_Z r) (slice h ns)))
  | None => None
  end.

End BandSpec.

(** *** Sample data

    A graph whose levels are 0 and 2, and the levels of a node list. *)
Definition gap_graph : list NodeRec :=
  [ {| id := "a"; label := None; description := None; level := 0 |};
    {| id := "b"; label := None; description := None; level := 2 |} ].

Definition levels_of (ns : list NodeRec) : list Z := level <$> ns.

(** Every integer between two levels of the graph is the level of some
    node. *)
Definition contiguous_levels (ns : list NodeRec) : Prop :=
  ∀ a b z, a ∈ levels_of ns → b ∈ levels_of ns → (a ≤ z ≤ b)%Z → z ∈ levels_of ns.

(** Levels that doubles hold exactly, together with their differences. *)
Definition safe_levels (ns : list NodeRec) : Prop :=
  ∀ z, z ∈ levels_of ns → (Z.abs z < 2 ^ 52)%Z.

(** ** GraphCanvas.tsx, Legend.tsx, App.tsx: level colours *)

(** [LEVEL_PALETTE] of GraphCanvas.tsx. *)
Definition LEVEL_PALETTE : list string :=
  [ "#4F46E5"; "#10B981"; "#F59E0B"; "#06B6D4"; "#8B5CF6";
    "#22C55E"; "#F97316"; "#14B8A6"; "#A855F7"; "#84CC16";
    "#0EA5E9"; "#E11D48"; "#7C3AED"; "#059669"; "#D97706";
    "#0D9488"; "#DB2777"; "#2563EB"; "#16A34A"; "#EA580C";
    "#1E293B"; "#EF4444"; "#0284C7"; "#6D28D9"; "#65A30D";
    "#DC2626"; "#0891B2"; "#9333EA"; "#22D3EE"; "#F43F5E" ].

(** [LEVEL_PALETTE] of the legend component: entry 21 is in lower case. *)
Definition LEGEND_PALETTE : list string :=
  [ "#4F46E5"; "#10B981"; "#F59E0B"; "#06B6D4"; "#8B5CF6";
    "#22C55E"; "#F97316"; "#14B8A6"; "#A855F7"; "#84CC16";
    "#0EA5E9"; "#E11D48"; "#7C3AED"; "#059669"; "#D97706";
    "#0D9488"; "#DB2777"; "#2563EB"; "#16A34A"; "#EA580C";
    "#1E293B"; "#ef4444"; "#0284C7"; "#6D28D9"; "#65A30D";
    "#DC2626"; "#0891B2"; "#9333EA"; "#22D3EE"; "#F43F5E" ].

(** Adding to a [Set] keeps the first occurrence of a value, in insertion
    order. *)
Definition set_add (seen : list Z) (x : Z) : list Z :=
  if decide (x ∈ seen) then seen else (seen ++ [x])%list.

(** [Array.from(new Set(xs))] *)
Definition array_from_set (xs : list Z) : list Z := fold_left set_add xs [].

(** [xs.sort((a, b) => a - b)] on integers. *)
Definition sort_ascending (xs : list Z) : list Z := merge_sort Z.le xs.

(** App.tsx: the [levels] memo; without an index the node list is empty. *)
Definition app_levels (indexData : option IndexJson) : list Z :=
  let ns := default [] (indexData ≫= nodes) in
  sort_ascending (array_from_set (level <$> ns)).

(** GraphCanvas.tsx: the sorted distinct levels of [levelColorMap]. *)
Definition canvas_levels (ns : option (list NodeRec)) : list Z :=
  sort_ascending (array_from_set (level <$> default [] ns)).

(** [palette[i]] for an integer [i]: [undefined] below 0 and past the
    end. *)
Definition palette_at (palette : list string) (i : Z) : option string :=
  if (i <? 0)%Z then None else palette !! Z.to_nat i.

(** [m.set(lvl, palette[index % palette.length])]; storing [undefined]
    reads back like a missing entry. *)
Definition set_color (palette : list string) (m : gmap Z string) (index : nat) (lvl : Z)
    : gmap Z string :=
  match palette_at palette (Z.rem (Z.of_nat index) (Z.of_nat (length palette))) with
  | Some c => <[lvl := c]> m
  | None => delete lvl m
  end.

(** [levels.forEach((lvl, index) => m.set(...))], from index [index] on. *)
Fixpoint assign_colors (palette : list string) (index : nat) (levels : list Z)
    (m : gmap Z string) : gmap Z string :=
  match levels with
  | [] => m
  | lvl :: rest => assign_colors palette (S index) rest (set_color palette m index lvl)
  end.

(** GraphCanvas.tsx: [levelColorMap]. *)
Definition levelColorMap (ns : option (list NodeRec)) : gmap Z string :=
  assign_colors LEVEL_PALETTE 0 (canvas_levels ns) ∅.

(** [levelColorMap.get(lvl) ?? palette[lvl % palette.length]]; the
    remainder has the sign of [lvl]. *)
Definition color_or_fallback (palette : list string) (m : gmap Z string) (lvl : Z)
    : option string :=
  match m !! lvl with
  | Some c => Some c
  | None => palette_at palette (Z.rem lvl (Z.of_nat (length palette)))
  end.

(** GraphCanvas.tsx: [getLevelColor]. *)
Definition getLevelColor (m : gmap Z string) (lvl : Z) : option string :=
  color_or_fallback LEVEL_PALETTE m lvl.

(** Legend.tsx: [levelColorMap] and [getLevelColor] of the legend, from its
    [levels] property. *)
Definition legend_levelColorMap (levels : option (list Z)) : gmap Z string :=
  assign_colors LEGEND_PALETTE 0 (sort_ascending (default [] levels)) ∅.

Definition legend_getLevelColor (m : gmap Z string) (lvl : Z) : option string :=
  color_or_fallback LEGEND_PALETTE m lvl.

(** ** GraphCanvas.tsx: node styling *)

Module Style.

Definition PATH_FILL : string := "#3B82F6".
Definition HIT_FILL : string := "#dc143c".

(** The object returned by [resolveNodeStyle]; a colour read from the
    palette may be [undefined]. *)
Record NodeStyle : Type := {
  fill : option string;
  stroke : option string;
  lineWidth : Z;
  glow : bool;
  r : Z;
}.

End Style.

(** [!!(overlay && (hitNodeIds.size || pathNodeIds.size || pathEdgeKeys.size))] *)
Definition hasOverlay (overlay : option Overlay) : bool :=
  match overlay with
  | Some ov =>
      negb (size (hitNodeIds ov) =? 0)%nat
      || negb (size (pathNodeIds ov) =? 0)%nat
      || negb (size (pathEdgeKeys ov) =? 0)%nat
  | None => false
  end.

(** [overlay?.hitNodeIds.has(n.id) ?? false] *)
Definition isHitNode (overlay : option Overlay) (n : NodeRec) : bool :=
  match overlay with
  | Some ov => bool_decide (id n ∈ hitNodeIds ov)
  | None => false
  end.

(** [overlay?.pathNodeIds.has(n.id) ?? false] *)
Definition isPathNode (overlay : option Overlay) (n : NodeRec) : bool :=
  match overlay with
  | Some ov => bool_decide (id n ∈ pathNodeIds ov)
  | None => false
  end.

Definition resolveNodeStyle (colors : gmap Z string) (overlay : option Overlay)
    (n : NodeRec) : Style.NodeStyle :=
  let levelColor := getLevelColor colors (level n) in
  if negb (hasOverlay overlay) then
    {| Style.fill := levelColor; Style.stroke := Some "transparent";
       Style.lineWidth := 0; Style.glow := false; Style.r := 3 |}
  else if isHitNode overlay n then
    {| Style.fill := Some Style.HIT_FILL; Style.stroke := levelColor;
       Style.lineWidth := 2; Style.glow := true; Style.r := 5 |}
  else if isPathNode overlay n then
    {| Style.fill := Some Style.PATH_FILL; Style.stroke := levelColor;
       Style.lineWidth := 2; Style.glow := false; Style.r := 4 |}
  else
    {| Style.fill := levelColor; Style.stroke := Some "transparent";
       Style.lineWidth := 0; Style.glow := false; Style.r := 3 |}.

(** The test of [nodeCanvasObject] that decides whether the label of a
    node is drawn at zoom [globalScale]: the threshold is 1.5 for a hit node
    and 4 otherwise. *)
Definition label_drawn (overlay : option Overlay) (n : NodeRec) (globalScale : Q) : bool :=
  let labelZoom := if isHitNode overlay n then (3 # 2)%Q else 4%Q in
  isHitNode overlay n || negb (Qle_bool globalScale labelZoom).

(** ** Names without the bar character *)

Definition is_bar (c : ascii) : bool := Ascii.eqb c "|"%char.

Fixpoint bar_free (s : string) : bool :=
  match s with
  | EmptyString => true
  | String c s' => negb (is_bar c) && bar_free s'
  end.

(** ** api.ts: normalising backend payloads

    The part of a response that [buildOverlay] reads. *)
Definition overlay_hits (reasoning : option (list ReasoningPath))
    (datas : option (list NodeData)) : NodeHits :=
  {| use_reasoning_path := reasoning; node_datas := datas |}.

Definition overlay_input (q : string) (hits : option NodeHits) : RetrieveResponse :=
  {| qid := q; node_hits := hits |}.

Module Api.

Record Community : Type := { community_id : Z; report_string : string }.

Record TextUnit : Type := { unit_id : Z; content : option string }.

(** A [node_hits] object as it arrives: each of its fields may be
    missing. *)
Record NodeHits : Type := {
  use_communities : option (list Community);
  use_reasoning_path : option (list ReasoningPath);
  node_datas : option (list NodeData);
  use_text_units : option (list TextUnit);
}.

(** [EMPTY_NODE_HITS] *)
Definition EMPTY_NODE_HITS : NodeHits :=
  {| use_communities := Some [];
     use_reasoning_path := Some [];
     node_datas := Some [];
     use_text_units := Some [] |}.

(** The object literal without properties. *)
Definition no_node_hits : NodeHits :=
  {| use_communities := None; use_reasoning_path := None;
     node_datas := None; use_text_units := None |}.

Module Raw.

(** A JSON object of the backend: the fields the client reads, each of
    which may be missing. *)
Record Payload : Type := {
  kg_id : option string;
  run_id : option string;
  qid : option string;
  context : option string;
  node_hits : option NodeHits;
  answer : option string;
}.

Definition no_fields : Payload :=
  {| kg_id := None; run_id := None; qid := None; context := None;
     node_hits := None; answer := None |}.

(** The argument of [normaliseRetrievePayload]: an object with its own
    fields and, possibly, a [payload] object. *)
Record Input : Type := {
  payload : option Payload;
  fields : Payload;
}.

End Raw.

(** What the client functions return. *)
Record Response : Type := {
  kg_id : option string;
  run_id : option string;
  qid : option string;
  context : string;
  node_hits : NodeHits;
  answer : option string;
}.

(** [a ?? b] *)
Definition nullish {A : Type} (a b : option A) : option A :=
  match a with
  | Some x => Some x
  | None => b
  end.

Definition normaliseRetrievePayload (input : option Raw.Input)
    (fallbackKg : option string) : Response :=
  let own := Raw.fields <$> input in
  let payload := default Raw.no_fields (nullish (input ≫= Raw.payload) own) in
  let nodeHits := default no_node_hits (Raw.node_hits payload) in
  {| kg_id := nullish (Raw.kg_id payload) (nullish (own ≫= Raw.kg_id) fallbackKg);
     run_id := nullish (Raw.run_id payload) (own ≫= Raw.run_id);
     qid := Some (default "" (nullish (Raw.qid payload) (own ≫= Raw.qid)));
     context := default "" (Raw.context payload);
     node_hits :=
       {| use_communities :=
            nullish (use_communities nodeHits) (use_communities EMPTY_NODE_HITS);
          use_reasoning_path :=
            nullish (use_reasoning_path nodeHits) (use_reasoning_path EMPTY_NODE_HITS);
          node_datas := nullish (node_datas nodeHits) (node_datas EMPTY_NODE_HITS);
          use_text_units :=
            nullish (use_text_units nodeHits) (use_text_units EMPTY_NODE_HITS) |};
     answer := None |}.

(** [getContextData] once the request has settled: [ok] is [res.ok] and
    [ctx] the parsed body. *)
Definition getContextData (kg : string) (ok : bool) (ctx : Raw.Payload) : option Response :=
  if negb ok then None
  else Some
    {| kg_id := Some (default kg (Raw.kg_id ctx));
       run_id := Raw.run_id ctx;
       qid := Raw.qid ctx;
       context := default "" (Raw.context ctx);
       node_hits := default EMPTY_NODE_HITS (Raw.node_hits ctx);
       answer := Some (default "" (Raw.answer ctx)) |}.

(** A response as [buildOverlay] sees it. *)
Definition as_retrieval (r : Response) : RetrieveResponse :=
  overlay_input (default "" (qid r))
    (Some (overlay_hits (use_reasoning_path (node_hits r)) (node_datas (node_hits r)))).

End Api.

(** ** App.tsx: selecting a message *)

(** The state of the [App] component that the selection handler and the
    overlay effects read and write. *)
Record AppState : Type := {
  indexData : option IndexJson;
  selectedKg : option string;
  chatHistory : list ChatMessage;
  activeOverlay : option Overlay;
  mergedOverlay : option Overlay;
  resetZoomTick : nat;
  chatLoading : bool;
  selectedNode : option NodeRec;
  selectedLink : option Link;
}.

(** [prev.map((m) => (m.id === msg.id ? { ...m, retrieval: ctx } : m))] *)
Definition attach_retrieval (msg : ChatMessage) (ctx : RetrieveResponse)
    (prev : list ChatMessage) : list ChatMessage :=
  (λ m, if String.eqb (msg_id m) (msg_id msg)
        then {| msg_id := msg_id m; retrieval := Some ctx |}
        else m) <$> prev.

(** [buildOverlay(ctx, indexData.nodes)]: the first loop of the builder
    raises on a missing node list. *)
Definition buildOverlay_on (ctx : RetrieveResponse) (data : IndexJson) : outcome Overlay :=
  ns ←! iterate (nodes data) ;; buildOverlay ctx ns.

(** [handleMessageSelect] once [getContextData] has settled with [ctx]:
    the state it leaves and the error its promise is rejected with, if any.
    [ChatMessage] keeps the fields that the merge reads, so the [qid] of the
    selected message is passed beside it; no other update of the state is
    interleaved. *)
Definition handleMessageSelect (st : AppState) (msg : ChatMessage)
    (msg_qid : option string) (ctx : option Api.Response) : AppState * option JsError :=
  if falsy msg_qid then (st, None)
  else
    match indexData st with
    | None => (st, None)
    | Some data =>
        if falsy (selectedKg st) then (st, None)
        else
          let settled ov history tick :=
            {| indexData := indexData st;
               selectedKg := selectedKg st;
               chatHistory := history;
               activeOverlay := ov;
               mergedOverlay := mergedOverlay st;
               resetZoomTick := tick;
               chatLoading := false;
               selectedNode := None;
               selectedLink := None |} in
          match ctx with
          | None => (settled (activeOverlay st) (chatHistory st) (resetZoomTick st), None)
          | Some c =>
              match buildOverlay_on (Api.as_retrieval c) data with
              | Ok ov =>
                  (settled (Some ov)
                     (attach_retrieval msg (Api.as_retrieval c) (chatHistory st))
                     (S (resetZoomTick st)),
                   None)
              | Throw e =>
                  (settled (activeOverlay st) (chatHistory st) (resetZoomTick st), Some e)
              end
          end
    end.


(** The [overlay] property handed to the canvas: [activeOverlay ||
    mergedOverlay] (an overlay object is truthy, even with empty sets). *)
Definition displayed_overlay (st : AppState) : option Overlay :=
  match activeOverlay st with
  | Some ov => Some ov
  | None => mergedOverlay st
  end.


(** The state once the effect on [[chatHistory, indexData]] has run. *)
Definition run_merge_effect (st : AppState) : outcome AppState :=
  merged ←! mergedOverlay_effect (indexData st) (chatHistory st) (mergedOverlay st) ;;
  Ok {| indexData := indexData st;
        selectedKg := selectedKg st;
        chatHistory := chatHistory st;
        activeOverlay := activeOverlay st;
        mergedOverlay := merged;
        resetZoomTick := resetZoomTick st;
        chatLoading := chatLoading st;
        selectedNode := selectedNode st;
        selectedLink := selectedLink st |}.

(** ** api.ts: [encodeKgPath] *)

(** The characters that [encodeURIComponent] leaves alone: letters, digits
    and the marks [- _ . ! ~ * ' ( )]. *)
Definition is_unreserved (c : ascii) : bool :=
  let n := nat_of_ascii c in
  ((65 <=? n) && (n <=? 90) || (97 <=? n) && (n <=? 122) || (48 <=? n) && (n <=? 57)
   || (n =? 45) || (n =? 95) || (n =? 46) || (n =? 33) || (n =? 126)
   || (n =? 42) || (n =? 39) || (n =? 40) || (n =? 41))%nat.

(** An upper-case hexadecimal digit. *)
Definition hex_digit (n : nat) : ascii :=
  if (n <? 10)%nat then ascii_of_nat (48 + n) else ascii_of_nat (55 + n).

(** The escape of one code unit below 128: a percent sign and the two
    hexadecimal digits of its code. *)
Definition percent_encode (c : ascii) : string :=
  String "%" (String (hex_digit (nat_of_ascii c / 16))
                (String (hex_digit (nat_of_ascii c mod 16)) EmptyString)).

(** [encodeURIComponent], exact on code units below 128.  A code unit from
    128 on is escaped here as one byte; the function itself escapes the
    bytes of its UTF-8 form, and raises on a lone surrogate. *)
Fixpoint encodeURIComponent (s : string) : string :=
  match s with
  | EmptyString => EmptyString
  | String c s' =>
      (if is_unreserved c then String c EmptyString else percent_encode c)
      ++ encodeURIComponent s'
  end.

(** [s.split(sep)] for a separator of one character: the pieces between
    the separators, at least one. *)
Fixpoint split (sep : ascii) (s : string) : list string :=
  match s with
  | EmptyString => [EmptyString]
  | String c s' =>
      if Ascii.eqb c sep then EmptyString :: split sep s'
      else
        match split sep s' with
        | piece :: pieces => String c piece :: pieces
        | [] => [String c EmptyString]
        end
  end.

(** [id.split('/').map(encodeURIComponent).join('/')] *)
Definition encodeKgPath (kg : string) : string :=
  String.concat "/" (encodeURIComponent <$> split "/" kg).

(** Every character of [s] satisfies [p]. *)
Fixpoint all_chars (p : ascii → bool) (s : string) : bool :=
  match s with
  | EmptyString => true
  | String c s' => p c && all_chars p s'
  end.

(** The number of occurrences of [c] in [s]. *)
Fixpoint count_char (c : ascii) (s : string) : nat :=
  match s with
  | EmptyString => 0
  | String x s' => (if Ascii.eqb x c then 1 else 0) + count_char c s'
  end.

(** The characters that can occur in an encoded path. *)
Definition path_safe (c : ascii) : bool :=
  is_unreserved c || Ascii.eqb c "%" || Ascii.eqb c "/".

(** The path written character by character: a slash stays, an unreserved
    character stays, any other is escaped. *)
Fixpoint escape_path (s : string) : string :=
  match s with
  | EmptyString => EmptyString
  | String c s' =>
      (if Ascii.eqb c "/" then "/"
       else if is_unreserved c then String c EmptyString else percent_encode c)
      ++ escape_path s'
  end.

(** The value of a hexadecimal digit, and the reading of an escaped path;
    they serve to show that the encoding loses nothing. *)
Definition hex_value (c : ascii) : nat :=
  let n := nat_of_ascii c in
  if (n <? 58)%nat then n - 48 else n - 55.

Fixpoint unescape_path (s : string) : string :=
  match s with
  | EmptyString => EmptyString
  | String c rest =>
      if Ascii.eqb c "%" then
        match rest with
        | String h (String l rest') =>
            String (ascii_of_nat (16 * hex_value h + hex_value l)) (unescape_path rest')
        | _ => String c (unescape_path rest)
        end
      else String c (unescape_path rest)
  end.

(** * Properties *)

(** ** The normalizer *)

Section strip.
Variable p : ascii → bool.

Lemma strip_start_fixed s : starts_with p s = false → strip_start p s = s.
Proof. destruct s as [|c s]; simpl; [done|]. by intros ->. Qed.

Lemma starts_with_strip_start s : starts_with p (strip_start p s) = false.
Proof.
  induction s as [|c s IH]; simpl; [done|].
  destruct (p c) eqn:E; [done|]. simpl. by rewrite E.
Qed.

Lemma strip_end_fixed s : ends_with p s = false → strip_end p s = s.
Proof.
  induction s as [|c s IH]; simpl; [done|].
  destruct s as [|c' s'].
  - simpl. by intros ->.
  - intros H. rewrite (IH H). done.
Qed.

Lemma ends_with_strip_end s : ends_with p (strip_end p s) = false.
Proof.
  induction s as [|c s IH]; simpl; [done|].
  destruct (strip_end p s) as [|c' r] eqn:E.
  - destruct (p c) eqn:Ec; simpl; [done|]. by rewrite Ec.
  - done.
Qed.

(** Stripping the end keeps the first character, if anything is left. *)
Lemma starts_with_strip_end (q : ascii → bool) s :
  starts_with q s = false → starts_with q (strip_end p s) = false.
Proof.
  destruct s as [|c s]; simpl; [done|]. intros H.
  destruct (strip_end p s); [destruct (p c)|]; simpl; done.
Qed.

Lemma length_strip_start s : (String.length (strip_start p s) ≤ String.length s)%nat.
Proof.
  induction s as [|c s IH]; simpl; [done|].
  destruct (p c); simpl; lia.
Qed.

Lemma length_strip_start_lt s :
  starts_with p s = true → (String.length (strip_start p s) < String.length s)%nat.
Proof.
  destruct s as [|c s]; simpl; [done|]. intros ->.
  pose proof (length_strip_start s). lia.
Qed.

Lemma length_strip_end s : (String.length (strip_end p s) ≤ String.length s)%nat.
Proof.
  induction s as [|c s IH]; simpl; [done|].
  destruct (strip_end p s); [destruct (p c)|]; simpl in *; lia.
Qed.

Lemma length_strip_end_lt s :
  ends_with p s = true → (String.length (strip_end p s) < String.length s)%nat.
Proof.
  induction s as [|c s IH]; simpl; [done|].
  destruct s as [|c' s'].
  - simpl. intros ->. simpl. lia.
  - intros H. specialize (IH H).
    destruct (strip_end p (String c' s')); [destruct (p c)|]; simpl in *; lia.
Qed.

(** Characters satisfying [p] appended at the end are stripped with it. *)
Lemma strip_end_app_run s r :
  strip_end p r = EmptyString → strip_end p (s ++ r) = strip_end p s.
Proof.
  intros Hr. induction s as [|c s IH].
  - done.
  - change (String c s ++ r) with (String c (s ++ r)). simpl. by rewrite IH.
Qed.

Lemma strip_start_strip_end_app_run s r :
  strip_start p r = EmptyString → strip_end p r = EmptyString →
  strip_end p (strip_start p (s ++ r)) = strip_end p (strip_start p s).
Proof.
  intros Hs He. induction s as [|c s IH].
  - change (EmptyString ++ r) with r. by rewrite Hs.
  - change (String c s ++ r) with (String c (s ++ r)). simpl.
    destruct (p c); [done|].
    change (String c (s ++ r)) with (String c s ++ r).
    by apply strip_end_app_run.
Qed.

Hypothesis p_upper : ∀ c, p (upper_char c) = p c.

Lemma strip_start_toUpperCase s :
  strip_start p (toUpperCase s) = toUpperCase (strip_start p s).
Proof.
  induction s as [|c s IH]; simpl; [done|].
  rewrite p_upper. by destruct (p c).
Qed.

Lemma strip_end_toUpperCase s :
  strip_end p (toUpperCase s) = toUpperCase (strip_end p s).
Proof.
  induction s as [|c s IH]; simpl; [done|].
  rewrite IH, p_upper.
  destruct (strip_end p s); [destruct (p c)|]; done.
Qed.

Lemma starts_with_toUpperCase s : starts_with p (toUpperCase s) = starts_with p s.
Proof. destruct s; simpl; [done|]. apply p_upper. Qed.

Lemma ends_with_toUpperCase s : ends_with p (toUpperCase s) = ends_with p s.
Proof.
  induction s as [|c s IH]; simpl; [done|].
  destruct s as [|c' s']; simpl in *; [apply p_upper | done].
Qed.
End strip.

Lemma is_space_upper_char c : is_space (upper_char c) = is_space c.
Proof. by destruct c as [[] [] [] [] [] [] [] []]. Qed.

Lemma is_quote_upper_char c : is_quote (upper_char c) = is_quote c.
Proof. by destruct c as [[] [] [] [] [] [] [] []]. Qed.

Lemma upper_char_idem c : upper_char (upper_char c) = upper_char c.
Proof. by destruct c as [[] [] [] [] [] [] [] []]. Qed.

Lemma toUpperCase_idem s : toUpperCase (toUpperCase s) = toUpperCase s.
Proof. induction s as [|c s IH]; simpl; [done|]. by rewrite upper_char_idem, IH. Qed.

Lemma length_toUpperCase s : String.length (toUpperCase s) = String.length s.
Proof. induction s as [|c s IH]; simpl; [done|]. by rewrite IH. Qed.

Lemma trim_toUpperCase s : trim (toUpperCase s) = toUpperCase (trim s).
Proof.
  unfold trim.
  rewrite strip_start_toUpperCase, strip_end_toUpperCase; auto using is_space_upper_char.
Qed.

Lemma replace_wrapping_quotes_toUpperCase s :
  replace_wrapping_quotes (toUpperCase s) = toUpperCase (replace_wrapping_quotes s).
Proof.
  unfold replace_wrapping_quotes.
  rewrite strip_start_toUpperCase, strip_end_toUpperCase; auto using is_quote_upper_char.
Qed.

(** Upper-casing first changes nothing. *)
Lemma normalize_toUpperCase s : normalize (toUpperCase s) = normalize s.
Proof.
  unfold normalize.
  by rewrite replace_wrapping_quotes_toUpperCase, trim_toUpperCase, toUpperCase_idem.
Qed.

Lemma toUpperCase_normalize s : toUpperCase (normalize s) = normalize s.
Proof. unfold normalize. apply toUpperCase_idem. Qed.

Lemma starts_with_space_normalize s : starts_with is_space (normalize s) = false.
Proof.
  unfold normalize, trim.
  rewrite starts_with_toUpperCase by apply is_space_upper_char.
  apply starts_with_strip_end, starts_with_strip_start.
Qed.

Lemma ends_with_space_normalize s : ends_with is_space (normalize s) = false.
Proof.
  unfold normalize, trim.
  rewrite ends_with_toUpperCase by apply is_space_upper_char.
  apply ends_with_strip_end.
Qed.

(** The strings [normalize] leaves alone. *)
Lemma normalize_fixed y :
  starts_with is_quote y = false → ends_with is_quote y = false →
  starts_with is_space y = false → ends_with is_space y = false →
  toUpperCase y = y →
  normalize y = y.
Proof.
  intros Hq1 Hq2 Hs1 Hs2 Hu. unfold normalize, replace_wrapping_quotes, trim.
  rewrite (strip_start_fixed _ _ Hq1), (strip_end_fixed _ _ Hq2).
  by rewrite (strip_start_fixed _ _ Hs1), (strip_end_fixed _ _ Hs2).
Qed.

Lemma length_normalize y : (String.length (normalize y) ≤ String.length y)%nat.
Proof.
  unfold normalize, trim, replace_wrapping_quotes. rewrite length_toUpperCase.
  etrans; [apply length_strip_end|]. etrans; [apply length_strip_start|].
  etrans; [apply length_strip_end|]. apply length_strip_start.
Qed.

(** A quote at either end is removed, so the result is shorter. *)
Lemma length_normalize_lt y :
  starts_with is_quote y = true ∨ ends_with is_quote y = true →
  (String.length (normalize y) < String.length y)%nat.
Proof.
  intros H. unfold normalize, trim. rewrite length_toUpperCase.
  eapply Nat.le_lt_trans; [apply length_strip_end|].
  eapply Nat.le_lt_trans; [apply length_strip_start|].
  unfold replace_wrapping_quotes.
  destruct (starts_with is_quote y) eqn:E.
  - eapply Nat.le_lt_trans; [apply length_strip_end|]. by apply length_strip_start_lt.
  - destruct H as [H|H]; [done|].
    rewrite (strip_start_fixed _ _ E). by apply length_strip_end_lt.
Qed.

Lemma normalize_idempotent_iff x :
  normalize (normalize x) = normalize x ↔
  starts_with is_quote (normalize x) = false ∧ ends_with is_quote (normalize x) = false.
Proof.
  split.
  - intros Heq.
    destruct (starts_with is_quote (normalize x)) eqn:E1;
      [|destruct (ends_with is_quote (normalize x)) eqn:E2; [|done]].
    + pose proof (length_normalize_lt (normalize x) (or_introl E1)) as Hlt.
      rewrite Heq in Hlt. lia.
    + pose proof (length_normalize_lt (normalize x) (or_intror E2)) as Hlt.
      rewrite Heq in Hlt. lia.
  - intros [H1 H2].
    apply normalize_fixed; auto using starts_with_space_normalize,
      ends_with_space_normalize, toUpperCase_normalize.
Qed.

Lemma strip_start_all_quotes q s :
  all_quotes q = true → strip_start is_quote (q ++ s) = strip_start is_quote s.
Proof.
  induction q as [|c q IH]; [done|]. simpl. intros [Hc Hq]%andb_true_iff.
  change (String c q ++ s) with (String c (q ++ s)). simpl. rewrite Hc. auto.
Qed.

Lemma all_quotes_strip q :
  all_quotes q = true →
  strip_start is_quote q = EmptyString ∧ strip_end is_quote q = EmptyString.
Proof.
  induction q as [|c q IH]; [done|]. simpl. intros [Hc Hq]%andb_true_iff.
  destruct (IH Hq) as [-> ->]. by rewrite Hc.
Qed.

(** Quotes that wrap the text directly do not matter. *)
Lemma normalize_wrapped q x r :
  all_quotes q = true → all_quotes r = true →
  normalize (q ++ x ++ r) = normalize x.
Proof.
  intros Hq Hr. unfold normalize, replace_wrapping_quotes.
  rewrite strip_start_all_quotes by done.
  destruct (all_quotes_strip r Hr) as [H1 H2].
  by rewrite strip_start_strip_end_app_run.
Qed.

(** C1, as stated, fails: after the quotes are stripped [trim] can uncover
    new ones.  On the string made of a space, a quote and [a], [normalize]
    returns a quote followed by [A], and a second pass returns [A]; and the
    text [Foo] in quotes followed by a space keeps its closing quote, so it
    does not normalize to [FOO]. *)
Lemma normalize_not_idempotent :
  normalize (normalize (String " " (String dquote "a")))
    ≠ normalize (String " " (String dquote "a"))
  ∧ normalize (String dquote ("Foo" ++ String dquote " ")) ≠ normalize "FOO".
Proof. split; vm_compute; discriminate. Qed.

(** C1, amended: [normalize] is idempotent exactly on the inputs whose
    normal form neither starts nor ends with a quote; it is
    case-insensitive (inputs with the same upper-casing have the same normal
    form); quotes that wrap the text with nothing outside them are ignored;
    and the text [Foo] in quotes normalizes like [FOO]. *)
Theorem normalize_idempotent_unless_quote_uncovered :
  (∀ x, normalize (normalize x) = normalize x ↔
        starts_with is_quote (normalize x) = false ∧
        ends_with is_quote (normalize x) = false)
  ∧ (∀ x y, toUpperCase x = toUpperCase y → normalize x = normalize y)
  ∧ (∀ q x r, all_quotes q = true → all_quotes r = true →
              normalize (q ++ x ++ r) = normalize x)
  ∧ normalize (String dquote ("Foo" ++ String dquote "")) = normalize "FOO".
Proof.
  split; [apply normalize_idempotent_iff|].
  split; [|split; [apply normalize_wrapped | reflexivity]].
  intros x y Hxy. by rewrite <-(normalize_toUpperCase x), Hxy, normalize_toUpperCase.
Qed.

Lemma normalize_idempotent_unless_quote_uncovered_witness :
  normalize (normalize "Egg ") = normalize "Egg "
  ∧ normalize "egg" = normalize "EGG"
  ∧ normalize (String dquote "" ++ "Egg" ++ String dquote "") = normalize "Egg".
Proof.
  destruct normalize_idempotent_unless_quote_uncovered as (Hidem & Hcase & Hwrap & _).
  split; [apply Hidem; split; reflexivity|].
  split; [apply Hcase; reflexivity | apply Hwrap; reflexivity].
Defined.

(** ** The identity index *)

Lemma elem_of_add_all set ids x : x ∈ add_all set ids ↔ x ∈ set ∨ x ∈ ids.
Proof.
  unfold add_all. revert set.
  induction ids as [|i ids IH]; intros set; simpl.
  - rewrite elem_of_nil. tauto.
  - rewrite IH, elem_of_union, elem_of_singleton, elem_of_cons. tauto.
Qed.

Lemma elem_of_indexed_texts n s :
  s ∈ indexed_texts n ↔ ∃ key, key ∈ attributes n ∧ falsy key = false ∧ key = Some s.
Proof.
  unfold indexed_texts. rewrite list_elem_of_omap. split.
  - intros (key & Hin & Hk). exists key. destruct (falsy key) eqn:E; naive_solver.
  - intros (key & Hin & Hf & ->). exists (Some s). by rewrite Hf.
Qed.

Lemma indexed_texts_nonempty n s : s ∈ indexed_texts n → s ≠ EmptyString.
Proof.
  rewrite elem_of_indexed_texts. intros (key & _ & Hf & ->) ->. done.
Qed.

Lemma lookup_index_key n m key k :
  index_key n m key !! k =
    if decide (falsy key = false ∧ normalize (default "" key) = k)
    then Some (get_or_empty m k ++ [id n])%list
    else m !! k.
Proof.
  unfold index_key. destruct (falsy key) eqn:E.
  - rewrite decide_False by naive_solver. done.
  - destruct (decide (normalize (default "" key) = k)) as [<-|Hne].
    + rewrite decide_True by done. by rewrite lookup_insert_eq.
    + rewrite decide_False by naive_solver. by rewrite lookup_insert_ne.
Qed.

Lemma entries_nonempty_index_key n m key :
  entries_nonempty m → entries_nonempty (index_key n m key).
Proof.
  intros Hm k l. rewrite lookup_index_key. case_decide.
  - intros [= <-]. by destruct (get_or_empty m k).
  - apply Hm.
Qed.

Lemma entries_nonempty_fold_keys n keys m :
  entries_nonempty m → entries_nonempty (fold_left (index_key n) keys m).
Proof.
  revert m. induction keys as [|key keys IH]; intros m Hm; simpl; [done|].
  apply IH, entries_nonempty_index_key, Hm.
Qed.

Lemma entries_nonempty_fold_nodes ns m :
  entries_nonempty m → entries_nonempty (fold_left index_node ns m).
Proof.
  revert m. induction ns as [|n ns IH]; intros m Hm; simpl; [done|].
  apply IH. unfold index_node. by apply entries_nonempty_fold_keys.
Qed.

Lemma entries_nonempty_buildNameMap ns : entries_nonempty (buildNameMap ns).
Proof. apply entries_nonempty_fold_nodes. intros k l. by rewrite lookup_empty. Qed.

Lemma elem_of_index_key n m key k x :
  x ∈ get_or_empty (index_key n m key) k ↔
  x ∈ get_or_empty m k ∨
  (x = id n ∧ falsy key = false ∧ normalize (default "" key) = k).
Proof.
  unfold get_or_empty at 1. rewrite lookup_index_key. case_decide as H; simpl.
  - rewrite elem_of_app, list_elem_of_singleton. naive_solver.
  - fold (get_or_empty m k). naive_solver.
Qed.

Lemma elem_of_fold_keys n keys m k x :
  x ∈ get_or_empty (fold_left (index_key n) keys m) k ↔
  x ∈ get_or_empty m k ∨
  (x = id n ∧ ∃ key, key ∈ keys ∧ falsy key = false ∧ normalize (default "" key) = k).
Proof.
  revert m. induction keys as [|key keys IH]; intros m; simpl.
  - split; [auto|]. intros [?|(_ & key & Hin & _)]; [done|]. by apply elem_of_nil in Hin.
  - rewrite IH, elem_of_index_key. setoid_rewrite elem_of_cons. naive_solver.
Qed.

Lemma elem_of_index_node n m k x :
  x ∈ get_or_empty (index_node m n) k ↔
  x ∈ get_or_empty m k ∨ (x = id n ∧ ∃ s, s ∈ indexed_texts n ∧ normalize s = k).
Proof.
  unfold index_node. rewrite elem_of_fold_keys.
  setoid_rewrite elem_of_indexed_texts. split.
  - intros [?|(-> & key & Hin & Hf & Hk)]; [auto|]. right. split; [done|].
    destruct key as [s|]; [|done]. exists s. split; [|done]. by exists (Some s).
  - intros [?|(-> & s & (key & Hin & Hf & ->) & Hk)]; [auto|]. right.
    split; [done|]. by exists (Some s).
Qed.

Lemma elem_of_fold_nodes ns m k x :
  x ∈ get_or_empty (fold_left index_node ns m) k ↔
  x ∈ get_or_empty m k ∨
  ∃ n, n ∈ ns ∧ id n = x ∧ ∃ s, s ∈ indexed_texts n ∧ normalize s = k.
Proof.
  revert m. induction ns as [|n ns IH]; intros m; simpl.
  - split; [auto|]. intros [?|(n & Hin & _)]; [done|]. by apply elem_of_nil in Hin.
  - rewrite IH, elem_of_index_node. setoid_rewrite elem_of_cons. naive_solver.
Qed.

(** The ids listed under a canonical text are those of the nodes with a
    non-empty attribute that normalizes to it. *)
Lemma elem_of_buildNameMap ns k x :
  x ∈ get_or_empty (buildNameMap ns) k ↔
  ∃ n, n ∈ ns ∧ id n = x ∧ ∃ s, s ∈ indexed_texts n ∧ normalize s = k.
Proof.
  unfold buildNameMap. rewrite elem_of_fold_nodes.
  unfold get_or_empty at 1. rewrite lookup_empty. simpl.
  split; [|auto]. intros [H|?]; [|done]. by apply elem_of_nil in H.
Qed.

Lemma is_Some_buildNameMap ns k :
  is_Some (buildNameMap ns !! k) ↔
  ∃ n s, n ∈ ns ∧ s ∈ indexed_texts n ∧ normalize s = k.
Proof.
  split.
  - intros [l Hl].
    pose proof (entries_nonempty_buildNameMap ns k l Hl) as Hne.
    destruct l as [|x l]; [done|].
    assert (x ∈ get_or_empty (buildNameMap ns) k) as Hx.
    { unfold get_or_empty. rewrite Hl. simpl. left. }
    apply elem_of_buildNameMap in Hx as (n & Hn & _ & s & Hs & Hk). eauto.
  - intros (n & s & Hn & Hs & Hk).
    assert (id n ∈ get_or_empty (buildNameMap ns) k) as Hx.
    { apply elem_of_buildNameMap. eauto 10. }
    unfold get_or_empty in Hx. destruct (buildNameMap ns !! k); [eauto|].
    by apply elem_of_nil in Hx.
Qed.

(** ** The overlay builder *)

Lemma elem_of_fold_hit_step m datas set x :
  x ∈ fold_left (hit_step m) datas set ↔
  x ∈ set ∨ ∃ nd, nd ∈ datas ∧ x ∈ get_or_empty m (normalize (entity_name nd)).
Proof.
  revert set. induction datas as [|nd datas IH]; intros set; simpl.
  - split; [auto|]. intros [?|(nd & Hin & _)]; [done|]. by apply elem_of_nil in Hin.
  - rewrite IH. unfold hit_step. rewrite elem_of_add_all.
    setoid_rewrite elem_of_cons. naive_solver.
Qed.

Lemma elem_of_fold_path_nodes m rp acc x :
  x ∈ fst (fold_left (path_step m) rp acc) ↔
  x ∈ fst acc ∨ ∃ p, p ∈ rp ∧ resolves m p x.
Proof.
  revert acc. induction rp as [|p rp IH]; intros acc; simpl.
  - split; [auto|]. intros [?|(p & Hin & _)]; [done|]. by apply elem_of_nil in Hin.
  - rewrite IH. simpl. rewrite !elem_of_add_all.
    setoid_rewrite elem_of_cons. unfold resolves. naive_solver.
Qed.

Lemma elem_of_fold_path_edges m rp acc k :
  k ∈ snd (fold_left (path_step m) rp acc) ↔
  k ∈ snd acc ∨ ∃ p, p ∈ rp ∧ keys_of p k.
Proof.
  revert acc. induction rp as [|p rp IH]; intros acc; simpl.
  - split; [auto|]. intros [?|(p & Hin & _)]; [done|]. by apply elem_of_nil in Hin.
  - rewrite IH. simpl. rewrite !elem_of_union, !elem_of_singleton.
    setoid_rewrite elem_of_cons. unfold keys_of. naive_solver.
Qed.

Lemma buildOverlay_Ok_inv res ns ov :
  buildOverlay res ns = Ok ov →
  ∃ hits datas, node_hits res = Some hits ∧ node_datas hits = Some datas.
Proof.
  unfold buildOverlay. destruct (node_hits res) as [hits|]; simpl; [|done].
  destruct (node_datas hits) as [datas|] eqn:Hd; simpl; [|done]. intros _. eauto.
Qed.

(** With [node_hits] and [node_datas] present the builder returns, and its
    three sets are characterized by membership. *)
Lemma buildOverlay_spec res ns hits datas :
  node_hits res = Some hits → node_datas hits = Some datas →
  ∃ ov, buildOverlay res ns = Ok ov
    ∧ (∀ x, x ∈ hitNodeIds ov ↔
         ∃ nd, nd ∈ datas ∧
               x ∈ get_or_empty (buildNameMap ns) (normalize (entity_name nd)))
    ∧ (∀ x, x ∈ pathNodeIds ov ↔
         ∃ p, p ∈ reasoning_of hits ∧ resolves (buildNameMap ns) p x)
    ∧ (∀ k, k ∈ pathEdgeKeys ov ↔ ∃ p, p ∈ reasoning_of hits ∧ keys_of p k).
Proof.
  intros Hh Hd. unfold buildOverlay. rewrite Hh. simpl. rewrite Hd. simpl.
  eexists. split; [done|]. simpl. split; [|split].
  - intros x. rewrite elem_of_fold_hit_step. set_solver.
  - intros x. rewrite elem_of_fold_path_nodes. simpl. set_solver.
  - intros k. rewrite elem_of_fold_path_edges. simpl. set_solver.
Qed.

Lemma buildOverlay_elems res ns ov hits datas :
  buildOverlay res ns = Ok ov →
  node_hits res = Some hits → node_datas hits = Some datas →
  (∀ x, x ∈ hitNodeIds ov ↔
     ∃ nd, nd ∈ datas ∧
           x ∈ get_or_empty (buildNameMap ns) (normalize (entity_name nd)))
  ∧ (∀ x, x ∈ pathNodeIds ov ↔
       ∃ p, p ∈ reasoning_of hits ∧ resolves (buildNameMap ns) p x)
  ∧ (∀ k, k ∈ pathEdgeKeys ov ↔ ∃ p, p ∈ reasoning_of hits ∧ keys_of p k).
Proof.
  intros Hov Hh Hd.
  destruct (buildOverlay_spec res ns hits datas Hh Hd) as (ov' & Hov' & H).
  rewrite Hov in Hov'. by injection Hov' as ->.
Qed.

(** C3: [buildOverlay] does not treat an absent [node_datas] as an empty
    sequence.  On a result whose [node_hits] lacks [node_datas] (and on one
    that lacks [node_hits]) it raises a [TypeError], for every node list,
    whereas an absent [use_reasoning_path] is defaulted: with [node_datas]
    present and empty the three sets are empty. *)
Theorem buildOverlay_absent_node_datas_throws :
  (∀ ns, buildOverlay retrieval_without_node_datas ns = Throw TypeError)
  ∧ (∀ ns q rp,
       buildOverlay
         {| qid := q;
            node_hits := Some {| use_reasoning_path := rp; node_datas := None |} |} ns
       = Throw TypeError)
  ∧ (∀ ns q, buildOverlay {| qid := q; node_hits := None |} ns = Throw TypeError)
  ∧ (∀ ns, buildOverlay retrieval_without_reasoning_path ns = Ok emptyOverlay)
  ∧ (∀ ns q,
       buildOverlay
         {| qid := q;
            node_hits := Some {| use_reasoning_path := Some []; node_datas := Some [] |} |} ns
       = Ok emptyOverlay).
Proof. repeat split. Qed.

(** The sets built for the egg scenario. *)
Lemma buildOverlay_egg :
  buildOverlay egg_retrieval egg_graph =
    Ok {| hitNodeIds := {[ "n1" ]};
          pathNodeIds := {[ "n1"; "n2" ]};
          pathEdgeKeys := {[ "EGG||BOIL"; "BOIL||EGG" ]} |}.
Proof. vm_compute. reflexivity. Qed.

(** A retrieval name and an attribute with the same normal form: the node
    is hit. *)
Lemma hit_of_shared_text res ns ov hits datas nd n s :
  buildOverlay res ns = Ok ov →
  node_hits res = Some hits → node_datas hits = Some datas →
  nd ∈ datas → n ∈ ns → s ∈ indexed_texts n →
  normalize (entity_name nd) = normalize s →
  id n ∈ hitNodeIds ov.
Proof.
  intros Hov Hh Hd Hnd Hn Hs Heq.
  destruct (buildOverlay_elems _ _ _ _ _ Hov Hh Hd) as (Hhit & _ & _).
  apply Hhit. exists nd. split; [done|]. apply elem_of_buildNameMap. eauto 10.
Qed.

Lemma label_indexed n l : label n = Some l → l ≠ EmptyString → l ∈ indexed_texts n.
Proof.
  intros Hl Hne. apply elem_of_indexed_texts. exists (Some l).
  split; [|split; [by destruct l|done]].
  unfold attributes. rewrite Hl. set_solver.
Qed.

(** C5: when [node_datas] is present [buildOverlay] returns, and
    [hitNodeIds] is exactly the union, over the [node_datas] entries, of the
    ids that the identity index lists under the normalized [entity_name]; an
    entry whose name has no index entry leaves [hitNodeIds] as it is without
    that entry; a name that matches the non-empty label shared by two nodes
    puts both ids in; and the egg scenario yields the three expected sets. *)
Theorem hitNodeIds_exact :
  (∀ ns q rp datas,
     ∃ ov,
       buildOverlay
         {| qid := q;
            node_hits := Some {| use_reasoning_path := rp; node_datas := Some datas |} |} ns
       = Ok ov
       ∧ ∀ x, x ∈ hitNodeIds ov ↔
              ∃ nd, nd ∈ datas ∧
                    x ∈ get_or_empty (buildNameMap ns) (normalize (entity_name nd)))
  ∧ (∀ ns q rp datas nd ov,
       buildNameMap ns !! normalize (entity_name nd) = None →
       buildOverlay
         {| qid := q;
            node_hits := Some {| use_reasoning_path := rp; node_datas := Some datas |} |} ns
       = Ok ov →
       ∃ ov',
         buildOverlay
           {| qid := q;
              node_hits := Some {| use_reasoning_path := rp;
                                   node_datas := Some (nd :: datas) |} |} ns
         = Ok ov'
         ∧ hitNodeIds ov' = hitNodeIds ov)
  ∧ (∀ ns q rp datas nd ov n1 n2 l,
       buildOverlay
         {| qid := q;
            node_hits := Some {| use_reasoning_path := rp; node_datas := Some datas |} |} ns
       = Ok ov →
       nd ∈ datas → n1 ∈ ns → n2 ∈ ns →
       label n1 = Some l → label n2 = Some l → l ≠ EmptyString →
       normalize (entity_name nd) = normalize l →
       id n1 ∈ hitNodeIds ov ∧ id n2 ∈ hitNodeIds ov)
  ∧ buildOverlay egg_retrieval egg_graph =
      Ok {| hitNodeIds := {[ "n1" ]};
            pathNodeIds := {[ "n1"; "n2" ]};
            pathEdgeKeys := {[ "EGG||BOIL"; "BOIL||EGG" ]} |}.
Proof.
  split; [|split; [|split; [|apply buildOverlay_egg]]].
  - intros ns q rp datas.
    edestruct (buildOverlay_spec
      {| qid := q;
         node_hits := Some {| use_reasoning_path := rp; node_datas := Some datas |} |}
      ns) as (ov & Hov & Hhit & _); [done..|]. eauto.
  - intros ns q rp datas nd ov Hnone Hov.
    edestruct (buildOverlay_spec
      {| qid := q;
         node_hits := Some {| use_reasoning_path := rp;
                              node_datas := Some (nd :: datas) |} |}
      ns) as (ov' & Hov' & Hhit' & _); [done..|].
    exists ov'. split; [done|].
    destruct (buildOverlay_elems _ _ _ _ _ Hov eq_refl eq_refl) as (Hhit & _ & _).
    apply set_eq. intros x. rewrite Hhit, Hhit'. split.
    + intros (nd' & [->|Hin]%elem_of_cons & Hx); [|eauto].
      unfold get_or_empty in Hx. rewrite Hnone in Hx. by apply elem_of_nil in Hx.
    + intros (nd' & Hin & Hx). exists nd'. split; [by right|done].
  - intros ns q rp datas nd ov n1 n2 l Hov Hnd Hn1 Hn2 Hl1 Hl2 Hne Heq.
    split; eapply hit_of_shared_text; eauto using label_indexed.
Qed.

Lemma hitNodeIds_exact_witness :
  ∃ ov, buildOverlay egg_retrieval [egg_node; egg_twin_node] = Ok ov
        ∧ "n1" ∈ hitNodeIds ov ∧ "n3" ∈ hitNodeIds ov.
Proof.
  destruct hitNodeIds_exact as (Hall & _ & Hshared & _).
  destruct (Hall [egg_node; egg_twin_node]
                 "q1" (Some [ {| src_tgt := ("Egg", "Boil") |} ])
                 [ {| entity_name := "EGG" |} ]) as (ov & Hov & _).
  exists ov. split; [exact Hov|].
  apply (Hshared _ _ _ _ {| entity_name := "EGG" |} ov egg_node egg_twin_node
           "Egg" Hov).
  - apply list_elem_of_singleton. reflexivity.
  - left.
  - right. left.
  - reflexivity.
  - reflexivity.
  - discriminate.
  - reflexivity.
Defined.

(** The two keys of one pair mirror each other. *)
Lemma keys_of_mirror p k :
  keys_of p k → ∃ a b, k = key_of a b ∧ keys_of p (key_of b a).
Proof.
  unfold keys_of. intros [->| ->]; eexists _, _; (split; [reflexivity|]); auto.
Qed.

(** C6: for every reasoning-path entry, both orderings of the key built
    from the two normalized strings are in [pathEdgeKeys]; every key of the
    set is the key of some pair of strings whose mirror is in the set too;
    and the set is the same whatever the node list, so it does not depend on
    either string resolving to a node. *)
Theorem pathEdgeKeys_symmetric res ns ov hits :
  buildOverlay res ns = Ok ov →
  node_hits res = Some hits →
  (∀ p, p ∈ reasoning_of hits →
        key_of (normalize (fst (src_tgt p))) (normalize (snd (src_tgt p)))
          ∈ pathEdgeKeys ov
        ∧ key_of (normalize (snd (src_tgt p))) (normalize (fst (src_tgt p)))
          ∈ pathEdgeKeys ov)
  ∧ (∀ k, k ∈ pathEdgeKeys ov →
          ∃ a b, k = key_of a b ∧ key_of b a ∈ pathEdgeKeys ov)
  ∧ (∀ ns', ∃ ov', buildOverlay res ns' = Ok ov' ∧ pathEdgeKeys ov' = pathEdgeKeys ov).
Proof.
  intros Hov Hh.
  destruct (buildOverlay_Ok_inv _ _ _ Hov) as (hits' & datas & Hh' & Hd).
  assert (hits' = hits) as -> by congruence.
  destruct (buildOverlay_elems _ _ _ _ _ Hov Hh Hd) as (_ & _ & Hkeys).
  split; [|split].
  - intros p Hp. split; apply Hkeys; exists p; (split; [done|]); [by left|by right].
  - intros k (p & Hp & Hk)%Hkeys.
    destruct (keys_of_mirror _ _ Hk) as (a & b & -> & Hm).
    exists a, b. split; [done|]. apply Hkeys. eauto.
  - intros ns'.
    destruct (buildOverlay_spec res ns' hits datas Hh Hd) as (ov' & Hov' & _ & _ & Hkeys').
    exists ov'. split; [done|]. apply set_eq. intros k. by rewrite Hkeys, Hkeys'.
Qed.

Lemma pathEdgeKeys_symmetric_witness :
  ∃ ov, buildOverlay egg_retrieval egg_graph = Ok ov
        ∧ "EGG||BOIL" ∈ pathEdgeKeys ov ∧ "BOIL||EGG" ∈ pathEdgeKeys ov.
Proof.
  eexists. split; [exact buildOverlay_egg|].
  destruct (pathEdgeKeys_symmetric egg_retrieval egg_graph _ _ buildOverlay_egg eq_refl)
    as (Hkeys & _ & _).
  apply (Hkeys {| src_tgt := ("Egg", "Boil") |}). left.
Defined.

(** C7, as stated, fails: the guard of the index loop tests the raw
    attribute, not its normal form.  A label made of one space passes the
    guard and is indexed under the empty canonical string, where a retrieval
    name that is blank finds it. *)
Lemma blank_label_indexed_under_empty_key :
  buildNameMap [blank_label_node] !! EmptyString = Some ["n1"]
  ∧ buildOverlay blank_retrieval [blank_label_node] =
      Ok {| hitNodeIds := {[ "n1" ]}; pathNodeIds := ∅; pathEdgeKeys := ∅ |}.
Proof. split; vm_compute; reflexivity. Qed.

(** C7, amended: an attribute that is empty or null is never inserted (the
    index is left as it is), the index has an entry under a canonical text
    exactly when a non-empty attribute of some node normalizes to it, and so
    it has no entry under the empty canonical string, and nothing to match
    there, whenever no non-empty attribute normalizes to the empty string. *)
Theorem index_keys_from_nonempty_attributes ns :
  (∀ n m key, falsy key = true → index_key n m key = m)
  ∧ (∀ k, is_Some (buildNameMap ns !! k) ↔
          ∃ n s, n ∈ ns ∧ s ∈ indexed_texts n ∧ s ≠ EmptyString ∧ normalize s = k)
  ∧ ((∀ n s, n ∈ ns → s ∈ indexed_texts n → normalize s ≠ EmptyString) →
     buildNameMap ns !! EmptyString = None
     ∧ get_or_empty (buildNameMap ns) EmptyString = []).
Proof.
  split; [|split].
  - intros n m key Hf. unfold index_key. by rewrite Hf.
  - intros k. rewrite is_Some_buildNameMap. split.
    + intros (n & s & Hn & Hs & Hk). exists n, s.
      eauto using indexed_texts_nonempty.
    + intros (n & s & Hn & Hs & _ & Hk). eauto.
  - intros Hno.
    assert (buildNameMap ns !! EmptyString = None) as Hnone.
    { apply eq_None_not_Some. rewrite is_Some_buildNameMap.
      intros (n & s & Hn & Hs & Hk). by apply (Hno n s). }
    split; [done|]. unfold get_or_empty. by rewrite Hnone.
Qed.

Lemma index_keys_from_nonempty_attributes_witness :
  buildNameMap egg_graph !! EmptyString = None
  ∧ get_or_empty (buildNameMap egg_graph) EmptyString = [].
Proof.
  apply (index_keys_from_nonempty_attributes egg_graph).
  intros n s Hn Hs.
  repeat (apply elem_of_cons in Hn as [->|Hn]); [| |by apply elem_of_nil in Hn];
    vm_compute in Hs;
    repeat (apply elem_of_cons in Hs as [->|Hs]); try (by apply elem_of_nil in Hs);
    vm_compute; discriminate.
Defined.

(** C9: the ids in [hitNodeIds] and [pathNodeIds] are ids of nodes of the
    given node list. *)
Theorem overlay_ids_in_node_list res ns ov :
  buildOverlay res ns = Ok ov →
  ∀ x, x ∈ hitNodeIds ov ∪ pathNodeIds ov → x ∈ node_ids ns.
Proof.
  intros Hov x Hx.
  destruct (buildOverlay_Ok_inv _ _ _ Hov) as (hits & datas & Hh & Hd).
  destruct (buildOverlay_elems _ _ _ _ _ Hov Hh Hd) as (Hhit & Hpath & _).
  assert (∃ k, x ∈ get_or_empty (buildNameMap ns) k) as [k Hk].
  { apply elem_of_union in Hx as [Hx|Hx].
    - destruct (proj1 (Hhit x) Hx) as (nd & _ & Hx'). eauto.
    - destruct (proj1 (Hpath x) Hx) as (p & _ & [Hx'|Hx']); eauto. }
  apply elem_of_buildNameMap in Hk as (n & Hn & <- & _).
  unfold node_ids. by apply list_elem_of_fmap_2.
Qed.

Lemma overlay_ids_in_node_list_witness : "n2" ∈ node_ids egg_graph.
Proof.
  apply (overlay_ids_in_node_list egg_retrieval egg_graph _ buildOverlay_egg).
  vm_compute. reflexivity.
Defined.

(** ** The render-side edge key *)

Lemma endpoint_text_rendered x :
  rendered_end x = true → ∃ s, endpoint_text x = Ok s.
Proof. destruct x as [s|[|s|n]|]; simpl; intros H; try done; eauto. Qed.

(** A link whose ends have the normal forms of a reasoning pair, in either
    order, is a path edge. *)
Lemma isPathEdge_of_pair res ns ov hits p e :
  buildOverlay res ns = Ok ov →
  node_hits res = Some hits →
  p ∈ reasoning_of hits →
  (endpoint_text (source e) = Ok (normalize (fst (src_tgt p))) ∧
   endpoint_text (target e) = Ok (normalize (snd (src_tgt p))))
  ∨ (endpoint_text (source e) = Ok (normalize (snd (src_tgt p))) ∧
     endpoint_text (target e) = Ok (normalize (fst (src_tgt p)))) →
  ∃ k, edgeKey e = Ok k ∧ k ∈ pathEdgeKeys ov ∧ isPathEdge (Some ov) e = Ok true.
Proof.
  intros Hov Hh Hp He.
  destruct (buildOverlay_Ok_inv _ _ _ Hov) as (hits' & datas & Hh' & Hd).
  assert (hits' = hits) as -> by congruence.
  destruct (buildOverlay_elems _ _ _ _ _ Hov Hh Hd) as (_ & _ & Hkeys).
  unfold isPathEdge, edgeKey.
  destruct He as [[-> ->]|[-> ->]]; simpl; eexists; (split; [reflexivity|]).
  - assert (key_of (normalize (fst (src_tgt p))) (normalize (snd (src_tgt p)))
              ∈ pathEdgeKeys ov) as Hk.
    { apply Hkeys. exists p. split; [done|]. by left. }
    split; [done|]. by rewrite bool_decide_eq_true_2.
  - assert (key_of (normalize (snd (src_tgt p))) (normalize (fst (src_tgt p)))
              ∈ pathEdgeKeys ov) as Hk.
    { apply Hkeys. exists p. split; [done|]. by right. }
    split; [done|]. by rewrite bool_decide_eq_true_2.
Qed.

(** C10: [edgeKey] returns on both shapes of end that the renderer
    produces.  On string ends it is the two normalized strings around the
    delimiter; on node objects it uses the [id] of the object, a missing [id]
    counting as the empty string; it raises only on a node object whose [id]
    is not a string.  A link with string ends whose normalized texts are
    those of a reasoning pair, in either order, has the key that
    [buildOverlay] put in [pathEdgeKeys], so the renderer finds it to be a
    path edge. *)
Theorem edgeKey_total_and_matches_builder :
  (∀ s t ty,
     edgeKey {| source := EndpointString s; target := EndpointString t; edge_type := ty |}
     = Ok (normalize s ++ "||" ++ normalize t))
  ∧ (∀ i j ty,
       edgeKey {| source := EndpointNode (IdString i); target := EndpointNode (IdString j);
                  edge_type := ty |}
       = Ok (normalize i ++ "||" ++ normalize j))
  ∧ (∀ t ty,
       edgeKey {| source := EndpointNode IdAbsent; target := EndpointString t;
                  edge_type := ty |}
       = Ok ("||" ++ normalize t)
       ∧ edgeKey {| source := EndpointString t; target := EndpointNode IdAbsent;
                    edge_type := ty |}
         = Ok (normalize t ++ "||"))
  ∧ (∀ e, rendered_end (source e) = true → rendered_end (target e) = true →
          ∃ k, edgeKey e = Ok k)
  ∧ (∀ e err, edgeKey e = Throw err →
              ∃ n, source e = EndpointNode (IdNumber n)
                   ∨ target e = EndpointNode (IdNumber n))
  ∧ (∀ res ns ov hits p s t ty,
       buildOverlay res ns = Ok ov →
       node_hits res = Some hits →
       p ∈ reasoning_of hits →
       (normalize s = normalize (fst (src_tgt p)) ∧
        normalize t = normalize (snd (src_tgt p)))
       ∨ (normalize s = normalize (snd (src_tgt p)) ∧
          normalize t = normalize (fst (src_tgt p))) →
       ∃ k, edgeKey {| source := EndpointString s; target := EndpointString t;
                       edge_type := ty |} = Ok k
            ∧ k ∈ pathEdgeKeys ov
            ∧ isPathEdge (Some ov)
                {| source := EndpointString s; target := EndpointString t;
                   edge_type := ty |} = Ok true).
Proof.
  split; [done|]. split; [done|]. split; [by intros t ty|].
  split; [|split].
  - intros e Hs Ht. unfold edgeKey.
    destruct (endpoint_text_rendered _ Hs) as [s ->].
    destruct (endpoint_text_rendered _ Ht) as [t ->]. simpl. eauto.
  - intros [src tgt ty] err. unfold edgeKey. simpl.
    destruct src as [s|[|s|n]|]; simpl; try (intros _; exists n; by left);
      destruct tgt as [t|[|t|m]|]; simpl; try done; intros _; exists m; by right.
  - intros res ns ov hits p s t ty Hov Hh Hp He.
    eapply isPathEdge_of_pair; eauto. simpl.
    destruct He as [[-> ->]|[-> ->]]; auto.
Qed.

Lemma edgeKey_total_and_matches_builder_witness :
  isPathEdge
    (Some {| hitNodeIds := {[ "n1" ]};
             pathNodeIds := {[ "n1"; "n2" ]};
             pathEdgeKeys := {[ "EGG||BOIL"; "BOIL||EGG" ]} |})
    {| source := EndpointString "boil"; target := EndpointString " egg ";
       edge_type := "bridge" |} = Ok true.
Proof.
  destruct edgeKey_total_and_matches_builder as (_ & _ & _ & _ & _ & Hmatch).
  destruct (Hmatch egg_retrieval egg_graph _ _ {| src_tgt := ("Egg", "Boil") |}
           "boil" " egg " "bridge" buildOverlay_egg eq_refl) as (k & _ & _ & Hpath).
  - left.
  - right. split; reflexivity.
  - exact Hpath.
Defined.

(** ** The overlay accumulator *)

Lemma overlay_eq (a b : Overlay) :
  hitNodeIds a = hitNodeIds b → pathNodeIds a = pathNodeIds b →
  pathEdgeKeys a = pathEdgeKeys b → a = b.
Proof. destruct a, b; simpl; by intros -> -> ->. Qed.

Lemma fold_union_overlay ovs acc :
  fold_left union_overlay ovs acc = union_overlay acc (union_all ovs).
Proof.
  revert acc. induction ovs as [|ov ovs IH]; intros acc; simpl.
  - apply overlay_eq; simpl; set_solver.
  - rewrite IH. apply overlay_eq; simpl; set_solver.
Qed.

Lemma message_overlays_cons ns msg rest :
  message_overlays ns (msg :: rest) =
    match retrieval msg with
    | Some r => buildOverlay r ns :: message_overlays ns rest
    | None => message_overlays ns rest
    end.
Proof. unfold message_overlays. simpl. by destruct (retrieval msg). Qed.

(** If every per-message overlay is built, the loop returns their union on
    top of the accumulator. *)
Lemma merge_loop_Ok ns history : ∀ acc ovs,
  message_overlays ns history = Ok <$> ovs →
  merge_loop (Some ns) acc history = Ok (fold_left union_overlay ovs acc).
Proof.
  induction history as [|msg rest IH]; intros acc ovs.
  - destruct ovs; [done|]. discriminate.
  - rewrite message_overlays_cons. simpl. unfold merge_step.
    destruct (retrieval msg) as [r|]; simpl.
    + destruct ovs as [|ov ovs]; [discriminate|]. simpl.
      intros [= Hov Hrest]. rewrite Hov. simpl. by apply IH.
    + apply IH.
Qed.

(** If the loop returns, every per-message overlay was built. *)
Lemma merge_loop_Ok_inv ns history : ∀ acc ov,
  merge_loop (Some ns) acc history = Ok ov →
  ∃ ovs, message_overlays ns history = Ok <$> ovs.
Proof.
  induction history as [|msg rest IH]; intros acc ov.
  - intros _. by exists [].
  - rewrite message_overlays_cons. simpl. unfold merge_step.
    destruct (retrieval msg) as [r|]; simpl.
    + destruct (buildOverlay r ns) as [o|e]; simpl; [|done].
      intros (ovs & ->)%IH. by exists (o :: ovs).
    + apply IH.
Qed.

(** If the loop raises, the builder raised on some message. *)
Lemma merge_loop_Throw ns history : ∀ acc e,
  merge_loop (Some ns) acc history = Throw e →
  ∃ msg r, msg ∈ history ∧ retrieval msg = Some r ∧ buildOverlay r ns = Throw e.
Proof.
  induction history as [|msg rest IH]; intros acc e; simpl; [done|].
  unfold merge_step. destruct (retrieval msg) as [r|] eqn:Hr; simpl.
  - destruct (buildOverlay r ns) as [o|e'] eqn:Ho; simpl.
    + intros (m & r' & Hin & H)%IH. exists m, r'. split; [by right|done].
    + intros [= ->]. exists msg, r. split; [left|done].
  - intros (m & r' & Hin & H)%IH. exists m, r'. split; [by right|done].
Qed.

Lemma elem_of_message_overlays ns history o :
  Ok o ∈ message_overlays ns history ↔
  ∃ msg r, msg ∈ history ∧ retrieval msg = Some r ∧ buildOverlay r ns = Ok o.
Proof.
  unfold message_overlays. rewrite list_elem_of_omap. split.
  - intros (msg & Hin & Hm). destruct (retrieval msg) as [r|] eqn:Hr; [|done].
    simpl in Hm. exists msg, r. naive_solver.
  - intros (msg & r & Hin & Hr & Ho). exists msg. split; [done|].
    rewrite Hr. simpl. by rewrite Ho.
Qed.

Lemma elem_of_union_all (sel : Overlay → gset string) ns history ovs x :
  message_overlays ns history = Ok <$> ovs →
  x ∈ ⋃ (sel <$> ovs) ↔ derivable sel ns history x.
Proof.
  intros Hovs. rewrite elem_of_union_list. unfold derivable. split.
  - intros (X & (o & -> & Ho)%list_elem_of_fmap & Hx).
    assert (Ok o ∈ message_overlays ns history) as Hin.
    { rewrite Hovs. by apply list_elem_of_fmap_2. }
    apply elem_of_message_overlays in Hin as (msg & r & ? & ? & ?). eauto 10.
  - intros (msg & r & o & Hin & Hr & Ho & Hx).
    exists (sel o). split; [|done]. apply list_elem_of_fmap_2.
    assert (Ok o ∈ message_overlays ns history) as Hin'.
    { apply elem_of_message_overlays. eauto. }
    rewrite Hovs in Hin'.
    apply list_elem_of_fmap in Hin' as (o' & [= ->] & Ho'). done.
Qed.

Lemma mergeHistory_Ok_iff history ns ov :
  mergeHistory history ns = Ok ov ↔
  ∃ ovs, message_overlays ns history = Ok <$> ovs ∧ ov = union_all ovs.
Proof.
  unfold mergeHistory. split.
  - intros Hm. destruct (merge_loop_Ok_inv _ _ _ _ Hm) as [ovs Hovs].
    exists ovs. split; [done|].
    rewrite (merge_loop_Ok _ _ _ _ Hovs), fold_union_overlay in Hm.
    injection Hm as <-. apply overlay_eq; simpl; set_solver.
  - intros (ovs & Hovs & ->).
    rewrite (merge_loop_Ok _ _ _ _ Hovs), fold_union_overlay.
    f_equal. apply overlay_eq; simpl; set_solver.
Qed.

(** C4: the merged overlay is the element-wise union of the overlays of
    the messages that carry a retrieval payload.  For the empty history it
    is the empty overlay; the loop returns exactly when [buildOverlay]
    returns for each such message, and then with the union of their three
    sets; an element is in a merged set exactly when it is in that set of the
    overlay of some message; the loop raises only what [buildOverlay] raised
    on a message; and the effect stores this union when the index is loaded
    and keeps the previous value when it is not. *)
Theorem mergeHistory_is_union :
  (∀ ns, mergeHistory [] ns = Ok emptyOverlay)
  ∧ (∀ history ns ov,
       mergeHistory history ns = Ok ov ↔
       ∃ ovs, message_overlays ns history = Ok <$> ovs ∧ ov = union_all ovs)
  ∧ (∀ history ns ov,
       mergeHistory history ns = Ok ov →
       ∀ x, (x ∈ hitNodeIds ov ↔ derivable hitNodeIds ns history x)
            ∧ (x ∈ pathNodeIds ov ↔ derivable pathNodeIds ns history x)
            ∧ (x ∈ pathEdgeKeys ov ↔ derivable pathEdgeKeys ns history x))
  ∧ (∀ history ns e,
       mergeHistory history ns = Throw e →
       ∃ msg r, msg ∈ history ∧ retrieval msg = Some r ∧ buildOverlay r ns = Throw e)
  ∧ (∀ history ns prev,
       mergedOverlay_effect (Some {| nodes := Some ns |}) history prev
       = (merged ←! mergeHistory history ns ;; Ok (Some merged))
       ∧ mergedOverlay_effect None history prev = Ok prev).
Proof.
  split; [done|]. split; [apply mergeHistory_Ok_iff|]. split; [|split; [|done]].
  - intros history ns ov (ovs & Hovs & ->)%mergeHistory_Ok_iff x. simpl.
    by rewrite !(elem_of_union_all _ _ _ _ _ Hovs).
  - intros history ns e. apply merge_loop_Throw.
Qed.

Lemma mergeHistory_is_union_witness :
  mergeHistory egg_history egg_graph =
    Ok {| hitNodeIds := {[ "n1" ]};
          pathNodeIds := {[ "n1"; "n2" ]};
          pathEdgeKeys := {[ "EGG||BOIL"; "BOIL||EGG" ]} |}
  ∧ derivable pathNodeIds egg_graph egg_history "n2".
Proof.
  assert (mergeHistory egg_history egg_graph =
    Ok {| hitNodeIds := {[ "n1" ]};
          pathNodeIds := {[ "n1"; "n2" ]};
          pathEdgeKeys := {[ "EGG||BOIL"; "BOIL||EGG" ]} |}) as Hm.
  { vm_compute. reflexivity. }
  split; [exact Hm|].
  destruct mergeHistory_is_union as (_ & _ & Helems & _).
  apply (Helems _ _ _ Hm "n2"). vm_compute. reflexivity.
Defined.

(** ** The focus tracker *)

Lemma run_callbacks_app cbs1 cbs2 acc :
  fold_left run_callback (cbs1 ++ cbs2)%list acc =
  fold_left run_callback cbs2 (fold_left run_callback cbs1 acc).
Proof. apply fold_left_app. Qed.

(** After the frame of a reset the stored signature is the sentinel. *)
Lemma zoomSigRef_after_reset_frame c tick :
  fg_mounted c = true →
  zoomSigRef (fst (animation_frame (reset_effect c (Some tick)))) = "reset"
  ∧ pendingFrames (fst (animation_frame (reset_effect c (Some tick)))) = []
  ∧ fg_mounted (fst (animation_frame (reset_effect c (Some tick)))) = true.
Proof.
  intros Hm. unfold reset_effect, animation_frame. rewrite Hm. simpl.
  by rewrite run_callbacks_app.
Qed.

(** Callbacks of overlay fits leave the stored signature alone. *)
Lemma run_focus_callbacks cbs acc :
  ResetFit ∉ cbs → fst (fold_left run_callback cbs acc) = fst acc.
Proof.
  revert acc. induction cbs as [|cb cbs IH]; intros acc Hno; simpl; [done|].
  rewrite IH by set_solver. destruct cb; [done|]. set_solver.
Qed.

(** When the overlay effect schedules a fit. *)
Lemma overlay_effect_schedules c ov :
  fg_mounted c = true →
  size (focusSet_of ov) ≠ 0%nat →
  signature_of (focusSet_of ov) ≠ zoomSigRef c →
  overlay_effect c ov =
    {| fg_mounted := true;
       zoomSigRef := signature_of (focusSet_of ov);
       pendingFrames := pendingFrames c ++ [FocusFit (focusSet_of ov)] |}.
Proof.
  intros Hm Hsize Hsig. unfold overlay_effect. rewrite Hm. simpl.
  destruct (Nat.eqb_spec (size (focusSet_of ov)) 0); [done|].
  destruct (String.eqb_spec (signature_of (focusSet_of ov)) (zoomSigRef c)); done.
Qed.

(** The overlay effect either leaves the canvas alone or stores the
    signature of the overlay and schedules one fit. *)
Lemma overlay_effect_cases c ov :
  overlay_effect c ov = c
  ∨ (size (focusSet_of ov) ≠ 0%nat
     ∧ overlay_effect c ov =
         {| fg_mounted := fg_mounted c;
            zoomSigRef := signature_of (focusSet_of ov);
            pendingFrames := pendingFrames c ++ [FocusFit (focusSet_of ov)] |}).
Proof.
  unfold overlay_effect. destruct (fg_mounted c); simpl; [|by left].
  destruct (Nat.eqb_spec (size (focusSet_of ov)) 0); [by left|].
  destruct (String.eqb _ _); [by left|by right].
Qed.

(** An overlay whose signature is the stored one schedules nothing. *)
Lemma overlay_effect_same_signature c ov :
  signature_of (focusSet_of ov) = zoomSigRef c → overlay_effect c ov = c.
Proof.
  intros Hsig. unfold overlay_effect. destruct (fg_mounted c); simpl; [|done].
  destruct (size (focusSet_of ov) =? 0)%nat; [done|].
  by rewrite Hsig, String.eqb_refl.
Qed.

Lemma fits_scheduled_same_signature c ov1 ov2 :
  signature_of (focusSet_of ov1) = signature_of (focusSet_of ov2) →
  (fits_scheduled c ov1 ov2 ≤ 1)%nat.
Proof.
  intros Hsig. unfold fits_scheduled.
  destruct (overlay_effect_cases c ov1) as [->|[_ ->]].
  - destruct (overlay_effect_cases c ov2) as [->|[_ ->]]; simpl.
    + lia.
    + rewrite length_app. simpl. lia.
  - rewrite overlay_effect_same_signature by (simpl; congruence).
    simpl. rewrite length_app. simpl. lia.
Qed.

(** C8, as stated, fails.  The sentinel is the string [reset], which is
    also the signature of the focus set whose only node has the id [reset]:
    after a reset and its frame, that overlay schedules no fit.  And the
    sentinel is stored by the frame callback, not by the reset action: an
    overlay whose signature was applied before the reset schedules no fit
    if it changes before that frame. *)
Lemma reset_does_not_guarantee_fit :
  (zoomSigRef (fst (animation_frame (reset_effect initialCanvas (Some 1%nat)))) = "reset"
   ∧ size (focusSet_of (Some reset_overlay)) = 1%nat
   ∧ schedules_fit (fst (animation_frame (reset_effect initialCanvas (Some 1%nat))))
       (Some reset_overlay) = false)
  ∧ (zoomSigRef canvas_after_egg = "n1|n2"
     ∧ size (focusSet_of (Some egg_overlay)) = 2%nat
     ∧ schedules_fit (reset_effect canvas_after_egg (Some 1%nat)) (Some egg_overlay)
       = false).
Proof. repeat split; vm_compute; reflexivity. Qed.

(** C8, amended: once the frame callback of a reset-view action has run,
    the stored signature is the string [reset] (whatever it was before), and
    the next overlay change whose focus set is not empty and whose signature
    is not that string schedules a camera fit and stores its signature; and
    two overlays with the same signature presented in succession schedule at
    most one fit, also when a frame without a reset callback runs in
    between. *)
Theorem reset_frame_rearms_fit :
  (∀ c tick ov,
     fg_mounted c = true →
     size (focusSet_of ov) ≠ 0%nat →
     signature_of (focusSet_of ov) ≠ "reset" →
     zoomSigRef (fst (animation_frame (reset_effect c (Some tick)))) = "reset"
     ∧ schedules_fit (fst (animation_frame (reset_effect c (Some tick)))) ov = true
     ∧ overlay_effect (fst (animation_frame (reset_effect c (Some tick)))) ov =
         {| fg_mounted := true;
            zoomSigRef := signature_of (focusSet_of ov);
            pendingFrames := [FocusFit (focusSet_of ov)] |})
  ∧ (∀ c ov1 ov2,
       signature_of (focusSet_of ov1) = signature_of (focusSet_of ov2) →
       (fits_scheduled c ov1 ov2 ≤ 1)%nat)
  ∧ (∀ c ov1 ov2,
       signature_of (focusSet_of ov1) = signature_of (focusSet_of ov2) →
       fg_mounted c = true →
       size (focusSet_of ov1) ≠ 0%nat →
       ResetFit ∉ pendingFrames c →
       schedules_fit (fst (animation_frame (overlay_effect c ov1))) ov2 = false).
Proof.
  split; [|split; [apply fits_scheduled_same_signature|]].
  - intros c tick ov Hm Hsize Hsig.
    destruct (zoomSigRef_after_reset_frame c tick Hm) as (Hz & Hp & Hm').
    split; [done|].
    assert (overlay_effect (fst (animation_frame (reset_effect c (Some tick)))) ov =
         {| fg_mounted := true;
            zoomSigRef := signature_of (focusSet_of ov);
            pendingFrames := [FocusFit (focusSet_of ov)] |}) as Heff.
    { rewrite overlay_effect_schedules; [by rewrite Hp|done..|by rewrite Hz]. }
    split; [|done]. unfold schedules_fit. by rewrite Heff, Hp.
  - intros c ov1 ov2 Hsig Hm Hsize Hno.
    assert (zoomSigRef (overlay_effect c ov1) = signature_of (focusSet_of ov1)
            ∧ ResetFit ∉ pendingFrames (overlay_effect c ov1)) as [Hz Hno'].
    { unfold overlay_effect. rewrite Hm. simpl.
      destruct (Nat.eqb_spec (size (focusSet_of ov1)) 0); [done|].
      destruct (String.eqb_spec (signature_of (focusSet_of ov1)) (zoomSigRef c));
        simpl; [done|].
      split; [done|]. rewrite elem_of_app, list_elem_of_singleton. naive_solver. }
    unfold schedules_fit.
    rewrite (overlay_effect_same_signature
               (fst (animation_frame (overlay_effect c ov1))) ov2);
      [apply Nat.ltb_irrefl|].
    unfold animation_frame. simpl. rewrite run_focus_callbacks by done. simpl.
    congruence.
Qed.

Lemma reset_frame_rearms_fit_witness :
  schedules_fit (fst (animation_frame (reset_effect canvas_after_egg (Some 1%nat))))
    (Some egg_overlay) = true
  ∧ (fits_scheduled initialCanvas (Some egg_overlay) (Some egg_overlay) ≤ 1)%nat
  ∧ schedules_fit canvas_after_egg (Some egg_overlay) = false.
Proof.
  destruct reset_frame_rearms_fit as (Hreset & Htwice & Hframe).
  split; [|split].
  - apply (Hreset canvas_after_egg 1%nat (Some egg_overlay));
      vm_compute; [reflexivity|discriminate|discriminate].
  - apply (Htwice initialCanvas (Some egg_overlay) (Some egg_overlay)). reflexivity.
  - apply (Hframe initialCanvas (Some egg_overlay) (Some egg_overlay));
      [reflexivity|reflexivity|vm_compute; discriminate|apply not_elem_of_nil].
Defined.

(** ** Numbers that hold integers *)

Lemma digits_pos p : (0 < digits p)%Z.
Proof. unfold digits. lia. Qed.

Lemma digits_bounds p : (2 ^ (digits p - 1) ≤ Zpos p < 2 ^ digits p)%Z.
Proof.
  unfold digits. induction p as [p IH|p IH|]; simpl digits2_pos.
  - rewrite Pos2Z.inj_succ.
    replace (Z.succ (Zpos (digits2_pos p)) - 1)%Z with (Z.succ (Zpos (digits2_pos p) - 1)) by lia.
    rewrite !Z.pow_succ_r by lia. lia.
  - rewrite Pos2Z.inj_succ.
    replace (Z.succ (Zpos (digits2_pos p)) - 1)%Z with (Z.succ (Zpos (digits2_pos p) - 1)) by lia.
    rewrite !Z.pow_succ_r by lia. lia.
  - simpl. lia.
Qed.

Lemma digits_unique p d : (2 ^ (d - 1) ≤ Zpos p < 2 ^ d)%Z → digits p = d.
Proof.
  intros [Hlo Hhi]. pose proof (digits_bounds p) as [Hlo' Hhi'].
  pose proof (digits_pos p).
  assert (0 < d)%Z.
  { destruct (Z.lt_trichotomy d 0) as [?|[->|?]]; [|simpl in Hhi; lia|done].
    rewrite Z.pow_neg_r in Hhi by done. lia. }
  destruct (Z.lt_trichotomy (digits p) d) as [Hlt|[?|Hgt]]; [|done|].
  - assert (2 ^ digits p ≤ 2 ^ (d - 1))%Z by (apply Z.pow_le_mono_r; lia). lia.
  - assert (2 ^ d ≤ 2 ^ (digits p - 1))%Z by (apply Z.pow_le_mono_r; lia). lia.
Qed.

Lemma shift_S k p : shift (S k) p = xO (shift k p).
Proof. done. Qed.

Lemma shift_add j k p : shift (j + k) p = shift j (shift k p).
Proof. unfold shift. apply Nat.iter_add. Qed.

Lemma Zpos_shift k p : Zpos (shift k p) = (Zpos p * 2 ^ Z.of_nat k)%Z.
Proof.
  induction k as [|k IH].
  - simpl. lia.
  - rewrite shift_S, Pos2Z.inj_xO, IH, Nat2Z.inj_succ, Z.pow_succ_r by lia. lia.
Qed.

Lemma digits_shift k p : digits (shift k p) = (digits p + Z.of_nat k)%Z.
Proof.
  induction k as [|k IH].
  - simpl. lia.
  - rewrite shift_S. unfold digits in *. simpl digits2_pos.
    rewrite Pos2Z.inj_succ, IH. lia.
Qed.

Lemma Pos_iter_xO d p : Pos.iter xO p d = shift (Pos.to_nat d) p.
Proof. unfold shift. apply Pos2Nat.inj_iter. Qed.

Lemma iter_pos_nat {A} (f : A → A) n : ∀ x,
  SpecFloat.iter_pos f n x = Nat.iter (Pos.to_nat n) f x.
Proof.
  induction n as [n IH|n IH|]; intros x; simpl SpecFloat.iter_pos.
  - rewrite !IH, Pos2Nat.inj_xI.
    replace (S (2 * Pos.to_nat n)) with (Pos.to_nat n + S (Pos.to_nat n))%nat by lia.
    by rewrite Nat.iter_add, Nat.iter_succ_r.
  - rewrite !IH, Pos2Nat.inj_xO.
    replace (2 * Pos.to_nat n)%nat with (Pos.to_nat n + Pos.to_nat n)%nat by lia.
    by rewrite Nat.iter_add.
  - done.
Qed.

Lemma shr_1_shift k : ∀ p,
  Nat.iter k shr_1 (Build_shr_record (Zpos (shift k p)) false false)
  = Build_shr_record (Zpos p) false false.
Proof.
  induction k as [|k IH]; intros p; [done|].
  rewrite Nat.iter_succ_r. rewrite shift_S. simpl shr_1. apply IH.
Qed.

Lemma fexp_normal d :
  (-1021 ≤ d)%Z → fexp Number.prec Number.emax d = (d - 53)%Z.
Proof. intros Hd. unfold fexp, emin, Number.prec, Number.emax. lia. Qed.

Lemma shr_fexp_exact q j e :
  digits q = 53%Z → (-1074 ≤ e + Z.of_nat j)%Z →
  shr_fexp Number.prec Number.emax (Zpos (shift j q)) e loc_Exact
  = (Build_shr_record (Zpos q) false false, (e + Z.of_nat j)%Z).
Proof.
  intros Hq He. unfold shr_fexp. simpl Zdigits2.
  change (Zpos (digits2_pos (shift j q))) with (digits (shift j q)).
  rewrite digits_shift, Hq, fexp_normal by lia.
  replace (53 + Z.of_nat j + e - 53 - e)%Z with (Z.of_nat j) by lia.
  simpl shr_record_of_loc. destruct j as [|j].
  - simpl. f_equal. lia.
  - unfold shr. change (Z.of_nat (S j)) with (Zpos (Pos.of_succ_nat j)).
    cbv beta iota. by rewrite iter_pos_nat, SuccNat2Pos.id_succ, shr_1_shift.
Qed.

Lemma binary_round_aux_exact s q j e :
  digits q = 53%Z → (-1074 ≤ e + Z.of_nat j ≤ 971)%Z →
  binary_round_aux Number.prec Number.emax s (Zpos (shift j q)) e loc_Exact
  = S754_finite s q (e + Z.of_nat j).
Proof.
  intros Hq He. unfold binary_round_aux.
  rewrite shr_fexp_exact by (done || lia). simpl shr_m. simpl loc_of_shr_record.
  simpl round_nearest_even.
  rewrite (shr_fexp_exact q 0) by (done || simpl; lia). simpl shr_m.
  replace (e + Z.of_nat j + Z.of_nat 0)%Z with (e + Z.of_nat j)%Z by (simpl; lia).
  destruct (Z.leb_spec (e + Z.of_nat j) (Number.emax - Number.prec)) as [|Hgt]; [done|].
  unfold Number.emax, Number.prec in Hgt. lia.
Qed.

Lemma binary_round_shift s p k :
  (digits p ≤ 53)%Z →
  binary_round Number.prec Number.emax s (shift k p) (- Z.of_nat k) = normal s p.
Proof.
  intros Hp. pose proof (digits_pos p) as Hpos. unfold binary_round.
  change (Zpos (digits2_pos (shift k p))) with (digits (shift k p)).
  rewrite digits_shift, fexp_normal by lia.
  unfold shl_align.
  set (q := shift (Z.to_nat (53 - digits p)) p).
  assert (digits q = 53%Z) as Hq by (unfold q; rewrite digits_shift; lia).
  destruct (digits p + Z.of_nat k + - Z.of_nat k - 53 - - Z.of_nat k)%Z as [|t|t] eqn:Ht.
  - rewrite <-(Nat.add_0_l k), shift_add.
    assert (shift k p = q) as -> by (unfold q; f_equal; lia).
    rewrite (binary_round_aux_exact s q 0) by (done || simpl; lia).
    unfold normal. fold q. f_equal. simpl. lia.
  - assert (shift k p = shift (Pos.to_nat t) q) as ->.
    { unfold q. rewrite <-shift_add. f_equal. lia. }
    rewrite binary_round_aux_exact by (done || lia).
    unfold normal. fold q. f_equal. lia.
  - rewrite Pos_iter_xO, <-shift_add.
    assert (shift (Pos.to_nat t + k) p = shift 0 q) as ->.
    { simpl. unfold q. f_equal. lia. }
    rewrite binary_round_aux_exact by (done || simpl; lia).
    unfold normal. fold q. f_equal. simpl. lia.
Qed.

Lemma safe_digits p : safe_integer (Zpos p) ↔ (digits p ≤ 53)%Z.
Proof.
  unfold safe_integer. pose proof (digits_bounds p) as [Hlo Hhi]. simpl Z.abs. split.
  - intros Hp. destruct (Z.le_gt_cases (digits p) 53) as [|Hgt]; [done|].
    assert (2 ^ 53 ≤ 2 ^ (digits p - 1))%Z by (apply Z.pow_le_mono_r; lia). lia.
  - intros Hd. assert (2 ^ digits p ≤ 2 ^ 53)%Z by (apply Z.pow_le_mono_r; lia). lia.
Qed.

Lemma of_Z_pos p : safe_integer (Zpos p) → Number.of_Z (Zpos p) = normal false p.
Proof.
  intros Hp%safe_digits. unfold Number.of_Z, binary_normalize.
  by rewrite <-(binary_round_shift false p 0).
Qed.

Lemma of_Z_neg p : safe_integer (Zneg p) → Number.of_Z (Zneg p) = normal true p.
Proof.
  intros Hp. assert (safe_integer (Zpos p)) as Hp'%safe_digits by done.
  unfold Number.of_Z, binary_normalize.
  by rewrite <-(binary_round_shift true p 0).
Qed.

(** An integer times a power of two, normalised: the double of the
    integer. *)
Lemma binary_normalize_shift c k :
  safe_integer c →
  binary_normalize Number.prec Number.emax (c * 2 ^ Z.of_nat k) (- Z.of_nat k) false
  = Number.of_Z c.
Proof.
  intros Hc. destruct c as [|p|p].
  - done.
  - rewrite of_Z_pos by done. rewrite <-Zpos_shift. simpl binary_normalize.
    apply binary_round_shift. by apply safe_digits.
  - rewrite of_Z_neg by done.
    change (Zneg p) with (- Zpos p)%Z. rewrite Z.mul_opp_l, <-Zpos_shift.
    simpl binary_normalize. apply binary_round_shift. by apply safe_digits.
Qed.

Lemma shl_align_fst m e e' :
  (e' ≤ e)%Z → Zpos (fst (shl_align m e e')) = (Zpos m * 2 ^ (e - e'))%Z.
Proof.
  intros Hle. unfold shl_align. destruct (e' - e)%Z as [|d|d] eqn:Hd; simpl fst.
  - replace (e - e')%Z with 0%Z by lia. simpl. lia.
  - lia.
  - rewrite Pos_iter_xO, Zpos_shift. do 2 f_equal. lia.
Qed.

(** The shape of the double of a safe integer other than 0. *)
Lemma of_Z_nonzero z :
  z ≠ 0%Z → safe_integer z →
  ∃ m e, Number.of_Z z = S754_finite (z <? 0)%Z m e
         ∧ (-52 ≤ e ≤ 0)%Z
         ∧ cond_Zopp (z <? 0)%Z (Zpos m) = (z * 2 ^ (- e))%Z
         ∧ digits m = 53%Z
         ∧ e = (digits (Z.to_pos (Z.abs z)) - 53)%Z.
Proof.
  intros Hz Hs. destruct z as [|p|p]; [done| |].
  - rewrite of_Z_pos by done. apply safe_digits in Hs.
    pose proof (digits_pos p). unfold normal.
    eexists _, _. split; [reflexivity|]. split; [lia|]. split; [|split; [|done]].
    + simpl. rewrite Zpos_shift. do 2 f_equal. lia.
    + rewrite digits_shift. lia.
  - rewrite of_Z_neg by done.
    assert (safe_integer (Zpos p)) as Hs'%safe_digits by done.
    pose proof (digits_pos p). unfold normal.
    eexists _, _. split; [reflexivity|]. split; [lia|]. split; [|split; [|done]].
    + change (cond_Zopp (Zneg p <? 0)%Z ?x) with (- x)%Z. rewrite Zpos_shift.
      change (Zneg p) with (- Zpos p)%Z. rewrite Z.mul_opp_l. do 3 f_equal. lia.
    + rewrite digits_shift. lia.
Qed.

Lemma cond_Zopp_mul s a b : cond_Zopp s (a * b) = (cond_Zopp s a * b)%Z.
Proof. destruct s; simpl; lia. Qed.

Lemma aligned a m e ez :
  (ez ≤ e ≤ 0)%Z → cond_Zopp (a <? 0)%Z (Zpos m) = (a * 2 ^ (- e))%Z →
  cond_Zopp (a <? 0)%Z (Zpos (fst (shl_align m e ez))) = (a * 2 ^ (- ez))%Z.
Proof.
  intros He Hm. rewrite shl_align_fst, cond_Zopp_mul, Hm by lia.
  rewrite <-Z.mul_assoc, <-Z.pow_add_r by lia. do 2 f_equal. lia.
Qed.

(** Sums and differences of safe integers are exact. *)
Lemma add_of_Z a b :
  safe_integer a → safe_integer b → safe_integer (a + b) →
  Number.add (Number.of_Z a) (Number.of_Z b) = Number.of_Z (a + b).
Proof.
  intros Ha Hb Hab.
  destruct (decide (a = 0%Z)) as [->|Ha0].
  { rewrite Z.add_0_l. destruct (decide (b = 0%Z)) as [->|Hb0]; [done|].
    by destruct (of_Z_nonzero b Hb0 Hb) as (m & e & -> & _). }
  destruct (decide (b = 0%Z)) as [->|Hb0].
  { rewrite Z.add_0_r. by destruct (of_Z_nonzero a Ha0 Ha) as (m & e & -> & _). }
  destruct (of_Z_nonzero a Ha0 Ha) as (ma & ea & -> & Hea & Hma & _).
  destruct (of_Z_nonzero b Hb0 Hb) as (mb & eb & -> & Heb & Hmb & _).
  unfold Number.add, SFadd.
  rewrite (aligned a), (aligned b) by (done || lia).
  rewrite <-Z.mul_add_distr_r.
  replace (- Z.min ea eb)%Z with (Z.of_nat (Z.to_nat (- Z.min ea eb))) by lia.
  replace (Z.min ea eb) with (- Z.of_nat (Z.to_nat (- Z.min ea eb)))%Z at 2 by lia.
  by apply binary_normalize_shift.
Qed.

Lemma of_Z_opp b :
  b ≠ 0%Z → safe_integer b → Number.of_Z (- b) = SFopp (Number.of_Z b).
Proof.
  intros Hb0 Hb. destruct b as [|p|p]; [done| |].
  - change (- Zpos p)%Z with (Zneg p). by rewrite of_Z_neg, of_Z_pos by exact Hb.
  - change (- Zneg p)%Z with (Zpos p). by rewrite of_Z_neg, of_Z_pos by exact Hb.
Qed.

Lemma sub_of_Z a b :
  safe_integer a → safe_integer b → safe_integer (a - b) →
  Number.sub (Number.of_Z a) (Number.of_Z b) = Number.of_Z (a - b).
Proof.
  intros Ha Hb Hab.
  destruct (decide (b = 0%Z)) as [->|Hb0].
  { rewrite Z.sub_0_r. destruct (decide (a = 0%Z)) as [->|Ha0]; [done|].
    by destruct (of_Z_nonzero a Ha0 Ha) as (m & e & -> & _). }
  destruct (decide (a = 0%Z)) as [->|Ha0].
  { rewrite Z.sub_0_l, of_Z_opp by done.
    by destruct (of_Z_nonzero b Hb0 Hb) as (m & e & -> & _). }
  destruct (of_Z_nonzero a Ha0 Ha) as (ma & ea & -> & Hea & Hma & _).
  destruct (of_Z_nonzero b Hb0 Hb) as (mb & eb & -> & Heb & Hmb & _).
  unfold Number.sub, SFsub.
  rewrite (aligned a), (aligned b) by (done || lia).
  rewrite <-Z.mul_sub_distr_r.
  replace (- Z.min ea eb)%Z with (Z.of_nat (Z.to_nat (- Z.min ea eb))) by lia.
  replace (Z.min ea eb) with (- Z.of_nat (Z.to_nat (- Z.min ea eb)))%Z at 2 by lia.
  by apply binary_normalize_shift.
Qed.

Lemma shift_compare k p q : (shift k p ?= shift k q)%positive = (p ?= q)%positive.
Proof. induction k as [|k IH]; [done|]. by rewrite !shift_S, Pos.compare_xO_xO. Qed.

(** Doubles of safe integers compare as the integers do. *)
Lemma compare_normal p q :
  (digits p ≤ 53)%Z → (digits q ≤ 53)%Z →
  match (digits p - 53 ?= digits q - 53)%Z with
  | Lt => Lt
  | Gt => Gt
  | Eq => Pos.compare_cont Eq (shift (Z.to_nat (53 - digits p)) p)
                              (shift (Z.to_nat (53 - digits q)) q)
  end = (Zpos p ?= Zpos q)%Z.
Proof.
  intros Hp Hq.
  pose proof (digits_bounds p) as [Hplo Hphi].
  pose proof (digits_bounds q) as [Hqlo Hqhi].
  destruct (Z.compare_spec (digits p - 53) (digits q - 53)) as [Heq|Hlt|Hgt].
  - replace (digits q) with (digits p) by lia.
    change (Pos.compare_cont Eq ?x ?y) with (x ?= y)%positive.
    by rewrite shift_compare.
  - symmetry. apply Z.compare_lt_iff.
    assert (2 ^ digits p ≤ 2 ^ (digits q - 1))%Z by (apply Z.pow_le_mono_r; lia). lia.
  - symmetry. apply Z.compare_gt_iff.
    assert (2 ^ digits q ≤ 2 ^ (digits p - 1))%Z by (apply Z.pow_le_mono_r; lia). lia.
Qed.

Lemma compare_of_Z a b :
  safe_integer a → safe_integer b → SFcompare (Number.of_Z a) (Number.of_Z b) = Some (a ?= b)%Z.
Proof.
  intros Ha Hb.
  destruct a as [|p|p], b as [|q|q];
    rewrite ?of_Z_pos, ?of_Z_neg by done; try done.
  - unfold normal, SFcompare. f_equal. apply compare_normal; by apply safe_digits.
  - unfold normal, SFcompare. f_equal.
    assert (safe_integer (Zpos p)) as Hp%safe_digits by done.
    assert (safe_integer (Zpos q)) as Hq%safe_digits by done.
    pose proof (compare_normal p q Hp Hq) as Hc.
    change (Zneg p ?= Zneg q)%Z with (CompOpp (Zpos p ?= Zpos q)%Z).
    rewrite <-Hc. by destruct (digits p - 53 ?= digits q - 53)%Z.
Qed.

Lemma ltb_of_Z a b :
  safe_integer a → safe_integer b → Number.ltb (Number.of_Z a) (Number.of_Z b) = (a <? b)%Z.
Proof.
  intros Ha Hb. unfold Number.ltb, SFltb. by rewrite compare_of_Z.
Qed.

Lemma isFinite_of_Z a : safe_integer a → Number.isFinite (Number.of_Z a) = true.
Proof.
  intros Ha. destruct a as [|p|p]; by rewrite ?of_Z_pos, ?of_Z_neg by done.
Qed.

Lemma falsy_of_Z a : safe_integer a → Number.falsy (Number.of_Z a) = (a =? 0)%Z.
Proof.
  intros Ha. destruct a as [|p|p]; by rewrite ?of_Z_pos, ?of_Z_neg by done.
Qed.

Lemma max_of_Z a b :
  safe_integer a → safe_integer b →
  Number.max (Number.of_Z a) (Number.of_Z b) = Number.of_Z (Z.max a b).
Proof.
  intros Ha Hb. pose proof (ltb_of_Z a b Ha Hb) as Hlt.
  assert (Number.max (Number.of_Z a) (Number.of_Z b)
          = if Number.ltb (Number.of_Z a) (Number.of_Z b)
            then Number.of_Z b else Number.of_Z a) as ->.
  { destruct a as [|p|p], b as [|q|q];
      rewrite ?of_Z_pos, ?of_Z_neg by done; done. }
  rewrite Hlt. destruct (Z.ltb_spec a b); f_equal; lia.
Qed.

(** *** Shifts and rounding of a mantissa *)

Lemma shr_m_of_loc m l : shr_m (shr_record_of_loc m l) = m.
Proof. by destruct l as [|[]]. Qed.

Lemma round_nearest_even_bounds m l :
  (m ≤ round_nearest_even m l ≤ m + 1)%Z.
Proof.
  destruct l as [|[]]; simpl; try lia. destruct (Z.even m); lia.
Qed.

Lemma Zdigits2_upper m k :
  (0 ≤ m < 2 ^ k)%Z → (0 ≤ k)%Z → (Zdigits2 m ≤ k)%Z.
Proof.
  intros [Hlo Hhi] Hk. destruct m as [|p|p]; [done| |lia].
  simpl. pose proof (digits_bounds p) as [Hp _]. unfold digits in Hp.
  destruct (Z.le_gt_cases (Zpos (digits2_pos p)) k) as [|Hgt]; [done|].
  assert (2 ^ k ≤ 2 ^ (Zpos (digits2_pos p) - 1))%Z by (apply Z.pow_le_mono_r; lia). lia.
Qed.

(** *** Exact products and quotients *)

Lemma digits_lower p d : (2 ^ d ≤ Zpos p)%Z → (d < digits p)%Z.
Proof.
  intros Hd. pose proof (digits_bounds p) as [_ Hhi].
  destruct (Z.lt_ge_cases d (digits p)) as [|Hge]; [done|].
  assert (2 ^ digits p ≤ 2 ^ d)%Z by (apply Z.pow_le_mono_r; [lia|done]). lia.
Qed.

(** A positive integer with trailing zeros, of at least 53 digits in all,
    rounds to the double of the integer without them. *)
Lemma binary_round_aux_shift s p k :
  (digits p ≤ 53)%Z → (53 ≤ digits p + Z.of_nat k)%Z →
  binary_round_aux Number.prec Number.emax s (Zpos (shift k p)) (- Z.of_nat k) loc_Exact
  = normal s p.
Proof.
  intros Hp Hk. pose proof (digits_pos p) as Hpos.
  set (q := shift (Z.to_nat (53 - digits p)) p).
  assert (digits q = 53%Z) as Hq by (unfold q; rewrite digits_shift; lia).
  assert (shift k p = shift (Z.to_nat (digits p + Z.of_nat k - 53)) q) as ->.
  { unfold q. rewrite <-shift_add. f_equal. lia. }
  rewrite binary_round_aux_exact by (done || lia).
  unfold normal. fold q. f_equal. lia.
Qed.

Lemma mul_of_Z a b :
  (0 < a)%Z → (0 < b)%Z → safe_integer (a * b) →
  Number.mul (Number.of_Z a) (Number.of_Z b) = Number.of_Z (a * b).
Proof.
  intros Ha Hb Hab.
  assert (safe_integer a) as Hsa by (unfold safe_integer in *; nia).
  assert (safe_integer b) as Hsb by (unfold safe_integer in *; nia).
  destruct a as [|p|p]; [lia| |lia]. destruct b as [|q|q]; [lia| |lia].
  change (Zpos p * Zpos q)%Z with (Zpos (p * q)) in *.
  rewrite !of_Z_pos by done. apply safe_digits in Hsa, Hsb, Hab.
  pose proof (digits_pos p) as Hp0. pose proof (digits_pos q) as Hq0.
  pose proof (digits_bounds p) as [Hplo _]. pose proof (digits_bounds q) as [Hqlo _].
  assert (digits p + digits q - 2 < digits (p * q))%Z as Hd.
  { apply digits_lower. rewrite Pos2Z.inj_mul.
    replace (digits p + digits q - 2)%Z with ((digits p - 1) + (digits q - 1))%Z by lia.
    rewrite Z.pow_add_r by lia.
    assert (0 < 2 ^ (digits p - 1))%Z by (apply Z.pow_pos_nonneg; lia).
    assert (0 < 2 ^ (digits q - 1))%Z by (apply Z.pow_pos_nonneg; lia). nia. }
  unfold normal at 1 2. unfold Number.mul, SFmul. simpl xorb.
  assert ((shift (Z.to_nat (53 - digits p)) p * shift (Z.to_nat (53 - digits q)) q)%positive
          = shift (Z.to_nat (106 - digits p - digits q)) (p * q)) as ->.
  { apply Pos2Z.inj. rewrite Pos2Z.inj_mul, !Zpos_shift, Pos2Z.inj_mul.
    replace (Z.of_nat (Z.to_nat (106 - digits p - digits q)))
      with (Z.of_nat (Z.to_nat (53 - digits p)) + Z.of_nat (Z.to_nat (53 - digits q)))%Z by lia.
    rewrite Z.pow_add_r by lia. lia. }
  replace (digits p - 53 + (digits q - 53))%Z
    with (- Z.of_nat (Z.to_nat (106 - digits p - digits q)))%Z by lia.
  apply binary_round_aux_shift; lia.
Qed.

Lemma mul_zero_of_Z b :
  safe_integer b → (0 ≤ b)%Z →
  Number.mul (Number.of_Z 0) (Number.of_Z b) = Number.of_Z 0.
Proof. intros Hb Hb0. destruct b as [|q|q]; [done| |lia]. by rewrite of_Z_pos. Qed.

Lemma div_eucl_exact m x : (0 < m)%Z → Z.div_eucl (m * x) m = (x, 0%Z).
Proof.
  intros Hm.
  assert (Z.div_eucl (m * x) m = ((m * x) / m, (m * x) mod m)%Z) as ->.
  { unfold Z.div, Z.modulo. by destruct (Z.div_eucl (m * x) m). }
  rewrite (Z.mul_comm m x), Z.div_mul, Z.mod_mul by lia. done.
Qed.

(** An exact quotient of safe integers is computed exactly. *)
Lemma div_of_Z q b :
  (0 < q)%Z → (0 < b)%Z → safe_integer (q * b) →
  Number.div (Number.of_Z (q * b)) (Number.of_Z b) = Number.of_Z q.
Proof.
  intros Hq Hb Hab.
  assert (safe_integer q) as Hsq by (unfold safe_integer in *; nia).
  assert (safe_integer b) as Hsb by (unfold safe_integer in *; nia).
  destruct q as [|q|q]; [lia| |lia]. destruct b as [|b|b]; [lia| |lia].
  change (Zpos q * Zpos b)%Z with (Zpos (q * b)) in *.
  rewrite !of_Z_pos by done. apply safe_digits in Hsq, Hsb, Hab.
  pose proof (digits_pos q) as Hq0. pose proof (digits_pos b) as Hb0.
  pose proof (digits_pos (q * b)) as Hab0.
  pose proof (digits_bounds q) as [_ Hqhi]. pose proof (digits_bounds b) as [_ Hbhi].
  pose proof (digits_bounds (q * b)) as [Hablo _].
  assert (digits (q * b) - 1 < digits q + digits b)%Z as Hd.
  { destruct (Z.lt_ge_cases (digits (q * b) - 1) (digits q + digits b)) as [|Hge]; [done|].
    assert (2 ^ (digits q + digits b) ≤ 2 ^ (digits (q * b) - 1))%Z
      by (apply Z.pow_le_mono_r; lia).
    rewrite Z.pow_add_r in * by lia. rewrite Pos2Z.inj_mul in Hablo. nia. }
  unfold normal at 1 2. unfold Number.div, SFdiv, SFdiv_core_binary. simpl Zdigits2.
  change (Zpos (digits2_pos ?x)) with (digits x).
  rewrite !digits_shift.
  replace (digits (q * b) + Z.of_nat (Z.to_nat (53 - digits (q * b))))%Z with 53%Z by lia.
  replace (digits b + Z.of_nat (Z.to_nat (53 - digits b)))%Z with 53%Z by lia.
  set (ea := (digits (q * b) - 53)%Z). set (eb := (digits b - 53)%Z).
  rewrite fexp_normal by lia.
  replace (Z.min (53 + ea - (53 + eb) - 53) (ea - eb)) with (ea - eb - 53)%Z by lia.
  replace (ea - eb - (ea - eb - 53))%Z with 53%Z by lia.
  cbv beta iota. rewrite Z.shiftl_mul_pow2 by lia.
  set (K := Z.to_nat (53 + digits b - digits (q * b))).
  assert (Zpos (shift (Z.to_nat (53 - digits (q * b))) (q * b)) * 2 ^ 53
          = Zpos (shift (Z.to_nat (53 - digits b)) b) * Zpos (shift K q))%Z as Hexact.
  { rewrite !Zpos_shift, Pos2Z.inj_mul.
    assert (2 ^ Z.of_nat (Z.to_nat (53 - digits (q * b))) * 2 ^ 53
            = 2 ^ Z.of_nat (Z.to_nat (53 - digits b)) * 2 ^ Z.of_nat K)%Z as Hpow.
    { rewrite <-!Z.pow_add_r by lia. f_equal. unfold K. lia. }
    rewrite <-Z.mul_assoc, Hpow. ring. }
  rewrite Hexact.
  assert (Z.div_eucl (Zpos (shift (Z.to_nat (53 - digits b)) b) * Zpos (shift K q))
                     (Zpos (shift (Z.to_nat (53 - digits b)) b))
          = (Zpos (shift K q), 0%Z)) as ->.
  { apply div_eucl_exact. lia. }
  assert (new_location (Zpos (shift (Z.to_nat (53 - digits b)) b)) 0 = loc_Exact) as ->.
  { unfold new_location. by destruct (Z.even _). }
  simpl xorb.
  replace (ea - eb - 53)%Z with (- Z.of_nat K)%Z by (unfold ea, eb, K; lia).
  apply binary_round_aux_shift; [done|unfold K; lia].
Qed.

(** *** Round to nearest, ties to even *)

Lemma shr_1_fields rec :
  (0 ≤ shr_m rec)%Z →
  shr_m (shr_1 rec) = (shr_m rec / 2)%Z
  ∧ shr_r (shr_1 rec) = Z.odd (shr_m rec)
  ∧ shr_s (shr_1 rec) = shr_r rec || shr_s rec.
Proof.
  destruct rec as [m r s]. simpl shr_m. intros Hm.
  rewrite <-Z.div2_div. by destruct m as [|[p|p|]|p].
Qed.

Lemma shr_iter_bits M n :
  (0 ≤ M)%Z →
  let rec := Nat.iter n shr_1 (Build_shr_record M false false) in
  shr_m rec = (M / 2 ^ Z.of_nat n)%Z
  ∧ (shr_r rec = true ↔ (2 ^ Z.of_nat n ≤ 2 * (M mod 2 ^ Z.of_nat n))%Z)
  ∧ (shr_s rec = true ↔ (0 < (2 * (M mod 2 ^ Z.of_nat n)) mod 2 ^ Z.of_nat n)%Z).
Proof.
  intros HM. induction n as [|n IH].
  - simpl. rewrite Z.div_1_r, Z.mod_1_r. simpl. split; [done|]. split; split; (done || lia).
  - cbv zeta in *. simpl Nat.iter.
    destruct IH as (Hm & Hr & Hs).
    set (rec := Nat.iter n shr_1 (Build_shr_record M false false)) in *.
    assert (0 ≤ shr_m rec)%Z as Hpos.
    { rewrite Hm. apply Z.div_pos; [done|]. apply Z.pow_pos_nonneg; lia. }
    destruct (shr_1_fields rec Hpos) as (-> & -> & ->).
    set (P := (2 ^ Z.of_nat n)%Z) in *.
    assert (0 < P)%Z as HP by (apply Z.pow_pos_nonneg; lia).
    assert (2 ^ Z.of_nat (S n) = P * 2)%Z as ->.
    { rewrite Nat2Z.inj_succ, Z.pow_succ_r by lia. unfold P. lia. }
    rewrite Hm.
    pose proof (Z.mod_pos_bound M P HP) as Hrem.
    pose proof (Z.mod_pos_bound (M / P) 2 ltac:(lia)) as Hbit.
    assert (M mod (P * 2) = M mod P + P * ((M / P) mod 2))%Z as Hsplit.
    { apply Z.rem_mul_r; lia. }
    split; [by rewrite Z.div_div by lia|]. split.
    + rewrite Hsplit. rewrite Zodd_mod. 
      destruct (Z.eqb_spec ((M / P) mod 2) 1) as [Heq|Hne].
      * rewrite Heq. split; [nia|done].
      * assert ((M / P) mod 2 = 0)%Z as -> by lia. split; [done|nia].
    + assert ((2 * (M mod (P * 2))) mod (P * 2) = 2 * (M mod P))%Z as ->.
      { rewrite Hsplit.
        replace (2 * (M mod P + P * ((M / P) mod 2)))%Z
          with (2 * (M mod P) + ((M / P) mod 2) * (P * 2))%Z by lia.
        rewrite Z.mod_add by lia. apply Z.mod_small. lia. }
      rewrite orb_true_iff, Hr, Hs.
      destruct (Z.lt_ge_cases (2 * (M mod P)) P) as [Hlt|Hge].
      * rewrite (Z.mod_small (2 * (M mod P)) P) by lia. lia.
      * lia.
Qed.

(** What the shifts and the rounding of [binary_round_aux] compute. *)
Lemma round_shr_iter M n :
  (0 ≤ M)%Z →
  let rec := Nat.iter n shr_1 (Build_shr_record M false false) in
  round_nearest_even (shr_m rec) (loc_of_shr_record rec) = rneZ M n.
Proof.
  intros HM. pose proof (shr_iter_bits M n HM) as (Hm & Hr & Hs). cbv zeta in *.
  set (rec := Nat.iter n shr_1 (Build_shr_record M false false)) in *.
  unfold rneZ. rewrite <-Hm.
  set (P := (2 ^ Z.of_nat n)%Z) in *.
  assert (0 < P)%Z as HP by (apply Z.pow_pos_nonneg; lia).
  pose proof (Z.mod_pos_bound M P HP) as Hrem.
  destruct rec as [m r s]. simpl in *.
  destruct (Z.compare_spec (2 * (M mod P)) P) as [Heq|Hlt|Hgt].
  - assert (r = true) as -> by (apply Hr; lia).
    assert (s = false) as ->.
    { destruct s; [|done]. assert (0 < (2 * (M mod P)) mod P)%Z as H by by apply Hs.
      rewrite Heq, Z.mod_same in H by lia. lia. }
    done.
  - assert (r = false) as ->.
    { destruct r; [|done]. assert (P ≤ 2 * (M mod P))%Z by by apply Hr. lia. }
    by destruct s.
  - assert (r = true) as -> by (apply Hr; lia).
    assert (s = true) as ->.
    { apply Hs. 
      replace (2 * (M mod P))%Z with ((2 * (M mod P) - P) + 1 * P)%Z by lia.
      rewrite Z.mod_add by lia. rewrite (Z.mod_small (2 * (M mod P) - P) P) by lia. lia. }
    done.
Qed.

Lemma rneZ_bounds M n :
  (M / 2 ^ Z.of_nat n ≤ rneZ M n ≤ M / 2 ^ Z.of_nat n + 1)%Z.
Proof.
  unfold rneZ. destruct (_ ?= _)%Z; [|lia..]. destruct (Z.even _); lia.
Qed.

Lemma rneZ_0 M : rneZ M 0 = M.
Proof.
  unfold rneZ. simpl Z.of_nat. simpl (2 ^ 0)%Z. by rewrite Z.mod_1_r, Z.div_1_r.
Qed.

Lemma rneZ_mono M1 M2 n : (M1 ≤ M2)%Z → (rneZ M1 n ≤ rneZ M2 n)%Z.
Proof.
  intros Hle. unfold rneZ.
  set (P := (2 ^ Z.of_nat n)%Z).
  assert (0 < P)%Z as HP by (apply Z.pow_pos_nonneg; lia).
  pose proof (Z.div_le_mono M1 M2 P HP Hle) as Hq.
  pose proof (Z.div_mod M1 P ltac:(lia)) as H1.
  pose proof (Z.div_mod M2 P ltac:(lia)) as H2.
  pose proof (Z.mod_pos_bound M1 P HP) as Hr1.
  pose proof (Z.mod_pos_bound M2 P HP) as Hr2.
  destruct (Z.eq_dec (M1 / P)%Z (M2 / P)%Z) as [Heq|Hne].
  - rewrite Heq in *.
    assert (M1 mod P ≤ M2 mod P)%Z as Hrem by lia.
    destruct (Z.compare_spec (2 * (M1 mod P)) P), (Z.compare_spec (2 * (M2 mod P)) P);
      try lia; destruct (Z.even (M2 / P)%Z); lia.
  - assert (M1 / P + 1 ≤ M2 / P)%Z by lia.
    destruct (2 * (M1 mod P) ?= P)%Z, (2 * (M2 mod P) ?= P)%Z;
      try lia; destruct (Z.even (M1 / P)%Z), (Z.even (M2 / P)%Z); lia.
Qed.

Lemma rneZ_scale M n j : rneZ (M * 2 ^ Z.of_nat j) (n + j) = rneZ M n.
Proof.
  unfold rneZ.
  rewrite Nat2Z.inj_add, Z.pow_add_r by lia.
  set (P := (2 ^ Z.of_nat n)%Z). set (J := (2 ^ Z.of_nat j)%Z).
  assert (0 < P)%Z as HP by (apply Z.pow_pos_nonneg; lia).
  assert (0 < J)%Z as HJ by (apply Z.pow_pos_nonneg; lia).
  rewrite Z.div_mul_cancel_r by lia.
  rewrite Z.mul_mod_distr_r by lia.
  replace (2 * (M mod P * J))%Z with ((2 * (M mod P)) * J)%Z by lia.
  assert (((2 * (M mod P)) * J ?= P * J) = (2 * (M mod P) ?= P))%Z as ->; [|done].
  destruct (Z.compare_spec (2 * (M mod P)) P) as [Heq|Hlt|Hgt].
  - apply Z.compare_eq_iff. by rewrite Heq.
  - apply Z.compare_lt_iff. nia.
  - apply Z.compare_gt_iff. nia.
Qed.

Lemma rneZ_exact A n : rneZ (A * 2 ^ Z.of_nat n) n = A.
Proof. exact (eq_trans (rneZ_scale A 0 n) (rneZ_0 A)). Qed.

Lemma shr_nat rec e n :
  shr rec e (Z.of_nat n) = (Nat.iter n shr_1 rec, (e + Z.of_nat n)%Z).
Proof.
  destruct n as [|n].
  - simpl. by rewrite Z.add_0_r.
  - unfold shr. change (Z.of_nat (S n)) with (Zpos (Pos.of_succ_nat n)).
    cbv beta iota. by rewrite iter_pos_nat, SuccNat2Pos.id_succ.
Qed.

Lemma shr_fexp_nat m e n :
  (fexp Number.prec Number.emax (Zdigits2 m + e) - e)%Z = Z.of_nat n →
  shr_fexp Number.prec Number.emax m e loc_Exact
  = (Nat.iter n shr_1 (Build_shr_record m false false), (e + Z.of_nat n)%Z).
Proof. intros Hn. unfold shr_fexp. rewrite Hn. apply shr_nat. Qed.

(** The mantissa that [binary_round_aux] gives to a positive of at least
    53 digits, and its exponent. *)
Lemma binary_round_aux_rneZ s p e :
  (53 ≤ digits p)%Z →
  (-1074 ≤ e + (digits p - 53))%Z → (e + (digits p - 53) + 1 ≤ 971)%Z →
  let n := Z.to_nat (digits p - 53) in
  let q := rneZ (Zpos p) n in
  (2 ^ 52 ≤ q ≤ 2 ^ 53)%Z
  ∧ binary_round_aux Number.prec Number.emax s (Zpos p) e loc_Exact
    = if (q =? 2 ^ 53)%Z
      then S754_finite s (2 ^ 52)%positive (e + Z.of_nat n + 1)
      else S754_finite s (Z.to_pos q) (e + Z.of_nat n).
Proof.
  intros Hd Hlo Hhi n q.
  pose proof (digits_bounds p) as [Hplo Hphi].
  assert (Z.of_nat n = digits p - 53)%Z as Hn by (unfold n; lia).
  assert (2 ^ 52 ≤ Zpos p / 2 ^ Z.of_nat n < 2 ^ 53)%Z as Hquot.
  { assert (0 < 2 ^ Z.of_nat n)%Z by (apply Z.pow_pos_nonneg; lia).
    assert (2 ^ (digits p - 1) = 2 ^ 52 * 2 ^ Z.of_nat n)%Z as E1.
    { rewrite <-Z.pow_add_r by lia. f_equal. lia. }
    assert (2 ^ digits p = 2 ^ 53 * 2 ^ Z.of_nat n)%Z as E2.
    { rewrite <-Z.pow_add_r by lia. f_equal. lia. }
    split.
    - apply Z.div_le_lower_bound; lia.
    - apply Z.div_lt_upper_bound; lia. }
  pose proof (rneZ_bounds (Zpos p) n) as Hq. fold q in Hq.
  split; [lia|].
  unfold binary_round_aux.
  rewrite (shr_fexp_nat (Zpos p) e n).
  2:{ simpl Zdigits2. change (Zpos (digits2_pos p)) with (digits p).
      rewrite fexp_normal by lia. lia. }
  rewrite (round_shr_iter (Zpos p) n) by done. fold q.
  destruct (Z.eqb_spec q (2 ^ 53)) as [Heq|Hne].
  - rewrite Heq. rewrite (shr_fexp_nat (2 ^ 53) (e + Z.of_nat n) 1).
    2:{ change (Zdigits2 (2 ^ 53)) with 54%Z. rewrite fexp_normal by lia. lia. }
    change (shr_m (Nat.iter 1 shr_1 (Build_shr_record (2 ^ 53) false false)))
      with (Zpos (2 ^ 52)).
    cbv beta iota.
    destruct (Z.leb_spec (e + Z.of_nat n + Z.of_nat 1) (Number.emax - Number.prec)) as [|Hgt].
    + f_equal.
    + unfold Number.emax, Number.prec in Hgt. simpl in Hgt. lia.
  - assert (2 ^ 52 ≤ q < 2 ^ 53)%Z as Hq' by lia.
    destruct q as [|qp|qp]; [lia| |lia].
    assert (digits qp = 53%Z) as Hdq by (apply digits_unique; simpl; lia).
    rewrite (shr_fexp_nat (Zpos qp) (e + Z.of_nat n) 0).
    2:{ simpl Zdigits2. change (Zpos (digits2_pos qp)) with (digits qp).
        rewrite Hdq, fexp_normal by lia. simpl. lia. }
    simpl Nat.iter. simpl shr_m. cbv beta iota.
    destruct (Z.leb_spec (e + Z.of_nat n + Z.of_nat 0) (Number.emax - Number.prec)) as [|Hgt].
    + f_equal. simpl. lia.
    + unfold Number.emax, Number.prec in Hgt. simpl in Hgt. lia.
Qed.

(** *** The value of a rounded number *)

Lemma Zdigits2_pos p : Zdigits2 (Zpos p) = digits p.
Proof. done. Qed.

Lemma digits_mul_pow p j :
  (0 ≤ j)%Z → Zdigits2 (Zpos p * 2 ^ j) = (digits p + j)%Z.
Proof.
  intros Hj. replace j with (Z.of_nat (Z.to_nat j)) by lia.
  by rewrite <-Zpos_shift, Zdigits2_pos, digits_shift.
Qed.

Lemma round_int_scale p j :
  (53 ≤ digits p)%Z → (0 ≤ j)%Z →
  round_int (Zpos p * 2 ^ j)
  = (rneZ (Zpos p) (Z.to_nat (digits p - 53)) * 2 ^ (digits p - 53 + j))%Z.
Proof.
  intros Hd Hj. unfold round_int. rewrite digits_mul_pow by done.
  replace (Z.to_nat (digits p + j - 53))
    with (Z.to_nat (digits p - 53) + Z.to_nat j)%nat by lia.
  replace (2 ^ j)%Z with (2 ^ Z.of_nat (Z.to_nat j))%Z at 1 by (f_equal; lia).
  rewrite rneZ_scale. do 2 f_equal. lia.
Qed.

Lemma round_int_exact p j :
  (digits p ≤ 53)%Z → (0 ≤ j)%Z →
  round_int (Zpos p * 2 ^ j) = (Zpos p * 2 ^ j)%Z.
Proof.
  intros Hd Hj. pose proof (digits_pos p) as Hp. unfold round_int.
  rewrite digits_mul_pow by done.
  set (n := Z.to_nat (digits p + j - 53)).
  assert (Z.of_nat n ≤ j)%Z as Hn by (unfold n; lia).
  assert (Zpos p * 2 ^ j = (Zpos p * 2 ^ (j - Z.of_nat n)) * 2 ^ Z.of_nat n)%Z as ->.
  { rewrite <-Z.mul_assoc, <-Z.pow_add_r by lia. do 2 f_equal. lia. }
  by rewrite rneZ_exact.
Qed.

(** What [binary_round_aux] and [binary_round] return: a full mantissa,
    and the rounded value in units of [2 ^ -400]. *)
Lemma binary_round_aux_scaled s p e :
  (53 ≤ digits p)%Z → (-400 ≤ e)%Z → (e + digits p ≤ 400)%Z →
  ∃ m e', binary_round_aux Number.prec Number.emax s (Zpos p) e loc_Exact
          = S754_finite s m e'
          ∧ digits m = 53%Z ∧ (e + digits p - 53 ≤ e' ≤ e + digits p - 52)%Z
          ∧ (cond_Zopp s (Zpos m * 2 ^ (e' + 400))
             = cond_Zopp s (round_int (Zpos p * 2 ^ (e + 400))))%Z.
Proof.
  intros Hd Hlo Hhi.
  destruct (binary_round_aux_rneZ s p e Hd ltac:(lia) ltac:(lia)) as (Hq & Hr).
  cbv zeta in Hq, Hr. rewrite Hr.
  rewrite round_int_scale by lia.
  set (n := Z.to_nat (digits p - 53)) in *.
  set (q := rneZ (Zpos p) n) in *.
  assert (Z.of_nat n = digits p - 53)%Z as Hn by (unfold n; lia).
  destruct (Z.eqb_spec q (2 ^ 53)) as [Heq|Hne].
  - eexists _, _. split; [done|]. split; [done|]. split; [lia|]. f_equal.
    rewrite Heq. change (Zpos (2 ^ 52)) with (2 ^ 52)%Z.
    rewrite <-!Z.pow_add_r by lia. f_equal. lia.
  - assert (2 ^ 52 ≤ q < 2 ^ 53)%Z as Hq' by lia.
    destruct q as [|qp|qp] eqn:Hqp; [lia| |lia].
    eexists _, _. split; [done|]. split; [apply digits_unique; simpl; lia|].
    split; [lia|]. simpl Z.to_pos. do 3 f_equal. lia.
Qed.

Lemma binary_round_short s p e :
  (digits p ≤ 53)%Z → (-1021 ≤ digits p + e ≤ 1024)%Z →
  binary_round Number.prec Number.emax s p e
  = S754_finite s (shift (Z.to_nat (53 - digits p)) p) (e + digits p - 53).
Proof.
  intros Hd He. pose proof (digits_pos p) as Hp. unfold binary_round.
  change (Zpos (digits2_pos p)) with (digits p). rewrite fexp_normal by lia.
  unfold shl_align.
  destruct (digits p + e - 53 - e)%Z as [|t|t] eqn:Ht.
  - replace (Z.to_nat (53 - digits p)) with 0%nat by lia.
    rewrite (binary_round_aux_exact s p 0) by (simpl; lia). f_equal. simpl. lia.
  - lia.
  - rewrite Pos_iter_xO.
    replace (Z.to_nat (53 - digits p)) with (Pos.to_nat t) by lia.
    rewrite (binary_round_aux_exact s (shift (Pos.to_nat t) p) 0)
      by (rewrite ?digits_shift; simpl; lia).
    f_equal. simpl. lia.
Qed.

Lemma binary_round_scaled s p e :
  (-347 ≤ e)%Z → (e + digits p ≤ 400)%Z →
  ∃ m e', binary_round Number.prec Number.emax s p e = S754_finite s m e'
          ∧ digits m = 53%Z ∧ (e + digits p - 53 ≤ e' ≤ e + digits p - 52)%Z
          ∧ (cond_Zopp s (Zpos m * 2 ^ (e' + 400))
             = cond_Zopp s (round_int (Zpos p * 2 ^ (e + 400))))%Z.
Proof.
  intros Hlo Hhi. pose proof (digits_pos p) as Hp.
  destruct (Z.le_gt_cases (digits p) 53) as [Hd|Hd].
  - rewrite binary_round_short by lia.
    rewrite round_int_exact by lia.
    eexists _, _. split; [done|]. split; [rewrite digits_shift; lia|].
    split; [lia|]. f_equal.
    rewrite Zpos_shift, <-Z.mul_assoc, <-Z.pow_add_r by lia. do 2 f_equal. lia.
  - assert (binary_round Number.prec Number.emax s p e
            = binary_round_aux Number.prec Number.emax s (Zpos p) e loc_Exact) as ->.
    { unfold binary_round. change (Zpos (digits2_pos p)) with (digits p).
      rewrite fexp_normal by lia. unfold shl_align.
      by destruct (digits p + e - 53 - e)%Z as [|t|t] eqn:Ht; [|done|lia]. }
    apply binary_round_aux_scaled; lia.
Qed.

Lemma scaled_regular_exact x :
  regular 400 x → round_int (Z.abs (scaled x)) = Z.abs (scaled x).
Proof.
  destruct x as [s|s| |s m e]; try done. intros [Hd He]. simpl scaled.
  assert (0 < 2 ^ (e + 400))%Z by (apply Z.pow_pos_nonneg; lia).
  assert (Z.abs (cond_Zopp s (Zpos m * 2 ^ (e + 400))) = Zpos m * 2 ^ (e + 400))%Z as ->.
  { destruct s; simpl cond_Zopp; lia. }
  apply round_int_exact; lia.
Qed.

(** Regular numbers compare as their values do. *)
Lemma compare_regular x y :
  regular 400 x → regular 400 y → SFcompare x y = Some (scaled x ?= scaled y)%Z.
Proof.
  intros Hx Hy.
  destruct x as [sx|sx| |sx mx ex], y as [sy|sy| |sy my ey]; try done.
  - destruct Hy as [Hdy Hey]. unfold SFcompare, scaled.
    assert (0 < Zpos my * 2 ^ (ey + 400))%Z.
    { apply Z.mul_pos_pos; [done|]. apply Z.pow_pos_nonneg; lia. }
    f_equal. symmetry. destruct sy; simpl cond_Zopp.
    + apply Z.compare_gt_iff. lia.
    + apply Z.compare_lt_iff. lia.
  - destruct Hx as [Hdx Hex]. unfold SFcompare, scaled.
    assert (0 < Zpos mx * 2 ^ (ex + 400))%Z.
    { apply Z.mul_pos_pos; [done|]. apply Z.pow_pos_nonneg; lia. }
    f_equal. symmetry. destruct sx; simpl cond_Zopp.
    + apply Z.compare_lt_iff. lia.
    + apply Z.compare_gt_iff. lia.
  - destruct Hx as [Hdx Hex], Hy as [Hdy Hey].
    assert (∃ C, 0 < C ∧ C ≤ Zpos mx < 2 * C ∧ C ≤ Zpos my < 2 * C)%Z
      as (C & HC & Hmx & Hmy).
    { exists (2 ^ 52)%Z.
      pose proof (digits_bounds mx) as Hx. rewrite Hdx in Hx.
      pose proof (digits_bounds my) as Hy. rewrite Hdy in Hy.
      change (2 ^ (53 - 1))%Z with (2 ^ 52)%Z in *.
      change (2 ^ 53)%Z with (2 * 2 ^ 52)%Z in *. lia. }
    assert (0 < 2 ^ (ex + 400))%Z as Hpx by (apply Z.pow_pos_nonneg; lia).
    assert (0 < 2 ^ (ey + 400))%Z as Hpy by (apply Z.pow_pos_nonneg; lia).
    assert ((match (ex ?= ey)%Z with
             | Lt => Lt
             | Gt => Gt
             | Eq => Pos.compare_cont Eq mx my
             end) = (Zpos mx * 2 ^ (ex + 400) ?= Zpos my * 2 ^ (ey + 400))%Z) as Hcmp.
    { destruct (Z.compare_spec ex ey) as [->|Hlt|Hgt].
      - change (Pos.compare_cont Eq mx my) with (Zpos mx ?= Zpos my)%Z.
        destruct (Z.compare_spec (Zpos mx) (Zpos my)) as [Heq|Hl|Hg]; symmetry.
        + apply Z.compare_eq_iff. by rewrite Heq.
        + apply Z.compare_lt_iff. nia.
        + apply Z.compare_gt_iff. nia.
      - symmetry. apply Z.compare_lt_iff.
        assert (2 ^ (ey + 400) = 2 ^ (ex + 400) * 2 ^ (ey - ex))%Z as ->.
        { rewrite <-Z.pow_add_r by lia. f_equal. lia. }
        assert (2 ^ 1 ≤ 2 ^ (ey - ex))%Z as HB by (apply Z.pow_le_mono_r; lia).
        change (2 ^ 1)%Z with 2%Z in HB.
        revert HB Hpx. generalize (2 ^ (ey - ex))%Z, (2 ^ (ex + 400))%Z.
        intros B A HB HA.
        apply Z.lt_le_trans with (2 * C * A)%Z; [nia|].
        assert (2 * C ≤ Zpos my * B)%Z by nia. nia.
      - symmetry. apply Z.compare_gt_iff.
        assert (2 ^ (ex + 400) = 2 ^ (ey + 400) * 2 ^ (ex - ey))%Z as ->.
        { rewrite <-Z.pow_add_r by lia. f_equal. lia. }
        assert (2 ^ 1 ≤ 2 ^ (ex - ey))%Z as HB by (apply Z.pow_le_mono_r; lia).
        change (2 ^ 1)%Z with 2%Z in HB.
        revert HB Hpy. generalize (2 ^ (ex - ey))%Z, (2 ^ (ey + 400))%Z.
        intros B A HB HA.
        apply Z.lt_le_trans with (2 * C * A)%Z; [nia|].
        assert (2 * C ≤ Zpos mx * B)%Z by nia. nia. }
    assert (0 < Zpos mx * 2 ^ (ex + 400))%Z as Hvx by lia.
    assert (0 < Zpos my * 2 ^ (ey + 400))%Z as Hvy by lia.
    unfold SFcompare, scaled. f_equal.
    destruct sx, sy; simpl cond_Zopp.
    + rewrite Z.compare_opp. rewrite (Z.compare_antisym (Zpos mx * _) (Zpos my * _)), <-Hcmp.
      by destruct (ex ?= ey)%Z.
    + symmetry. apply Z.compare_lt_iff. lia.
    + symmetry. apply Z.compare_gt_iff. lia.
    + done.
Qed.

(** *** Rounding is monotone *)

Lemma Zdigits2_bounds V :
  (0 < V)%Z → (0 < Zdigits2 V ∧ 2 ^ (Zdigits2 V - 1) ≤ V < 2 ^ Zdigits2 V)%Z.
Proof.
  intros HV. destruct V as [|p|p]; [lia| |lia].
  rewrite Zdigits2_pos. split; [apply digits_pos|apply digits_bounds].
Qed.

Lemma Zdigits2_mono V1 V2 : (0 ≤ V1 ≤ V2)%Z → (Zdigits2 V1 ≤ Zdigits2 V2)%Z.
Proof.
  intros [H1 H2]. destruct (decide (V1 = 0%Z)) as [->|Hne].
  - destruct V2 as [|p|p]; [done| |lia]. rewrite Zdigits2_pos.
    pose proof (digits_pos p). simpl. lia.
  - destruct (Zdigits2_bounds V1 ltac:(lia)) as (Hd1 & Hlo1 & Hhi1).
    destruct (Zdigits2_bounds V2 ltac:(lia)) as (Hd2 & Hlo2 & Hhi2).
    destruct (Z.le_gt_cases (Zdigits2 V1) (Zdigits2 V2)) as [|Hgt]; [done|].
    assert (2 ^ Zdigits2 V2 ≤ 2 ^ (Zdigits2 V1 - 1))%Z by (apply Z.pow_le_mono_r; lia). lia.
Qed.

Lemma round_int_nonneg V : (0 ≤ V)%Z → (0 ≤ round_int V)%Z.
Proof.
  intros HV. unfold round_int.
  set (n := Z.to_nat (Zdigits2 V - 53)).
  assert (0 < 2 ^ Z.of_nat n)%Z by (apply Z.pow_pos_nonneg; lia).
  pose proof (rneZ_bounds V n) as [Hlo _].
  pose proof (Z.div_pos V (2 ^ Z.of_nat n) HV ltac:(lia)). nia.
Qed.

Lemma round_int_upper V :
  (0 ≤ V)%Z → (round_int V ≤ 2 ^ (53 + Z.of_nat (Z.to_nat (Zdigits2 V - 53))))%Z.
Proof.
  intros HV. unfold round_int.
  set (n := Z.to_nat (Zdigits2 V - 53)).
  assert (0 < 2 ^ Z.of_nat n)%Z as HP by (apply Z.pow_pos_nonneg; lia).
  rewrite Z.pow_add_r by lia.
  apply Z.mul_le_mono_nonneg_r; [lia|].
  pose proof (rneZ_bounds V n) as [_ Hhi].
  assert (V / 2 ^ Z.of_nat n < 2 ^ 53)%Z; [|lia].
  apply Z.div_lt_upper_bound; [done|]. rewrite Z.mul_comm, <-Z.pow_add_r by lia.
  destruct (decide (V = 0%Z)) as [->|Hne]; [apply Z.pow_pos_nonneg; lia|].
  destruct (Zdigits2_bounds V ltac:(lia)) as (Hd & _ & Hhi').
  assert (2 ^ Zdigits2 V ≤ 2 ^ (53 + Z.of_nat n))%Z by (apply Z.pow_le_mono_r; lia). lia.
Qed.

Lemma round_int_lower V :
  (0 ≤ V)%Z → (53 < Zdigits2 V)%Z → (2 ^ (Zdigits2 V - 1) ≤ round_int V)%Z.
Proof.
  intros HV0 Hd. assert (0 < V)%Z as HV by (destruct V; simpl in *; lia).
  destruct (Zdigits2_bounds V HV) as (_ & Hlo & _).
  unfold round_int. set (n := Z.to_nat (Zdigits2 V - 53)).
  assert (0 < 2 ^ Z.of_nat n)%Z as HP by (apply Z.pow_pos_nonneg; lia).
  assert (2 ^ (Zdigits2 V - 1) = 2 ^ 52 * 2 ^ Z.of_nat n)%Z as E.
  { rewrite <-Z.pow_add_r by lia. f_equal. lia. }
  rewrite E in *. apply Z.mul_le_mono_nonneg_r; [lia|].
  pose proof (rneZ_bounds V n) as [Hq _].
  assert (2 ^ 52 ≤ V / 2 ^ Z.of_nat n)%Z; [|lia].
  apply Z.div_le_lower_bound; lia.
Qed.

(** Rounding is monotone. *)
Lemma round_int_mono V1 V2 :
  (0 ≤ V1 ≤ V2)%Z → (round_int V1 ≤ round_int V2)%Z.
Proof.
  intros HV. pose proof (Zdigits2_mono V1 V2 HV) as Hd.
  destruct (decide (Z.to_nat (Zdigits2 V1 - 53) = Z.to_nat (Zdigits2 V2 - 53))) as [Heq|Hne].
  - unfold round_int. rewrite Heq.
    apply Z.mul_le_mono_nonneg_r; [apply Z.pow_nonneg; lia|].
    apply rneZ_mono. lia.
  - assert (53 < Zdigits2 V2)%Z as Hd2 by lia.
    etrans; [apply round_int_upper; lia|].
    etrans; [|apply round_int_lower; lia].
    apply Z.pow_le_mono_r; lia.
Qed.

Lemma sround_mono V1 V2 : (V1 ≤ V2)%Z → (sround V1 ≤ sround V2)%Z.
Proof.
  intros HV. unfold sround.
  pose proof (round_int_nonneg (Z.abs V1) ltac:(lia)).
  pose proof (round_int_nonneg (Z.abs V2) ltac:(lia)).
  destruct (Z.lt_ge_cases V1 0) as [H1|H1], (Z.lt_ge_cases V2 0) as [H2|H2].
  - rewrite !Z.sgn_neg by done.
    pose proof (round_int_mono (Z.abs V2) (Z.abs V1) ltac:(lia)). lia.
  - rewrite Z.sgn_neg by done. pose proof (Z.sgn_nonneg V2). nia.
  - lia.
  - pose proof (round_int_mono (Z.abs V1) (Z.abs V2) ltac:(lia)) as Hm.
    destruct (decide (V1 = 0%Z)) as [->|Hn1].
    + simpl Z.sgn. pose proof (Z.sgn_nonneg V2). nia.
    + rewrite !Z.sgn_pos by lia. lia.
Qed.

Lemma sround_cond_Zopp s V :
  (0 ≤ V)%Z → cond_Zopp s (round_int V) = sround (cond_Zopp s V).
Proof.
  intros HV. unfold sround. destruct (decide (V = 0%Z)) as [->|Hne].
  - by destruct s.
  - destruct s; simpl cond_Zopp.
    + rewrite Z.sgn_neg, Z.abs_opp, Z.abs_eq by lia. lia.
    + rewrite Z.sgn_pos, Z.abs_eq by lia. lia.
Qed.

(** *** Products and differences, rounded *)

Lemma regular_weaken R R' x : (R ≤ R')%Z → regular R x → regular R' x.
Proof. intros HR. destruct x as [s|s| |s m e]; try done. intros [Hd He]. split; [done|lia]. Qed.

Lemma scaled_of_Z X :
  safe_integer X → regular 52 (Number.of_Z X) ∧ scaled (Number.of_Z X) = (X * 2 ^ 400)%Z.
Proof.
  intros HX. destruct (decide (X = 0%Z)) as [->|Hne]; [done|].
  destruct (of_Z_nonzero X Hne HX) as (m & e & -> & He & Hm & Hd & _).
  split; [split; [done|lia]|]. simpl scaled.
  rewrite cond_Zopp_mul, Hm, <-Z.mul_assoc, <-Z.pow_add_r by lia. do 2 f_equal. lia.
Qed.

Lemma Zdigits2_between q lo :
  (0 ≤ lo)%Z → (2 ^ lo ≤ q < 2 ^ (lo + 1))%Z → Zdigits2 q = (lo + 1)%Z.
Proof.
  intros Hlo Hq. assert (0 < 2 ^ lo)%Z by (apply Z.pow_pos_nonneg; lia).
  destruct q as [|p|p]; [lia| |lia]. rewrite Zdigits2_pos.
  apply digits_unique. by replace (lo + 1 - 1)%Z with lo by lia.
Qed.

(** The product of a safe integer that is not negative and a positive
    number with a full mantissa, in units of [2 ^ -400]. *)
Lemma mul_scaled k ms es :
  (0 ≤ k)%Z → safe_integer k → digits ms = 53%Z → (-110 ≤ es ≤ 110)%Z →
  let t := Number.mul (Number.of_Z k) (S754_finite false ms es) in
  regular 170 t ∧ scaled t = round_int (k * (Zpos ms * 2 ^ (es + 400))).
Proof.
  intros Hk0 Hk Hds Hes t.
  destruct (decide (k = 0%Z)) as [->|Hne]; [done|].
  destruct (of_Z_nonzero k Hne Hk) as (mk & ek & Hof & Hek & Hmk & Hdk & _).
  unfold t. rewrite Hof.
  replace (k <? 0)%Z with false in * by (symmetry; apply Z.ltb_ge; lia).
  simpl cond_Zopp in Hmk.
  unfold Number.mul, SFmul. simpl xorb.
  pose proof (digits_bounds mk) as Hbk. rewrite Hdk in Hbk.
  pose proof (digits_bounds ms) as Hbs. rewrite Hds in Hbs.
  change (2 ^ (53 - 1))%Z with (2 ^ 52)%Z in *.
  assert (104 < digits (mk * ms) ≤ 106)%Z as Hd.
  { split.
    - apply digits_lower. rewrite Pos2Z.inj_mul.
      change (2 ^ 104)%Z with (2 ^ 52 * 2 ^ 52)%Z. nia.
    - change (digits (mk * ms)) with (Zdigits2 (Zpos (mk * ms))).
      apply Zdigits2_upper; [|lia]. rewrite Pos2Z.inj_mul.
      change (2 ^ 106)%Z with (2 ^ 53 * 2 ^ 53)%Z. nia. }
  destruct (binary_round_aux_scaled false (mk * ms) (ek + es))
    as (m & e & -> & Hdm & He & Hval); [lia..|].
  split; [split; [done|lia]|].
  simpl scaled. simpl cond_Zopp in Hval. rewrite Hval. f_equal.
  rewrite Pos2Z.inj_mul.
  rewrite Hmk.
  assert (2 ^ (es + 400) = 2 ^ (- ek) * 2 ^ (ek + es + 400))%Z as ->.
  { rewrite <-Z.pow_add_r by lia. f_equal. lia. }
  ring.
Qed.

Lemma binary_normalize_scaled D e :
  (-347 ≤ e ≤ 300)%Z → (Z.abs D < 2 ^ (399 - e))%Z →
  let r := binary_normalize Number.prec Number.emax D e false in
  regular 400 r ∧ scaled r = sround (D * 2 ^ (e + 400)).
Proof.
  intros He HD r.
  assert (0 < 2 ^ (e + 400))%Z as Hpow by (apply Z.pow_pos_nonneg; lia).
  assert (∀ p, (Zpos p < 2 ^ (399 - e))%Z → (e + digits p ≤ 400)%Z) as Hdig.
  { intros p Hp. pose proof (Zdigits2_upper (Zpos p) (399 - e) ltac:(lia) ltac:(lia)) as H.
    rewrite Zdigits2_pos in H. lia. }
  destruct D as [|p|p]; unfold r, binary_normalize.
  - done.
  - assert (e + digits p ≤ 400)%Z as Hup by (apply Hdig; simpl in HD; lia).
    destruct (binary_round_scaled false p e) as (m & e' & -> & Hd & He' & Hval); [lia..|].
    pose proof (digits_pos p). split; [split; [done|lia]|].
    unfold scaled. rewrite Hval. apply sround_cond_Zopp. lia.
  - assert (e + digits p ≤ 400)%Z as Hup by (apply Hdig; simpl in HD; lia).
    destruct (binary_round_scaled true p e) as (m & e' & -> & Hd & He' & Hval); [lia..|].
    pose proof (digits_pos p). split; [split; [done|lia]|].
    unfold scaled. rewrite Hval.
    rewrite sround_cond_Zopp by lia. f_equal. simpl cond_Zopp.
    change (Zneg p) with (- Zpos p)%Z. lia.
Qed.

Lemma sround_regular x : regular 400 x → sround (scaled x) = scaled x.
Proof.
  intros Hx. unfold sround. rewrite scaled_regular_exact by done.
  destruct (Z.abs_spec (scaled x)) as [[Hge ->]|[Hlt ->]].
  - destruct (decide (scaled x = 0%Z)) as [->|Hne]; [done|]. rewrite Z.sgn_pos by lia. lia.
  - rewrite Z.sgn_neg by lia. lia.
Qed.

(** A safe integer less a regular number, in units of [2 ^ -400]. *)
Lemma sub_scaled X t :
  safe_integer X → regular 170 t →
  let r := Number.sub (Number.of_Z X) t in
  regular 400 r ∧ scaled r = sround (X * 2 ^ 400 - scaled t).
Proof.
  intros HX Ht r.
  destruct (scaled_of_Z X HX) as [Hrx Hsx].
  assert (regular 400 (Number.of_Z X)) as Hrx' by (eapply regular_weaken; [|done]; lia).
  assert (regular 400 t) as Ht' by (eapply regular_weaken; [|done]; lia).
  destruct t as [st|st| |st mt et]; try done.
  - (* t is a zero *)
    assert (r = Number.of_Z X) as ->.
    { unfold r. destruct (decide (X = 0%Z)) as [->|Hne]; [by destruct st|].
      by destruct (of_Z_nonzero X Hne HX) as (m & e & -> & _). }
    split; [done|]. simpl scaled at 2. rewrite Z.sub_0_r, <-Hsx. by rewrite sround_regular.
  - destruct Ht as [Hdt Het].
    destruct (decide (X = 0%Z)) as [->|Hne].
    + (* 0 - t *)
      assert (r = S754_finite (negb st) mt et) as -> by done.
      split; [split; [done|lia]|].
      rewrite Z.mul_0_l, Z.sub_0_l.
      change (S754_finite (negb st) mt et) with (SFopp (S754_finite st mt et)).
      assert (∀ y, scaled (SFopp y) = (- scaled y)%Z) as Hopp.
      { intros [s|s| |s m e]; try done. simpl. destruct s; simpl; lia. }
      rewrite Hopp.
      assert (∀ V, sround (- V) = (- sround V)%Z) as Hodd.
      { intros V. unfold sround. rewrite Z.sgn_opp, Z.abs_opp. lia. }
      by rewrite Hodd, sround_regular.
    + destruct (of_Z_nonzero X Hne HX) as (mx & ex & Hof & Hex & Hmx & Hdx & _).
      unfold r. rewrite Hof. unfold Number.sub, SFsub.
      set (ez := Z.min ex et).
      assert (cond_Zopp (X <? 0)%Z (Zpos (fst (shl_align mx ex ez))) = (X * 2 ^ (- ez))%Z) as ->.
      { apply aligned; [lia|done]. }
      assert (Zpos (fst (shl_align mt et ez)) = Zpos mt * 2 ^ (et - ez))%Z as Hal.
      { apply shl_align_fst. lia. }
      rewrite Hal.
      set (D := (X * 2 ^ (- ez) - cond_Zopp st (Zpos mt * 2 ^ (et - ez)))%Z).
      pose proof (digits_bounds mt) as Hbt. rewrite Hdt in Hbt.
      assert (0 < 2 ^ (- ez))%Z as Hp1 by (apply Z.pow_pos_nonneg; lia).
      assert (0 < 2 ^ (et - ez))%Z as Hp2 by (apply Z.pow_pos_nonneg; lia).
      destruct (binary_normalize_scaled D ez) as [Hreg Hval]; [lia| |].
      { assert (Z.abs D ≤ Z.abs X * 2 ^ (- ez) + Zpos mt * 2 ^ (et - ez))%Z as HD.
        { unfold D. destruct st; simpl cond_Zopp; nia. }
        assert (Z.abs X * 2 ^ (- ez) < 2 ^ 53 * 2 ^ (- ez))%Z by (unfold safe_integer in HX; nia).
        assert (Zpos mt * 2 ^ (et - ez) < 2 ^ 53 * 2 ^ (et - ez))%Z by nia.
        assert (2 ^ 53 * 2 ^ (- ez) ≤ 2 ^ (398 - ez))%Z.
        { rewrite <-Z.pow_add_r by lia. apply Z.pow_le_mono_r; lia. }
        assert (2 ^ 53 * 2 ^ (et - ez) ≤ 2 ^ (398 - ez))%Z.
        { rewrite <-Z.pow_add_r by lia. apply Z.pow_le_mono_r; lia. }
        assert (2 ^ (399 - ez) = 2 * 2 ^ (398 - ez))%Z.
        { rewrite <-Z.pow_succ_r by lia. f_equal. lia. }
        lia. }
      split; [done|]. rewrite Hval. f_equal. unfold D.
      rewrite Z.mul_sub_distr_r. f_equal.
      * assert (0 ≤ - ez ∧ 0 ≤ ez + 400)%Z as [H1 H2] by (unfold ez; lia).
        rewrite <-Z.mul_assoc, <-Z.pow_add_r by done. do 2 f_equal. lia.
      * assert (0 ≤ et - ez ∧ 0 ≤ ez + 400)%Z as [H1 H2] by (unfold ez; lia).
        simpl scaled. rewrite !cond_Zopp_mul. rewrite <-!Z.mul_assoc. f_equal.
        rewrite <-Z.pow_add_r by done. f_equal. lia.
Qed.

(** *** The quotient is rounded by at most one part in [2 ^ 53] *)

Lemma loc_of_shr_record_of_loc m l : loc_of_shr_record (shr_record_of_loc m l) = l.
Proof. by destruct l as [|[]]. Qed.

Lemma shr_fexp_iter m e l :
  let n := Z.to_nat (fexp Number.prec Number.emax (Zdigits2 m + e) - e) in
  shr_fexp Number.prec Number.emax m e l
  = (Nat.iter n shr_1 (shr_record_of_loc m l), (e + Z.of_nat n)%Z).
Proof.
  intros n. unfold shr_fexp. unfold n.
  destruct (fexp Number.prec Number.emax (Zdigits2 m + e) - e)%Z as [|t|t] eqn:Hf.
  - simpl. by rewrite Z.add_0_r.
  - replace (shr (shr_record_of_loc m l) e (Zpos t))
      with (shr (shr_record_of_loc m l) e (Z.of_nat (Pos.to_nat t))) by (f_equal; lia).
    by rewrite shr_nat, Z2Nat.inj_pos.
  - simpl. by rewrite Z.add_0_r.
Qed.

(** Rounding the quotient [q] with remainder [r] by [d] adds one only when
    the remainder is at least half of [d]. *)
Lemma round_new_location q d r :
  (0 ≤ r < d)%Z →
  (2 * (round_nearest_even q (new_location d r) * d) ≤ 2 * (q * d + r) + d)%Z.
Proof.
  intros Hr. unfold new_location, new_location_even, new_location_odd.
  destruct (Z.even d) eqn:Hev; destruct (Z.eqb_spec r 0) as [->|Hne];
    simpl round_nearest_even; try lia.
  - destruct (Z.compare_spec (2 * r) d); try lia. destruct (Z.even q); lia.
  - destruct (Z.compare_spec (2 * r + 1) d); lia.
Qed.

Lemma round_after_one_shift q l :
  (0 ≤ q)%Z →
  let rec := shr_1 (shr_record_of_loc q l) in
  (2 * round_nearest_even (shr_m rec) (loc_of_shr_record rec) ≤ q + 1)%Z.
Proof.
  intros Hq rec.
  destruct (shr_1_fields (shr_record_of_loc q l)) as (Hm & Hr & Hs).
  { by rewrite shr_m_of_loc. }
  rewrite shr_m_of_loc in Hm, Hr. fold rec in Hm, Hr, Hs.
  pose proof (Z.div2_odd q) as Hdm. rewrite Z.div2_div in Hdm.
  destruct rec as [m r s]. simpl in *. subst m r.
  destruct (Z.odd q); simpl Z.b2z in Hdm.
  - destruct s; simpl round_nearest_even; [lia|]. destruct (Z.even (q / 2)); lia.
  - destruct s; simpl round_nearest_even; lia.
Qed.

(** The mantissa and the exponent that [binary_round_aux] gives to the
    quotient [q] of two full mantissas, with remainder [r] by [d]: the
    result exceeds the exact quotient by at most one part in [2 ^ 53]. *)
Lemma binary_round_aux_quotient s q d r e :
  (2 ^ 52 ≤ q < 2 ^ 54)%Z → (0 ≤ r < d)%Z → (-1000 ≤ e ≤ 900)%Z →
  ∃ m e', binary_round_aux Number.prec Number.emax s q e (new_location d r)
          = S754_finite s m e'
          ∧ digits m = 53%Z ∧ (e ≤ e' ≤ e + 2)%Z
          ∧ (Zpos m * 2 ^ (e' - e) * d * 2 ^ 53 ≤ (q * d + r) * (2 ^ 53 + 1))%Z.
Proof.
  intros Hq Hr He. unfold binary_round_aux.
  rewrite shr_fexp_iter. cbv zeta.
  set (n1 := Z.to_nat (fexp Number.prec Number.emax (Zdigits2 q + e) - e)).
  set (rec := Nat.iter n1 shr_1 (shr_record_of_loc q (new_location d r))).
  set (mr := round_nearest_even (shr_m rec) (loc_of_shr_record rec)).
  assert (∃ C, C = 2 ^ 52 ∧ 0 < C)%Z as (C & HC & HC0) by (by exists (2 ^ 52)%Z).
  assert (2 ^ 53 = 2 * C ∧ 2 ^ 54 = 4 * C)%Z as [H53 H54] by (by subst C).
  assert ((2 ^ 52 ≤ mr ≤ 2 ^ 53)%Z
          ∧ (e ≤ e + Z.of_nat n1 ≤ e + 1)%Z
          ∧ (mr * 2 ^ Z.of_nat n1 * d * 2 ^ 53 ≤ (q * d + r) * (2 ^ 53 + 1))%Z)
    as (Hmr & He1 & Hval).
  { rewrite <-HC, H53 in *. rewrite H54 in Hq.
    destruct (Z.lt_ge_cases q (2 * C)) as [Hlt|Hge].
    - assert (n1 = 0%nat) as Hn1.
      { unfold n1. rewrite (Zdigits2_between q 52) by (rewrite <-?HC; simpl; lia).
        rewrite fexp_normal by lia. lia. }
      unfold mr, rec. rewrite Hn1. simpl Nat.iter.
      rewrite shr_m_of_loc, loc_of_shr_record_of_loc.
      pose proof (round_nearest_even_bounds q (new_location d r)) as Hb.
      pose proof (round_new_location q d r Hr) as Hv.
      revert Hv Hb. generalize (round_nearest_even q (new_location d r)).
      intros x Hv Hb.
      split; [lia|]. split; [simpl; lia|]. simpl (2 ^ Z.of_nat 0)%Z. nia.
    - assert (n1 = 1%nat) as Hn1.
      { unfold n1. rewrite (Zdigits2_between q 53) by (rewrite <-?HC; simpl; lia).
        rewrite fexp_normal by lia. lia. }
      unfold mr, rec. rewrite Hn1. simpl Nat.iter.
      pose proof (round_after_one_shift q (new_location d r) ltac:(lia)) as Hv.
      cbv zeta in Hv.
      destruct (shr_1_fields (shr_record_of_loc q (new_location d r))) as (Hm & _).
      { rewrite shr_m_of_loc. lia. }
      rewrite shr_m_of_loc in Hm.
      set (rec1 := shr_1 (shr_record_of_loc q (new_location d r))) in *.
      pose proof (round_nearest_even_bounds (shr_m rec1) (loc_of_shr_record rec1)) as Hb.
      revert Hv Hb. generalize (round_nearest_even (shr_m rec1) (loc_of_shr_record rec1)).
      rewrite Hm. intros x Hv Hb.
      pose proof (Z.div_mod q 2 ltac:(lia)) as Hdm.
      pose proof (Z.mod_pos_bound q 2 ltac:(lia)) as Hmod.
      split; [lia|]. split; [simpl; lia|]. change (2 ^ Z.of_nat 1)%Z with 2%Z. nia. }
  clearbody mr. clear rec.
  set (e1 := (e + Z.of_nat n1)%Z) in *.
  destruct (Z.eqb_spec mr (2 ^ 53)) as [Heq|Hne].
  - rewrite Heq. rewrite (shr_fexp_nat (2 ^ 53) e1 1).
    2:{ change (Zdigits2 (2 ^ 53)) with 54%Z. rewrite fexp_normal by lia. lia. }
    change (shr_m (Nat.iter 1 shr_1 (Build_shr_record (2 ^ 53) false false)))
      with (Zpos (2 ^ 52)).
    cbv beta iota.
    destruct (Z.leb_spec (e1 + Z.of_nat 1) (Number.emax - Number.prec)) as [|Hgt].
    + eexists _, _. split; [done|]. split; [done|]. split; [simpl; lia|].
      replace (e1 + Z.of_nat 1 - e)%Z with (Z.of_nat n1 + 1)%Z by (unfold e1; simpl; lia).
      rewrite Z.pow_add_r by lia. rewrite Heq in Hval.
      change (Zpos (2 ^ 52) * (2 ^ Z.of_nat n1 * 2 ^ 1))%Z
        with (2 ^ 52 * (2 ^ Z.of_nat n1 * 2))%Z.
      change (2 ^ 53)%Z with (2 ^ 52 * 2)%Z in Hval at 1. lia.
    + unfold Number.emax, Number.prec in Hgt. simpl in Hgt. lia.
  - assert (2 ^ 52 ≤ mr < 2 ^ 53)%Z as Hmr' by lia.
    destruct mr as [|mp|mp] eqn:Hmp; [lia| |lia].
    assert (digits mp = 53%Z) as Hdm by (apply digits_unique; simpl; lia).
    rewrite (shr_fexp_nat (Zpos mp) e1 0).
    2:{ simpl Zdigits2. change (Zpos (digits2_pos mp)) with (digits mp).
        rewrite Hdm, fexp_normal by lia. simpl. lia. }
    simpl Nat.iter. simpl shr_m. cbv beta iota.
    destruct (Z.leb_spec (e1 + Z.of_nat 0) (Number.emax - Number.prec)) as [|Hgt].
    + eexists _, _. split; [done|]. split; [done|]. split; [simpl; lia|].
      replace (e1 + Z.of_nat 0 - e)%Z with (Z.of_nat n1) by (unfold e1; simpl; lia).
      done.
    + unfold Number.emax, Number.prec in Hgt. simpl in Hgt. lia.
Qed.

(** The quotient of two positive safe integers is a positive number with
    a full mantissa that exceeds the exact quotient by at most one part in
    [2 ^ 53]. *)
Lemma div_accurate a b :
  (0 < a)%Z → (0 < b)%Z → safe_integer a → safe_integer b →
  ∃ m e, Number.div (Number.of_Z a) (Number.of_Z b) = S754_finite false m e
         ∧ digits m = 53%Z ∧ (-105 ≤ e ≤ 1)%Z
         ∧ (Zpos m * 2 ^ (e + 400) * b * 2 ^ 53 ≤ a * 2 ^ 400 * (2 ^ 53 + 1))%Z.
Proof.
  intros Ha0 Hb0 Ha Hb.
  destruct (of_Z_nonzero a ltac:(lia) Ha) as (ma & ea & -> & Hea & Hva & Hda & _).
  destruct (of_Z_nonzero b ltac:(lia) Hb) as (mb & eb & -> & Heb & Hvb & Hdb & _).
  replace (a <? 0)%Z with false in * by (symmetry; apply Z.ltb_ge; lia).
  replace (b <? 0)%Z with false in * by (symmetry; apply Z.ltb_ge; lia).
  simpl cond_Zopp in Hva, Hvb.
  unfold Number.div, SFdiv, SFdiv_core_binary. simpl Zdigits2.
  change (Zpos (digits2_pos ma)) with (digits ma).
  change (Zpos (digits2_pos mb)) with (digits mb).
  rewrite Hda, Hdb, fexp_normal by lia.
  replace (Z.min (53 + ea - (53 + eb) - 53) (ea - eb)) with (ea - eb - 53)%Z by lia.
  replace (ea - eb - (ea - eb - 53))%Z with 53%Z by lia.
  cbv beta iota. rewrite Z.shiftl_mul_pow2 by lia.
  pose proof (digits_bounds ma) as Hma. rewrite Hda in Hma.
  pose proof (digits_bounds mb) as Hmb. rewrite Hdb in Hmb.
  change (2 ^ (53 - 1))%Z with (2 ^ 52)%Z in *.
  assert (2 ^ 52 ≤ Zpos ma * 2 ^ 53 / Zpos mb < 2 ^ 54)%Z as Hq.
  { split.
    - apply Z.div_le_lower_bound; [done|].
      change (2 ^ 53)%Z with (2 * 2 ^ 52)%Z in *. nia.
    - apply Z.div_lt_upper_bound; [done|].
      change (2 ^ 54)%Z with (2 ^ 53 * 2)%Z. change (2 ^ 53)%Z with (2 * 2 ^ 52)%Z in *. nia. }
  pose proof (Z.div_mod (Zpos ma * 2 ^ 53) (Zpos mb) ltac:(done)) as Hdm.
  pose proof (Z.mod_pos_bound (Zpos ma * 2 ^ 53) (Zpos mb) ltac:(done)) as Hmod.
  unfold Z.div in Hq, Hdm. unfold Z.modulo in Hdm, Hmod.
  destruct (Z.div_eucl (Zpos ma * 2 ^ 53) (Zpos mb)) as [q r].
  simpl xorb.
  destruct (binary_round_aux_quotient false q (Zpos mb) r (ea - eb - 53) Hq Hmod)
    as (m & e & -> & Hd & He & Hval); [lia|].
  exists m, e. split; [done|]. split; [done|]. split; [lia|].
  replace (q * Zpos mb + r)%Z with (Zpos ma * 2 ^ 53)%Z in Hval by lia.
  rewrite Hva, Hvb in Hval.
  (* scale the inequality on mantissas back to [a] and [b] *)
  set (L := (Zpos m * 2 ^ (e - (ea - eb - 53)))%Z) in *.
  assert (Zpos m * 2 ^ (e + 400) = L * 2 ^ (ea - eb - 53 + 400))%Z as ->.
  { unfold L. rewrite <-Z.mul_assoc, <-Z.pow_add_r by lia. do 2 f_equal. lia. }
  assert (2 ^ (ea - eb - 53 + 400) * 2 ^ (- ea) * 2 ^ 53 = 2 ^ 400 * 2 ^ (- eb))%Z as Hpow.
  { rewrite <-!Z.pow_add_r by lia. f_equal. lia. }
  assert (0 < 2 ^ (- ea))%Z as Hpa by (apply Z.pow_pos_nonneg; lia).
  assert (0 < 2 ^ (- eb))%Z as Hpb by (apply Z.pow_pos_nonneg; lia).
  assert (0 < 2 ^ (ea - eb - 53 + 400))%Z as Hpe by (apply Z.pow_pos_nonneg; lia).
  apply (Z.mul_le_mono_pos_r _ _ (2 ^ (- eb))); [lia|].
  transitivity (2 ^ (ea - eb - 53 + 400) * (L * (b * 2 ^ (- eb)) * 2 ^ 53))%Z.
  { apply Z.eq_le_incl. ring. }
  transitivity (2 ^ (ea - eb - 53 + 400) * (a * 2 ^ (- ea) * 2 ^ 53 * (2 ^ 53 + 1)))%Z.
  { apply Z.mul_le_mono_nonneg_l; [lia|done]. }
  replace (2 ^ (ea - eb - 53 + 400) * (a * 2 ^ (- ea) * 2 ^ 53 * (2 ^ 53 + 1)))%Z
    with (a * (2 ^ (ea - eb - 53 + 400) * 2 ^ (- ea) * 2 ^ 53) * (2 ^ 53 + 1))%Z by ring.
  rewrite Hpow. apply Z.eq_le_incl. ring.
Qed.

(** ** The level band force *)

Lemma narrow_safe z : (Z.abs z < 2 ^ 52)%Z → safe_integer z.
Proof. unfold safe_integer. lia. Qed.

Lemma lower_of_Z m l :
  safe_integer m → safe_integer l →
  lower (Number.of_Z m) (Number.of_Z l) = Number.of_Z (Z.min m l).
Proof.
  intros Hm Hl. unfold lower. rewrite ltb_of_Z by done.
  destruct (Z.ltb_spec l m); f_equal; lia.
Qed.

Lemma upper_of_Z m l :
  safe_integer m → safe_integer l →
  upper (Number.of_Z m) (Number.of_Z l) = Number.of_Z (Z.max m l).
Proof.
  intros Hm Hl. unfold upper. rewrite ltb_of_Z by done.
  destruct (Z.ltb_spec m l); f_equal; lia.
Qed.

Lemma lower_Infinity l :
  safe_integer l → lower Number.Infinity (Number.of_Z l) = Number.of_Z l.
Proof.
  intros Hl. destruct l as [|p|p]; by rewrite ?of_Z_pos, ?of_Z_neg by done.
Qed.

Lemma upper_Infinity l :
  safe_integer l → upper (Number.neg Number.Infinity) (Number.of_Z l) = Number.of_Z l.
Proof.
  intros Hl. destruct l as [|p|p]; by rewrite ?of_Z_pos, ?of_Z_neg by done.
Qed.

Lemma fold_lower ls : ∀ m,
  safe_integer m → (∀ z, z ∈ ls → safe_integer z) →
  ∃ m', fold_left (λ acc z, lower acc (Number.of_Z z)) ls (Number.of_Z m) = Number.of_Z m'
        ∧ (m' ≤ m)%Z ∧ (∀ z, z ∈ ls → (m' ≤ z)%Z) ∧ (m' = m ∨ m' ∈ ls).
Proof.
  induction ls as [|l ls IH]; intros m Hm Hls; simpl.
  - exists m. split; [done|]. split; [lia|]. split; [|by left].
    intros z Hz. by apply elem_of_nil in Hz.
  - assert (safe_integer l) as Hl by (apply Hls; left).
    rewrite lower_of_Z by done.
    destruct (IH (Z.min m l)) as (m' & -> & Hle & Hall & Hin).
    { destruct (Z.min_spec m l) as [[_ ->]|[_ ->]]; done. }
    { intros z Hz. apply Hls. by right. }
    exists m'. split; [done|]. split; [lia|]. split.
    + intros z [->|Hz]%elem_of_cons; [lia|auto].
    + destruct Hin as [->|Hin]; [|right; by right].
      destruct (Z.min_spec m l) as [[_ ->]|[_ ->]]; [by left|right; left].
Qed.

Lemma fold_upper ls : ∀ m,
  safe_integer m → (∀ z, z ∈ ls → safe_integer z) →
  ∃ m', fold_left (λ acc z, upper acc (Number.of_Z z)) ls (Number.of_Z m) = Number.of_Z m'
        ∧ (m ≤ m')%Z ∧ (∀ z, z ∈ ls → (z ≤ m')%Z) ∧ (m' = m ∨ m' ∈ ls).
Proof.
  induction ls as [|l ls IH]; intros m Hm Hls; simpl.
  - exists m. split; [done|]. split; [lia|]. split; [|by left].
    intros z Hz. by apply elem_of_nil in Hz.
  - assert (safe_integer l) as Hl by (apply Hls; left).
    rewrite upper_of_Z by done.
    destruct (IH (Z.max m l)) as (m' & -> & Hle & Hall & Hin).
    { destruct (Z.max_spec m l) as [[_ ->]|[_ ->]]; done. }
    { intros z Hz. apply Hls. by right. }
    exists m'. split; [done|]. split; [lia|]. split.
    + intros z [->|Hz]%elem_of_cons; [lia|auto].
    + destruct Hin as [->|Hin]; [|right; by right].
      destruct (Z.max_spec m l) as [[_ ->]|[_ ->]]; [right; left|by left].
Qed.

Lemma fold_bounds_step ns : ∀ acc,
  fold_left bounds_step ns acc =
    (fold_left (λ acc z, lower acc (Number.of_Z z)) (levels_of ns) (fst acc),
     fold_left (λ acc z, upper acc (Number.of_Z z)) (levels_of ns) (snd acc)).
Proof.
  induction ns as [|n ns IH]; intros [mn mx]; simpl; [done|].
  by rewrite IH.
Qed.

(** On a graph with nodes whose levels are safe, the memo holds the least
    and the greatest level. *)
Lemma minmaxLevel_bounds ns :
  ns ≠ [] → safe_levels ns →
  ∃ mn mx, minmaxLevel (Some ns) = (Number.of_Z mn, Number.of_Z mx)
           ∧ mn ∈ levels_of ns ∧ mx ∈ levels_of ns
           ∧ ∀ z, z ∈ levels_of ns → (mn ≤ z ≤ mx)%Z.
Proof.
  destruct ns as [|n ns]; [done|]. intros _ Hsafe.
  assert (∀ z, z ∈ levels_of (n :: ns) → safe_integer z) as Hs.
  { intros z Hz. by apply narrow_safe, Hsafe. }
  assert (safe_integer (level n)) as Hn by (apply Hs; left).
  assert (∀ z, z ∈ levels_of ns → safe_integer z) as Hs' by (intros z Hz; apply Hs; by right).
  unfold minmaxLevel. rewrite fold_bounds_step. simpl.
  rewrite lower_Infinity, upper_Infinity by done.
  destruct (fold_lower (levels_of ns) (level n) Hn Hs') as (mn & -> & Hmn & Hmn_all & Hmn_in).
  destruct (fold_upper (levels_of ns) (level n) Hn Hs') as (mx & -> & Hmx & Hmx_all & Hmx_in).
  assert (mn ∈ levels_of (n :: ns)) as Hmn_in'.
  { destruct Hmn_in as [->|?]; [left|by right]. }
  assert (mx ∈ levels_of (n :: ns)) as Hmx_in'.
  { destruct Hmx_in as [->|?]; [left|by right]. }
  exists mn, mx. split; [|split; [done|split; [done|]]].
  - unfold finite_or_zero. by rewrite !isFinite_of_Z by auto.
  - intros z [->|Hz]%elem_of_cons; [lia|].
    specialize (Hmn_all z Hz). specialize (Hmx_all z Hz). lia.
Qed.

Lemma level_count_of_Z mn mx :
  (Z.abs mn < 2 ^ 52)%Z → (Z.abs mx < 2 ^ 52)%Z → (mn ≤ mx)%Z →
  level_count (Number.of_Z mn) (Number.of_Z mx) = Number.of_Z (mx - mn + 1).
Proof.
  intros Hmn Hmx Hle. unfold level_count.
  rewrite sub_of_Z, add_of_Z by (unfold safe_integer; lia).
  unfold Number.or_else. rewrite falsy_of_Z by (unfold safe_integer; lia).
  by destruct (Z.eqb_spec (mx - mn + 1) 0); [lia|].
Qed.

Lemma height_less_padding h :
  (Z.abs h < 2 ^ 52)%Z →
  Number.sub (Number.of_Z h) padding = Number.of_Z (h - 48).
Proof. intros Hh. unfold padding. apply sub_of_Z; unfold safe_integer; lia. Qed.

Lemma innerHeight_of_Z h :
  (Z.abs h < 2 ^ 52)%Z → innerHeight h = Number.of_Z (Z.max 1 (h - 96)).
Proof.
  intros Hh. unfold innerHeight.
  change (Number.mul padding (Number.of_Z 2)) with (Number.of_Z 96).
  rewrite sub_of_Z by (unfold safe_integer; lia). apply max_of_Z; unfold safe_integer; lia.
Qed.

Lemma seqZ_of_nat_S m k :
  seqZ m (Z.of_nat (S k)) = m :: seqZ (Z.succ m) (Z.of_nat k).
Proof. rewrite seqZ_cons by lia. do 2 f_equal. lia. Qed.

Lemma Sorted_seqZ_nat k : ∀ m, Sorted Z.le (seqZ m (Z.of_nat k)).
Proof.
  induction k as [|k IH]; intros m.
  - rewrite seqZ_nil by done. constructor.
  - rewrite seqZ_of_nat_S. constructor; [apply IH|].
    destruct k as [|k].
    + rewrite seqZ_nil by done. constructor.
    + rewrite seqZ_of_nat_S. constructor. lia.
Qed.

Lemma rank_of_seqZ_nat k : ∀ m lvl,
  (m ≤ lvl < m + Z.of_nat k)%Z →
  BandSpec.rank_of lvl (seqZ m (Z.of_nat k)) = Some (lvl - m)%Z.
Proof.
  induction k as [|k IH]; intros m lvl Hr; [lia|].
  rewrite seqZ_of_nat_S. simpl.
  destruct (Z.eqb_spec m lvl) as [->|Hne].
  - f_equal. lia.
  - rewrite IH by lia. simpl. f_equal. lia.
Qed.

(** With contiguous levels the sorted distinct levels are the whole range
    from the least to the greatest. *)
Lemma distinct_levels_contiguous ns mn mx :
  contiguous_levels ns → mn ∈ levels_of ns → mx ∈ levels_of ns →
  (∀ z, z ∈ levels_of ns → (mn ≤ z ≤ mx)%Z) →
  BandSpec.distinct_levels ns = seqZ mn (mx - mn + 1).
Proof.
  intros Hcont Hmn Hmx Hall.
  pose proof (Hall mn Hmn) as Hord.
  unfold BandSpec.distinct_levels. fold (levels_of ns).
  apply (Sorted_unique Z.le).
  - apply Sorted_merge_sort. apply _.
  - replace (mx - mn + 1)%Z with (Z.of_nat (Z.to_nat (mx - mn + 1))) by lia.
    apply Sorted_seqZ_nat.
  - rewrite merge_sort_Permutation.
    apply NoDup_Permutation; [apply NoDup_remove_dups|apply NoDup_seqZ|].
    intros z. rewrite elem_of_remove_dups, elem_of_seqZ. split.
    + intros Hz. specialize (Hall z Hz). lia.
    + intros Hz. apply (Hcont mn mx); [done|done|lia].
Qed.

(** With contiguous safe levels and a viewport taller than twice the
    padding, the allocation by sorted distinct levels gives each level
    present the target that the band force computes. *)
Lemma band_y_contiguous h ns lvl :
  (96 < h < 2 ^ 52)%Z → safe_levels ns → contiguous_levels ns →
  lvl ∈ levels_of ns →
  BandSpec.band_y h ns lvl = band_target true h (Some ns) lvl.
Proof.
  intros Hh Hsafe Hcont Hlvl.
  assert (ns ≠ []) as Hne.
  { intros ->. by apply elem_of_nil in Hlvl. }
  destruct (minmaxLevel_bounds ns Hne Hsafe) as (mn & mx & Hmm & Hmn & Hmx & Hall).
  pose proof (Hall lvl Hlvl) as Hr.
  pose proof (Hsafe mn Hmn) as Hsmn. pose proof (Hsafe mx Hmx) as Hsmx.
  pose proof (Hsafe lvl Hlvl) as Hslvl.
  unfold band_target, levelY_effect. simpl negb. simpl orb.
  destruct (Z.eqb_spec h 0) as [|_]; [lia|]. rewrite Hmm. simpl.
  unfold BandSpec.band_y, BandSpec.slice, BandSpec.band_count.
  rewrite (distinct_levels_contiguous ns mn mx) by done.
  replace (mx - mn + 1)%Z with (Z.of_nat (Z.to_nat (mx - mn + 1))) by lia.
  rewrite rank_of_seqZ_nat by lia. rewrite length_seqZ, Nat2Z.id.
  unfold yFor, spacing.
  rewrite height_less_padding, innerHeight_of_Z, level_count_of_Z by lia.
  rewrite sub_of_Z by (unfold safe_integer; lia).
  replace (Z.max 1 (Z.of_nat (Z.to_nat (mx - mn + 1)))) with (mx - mn + 1)%Z by lia.
  replace (Z.max 1 (h - 96)) with (h - 2 * 48)%Z by lia.
  done.
Qed.

Lemma sub_zero_of_Z a s :
  safe_integer a → Number.sub (Number.of_Z a) (S754_zero s) = Number.of_Z a.
Proof.
  intros Ha. destruct a as [|p|p]; rewrite ?of_Z_pos, ?of_Z_neg by done; [|done..].
  by destruct s.
Qed.

(** The least level is pulled to the height less the padding. *)
Lemma yFor_lowest h mn mx :
  (Z.abs h < 2 ^ 52)%Z → (Z.abs mn < 2 ^ 52)%Z → (Z.abs mx < 2 ^ 52)%Z → (mn ≤ mx)%Z →
  yFor h (Number.of_Z mn) (Number.of_Z mx) (Number.of_Z mn) = Number.of_Z (h - 48).
Proof.
  intros Hh Hmn Hmx Hle. unfold yFor, spacing.
  rewrite height_less_padding, innerHeight_of_Z, level_count_of_Z by done.
  rewrite sub_of_Z, Z.sub_diag by (unfold safe_integer; lia).
  destruct (div_accurate (Z.max 1 (h - 96)) (mx - mn + 1)) as (ms & es & -> & _);
    [lia|lia|unfold safe_integer; lia|unfold safe_integer; lia|].
  apply sub_zero_of_Z. unfold safe_integer. lia.
Qed.

(** With safe levels and a safe height the four integers of [yFor] are
    exact: only the quotient, the product and the last difference round. *)
Lemma yFor_of_Z h mn mx lvl :
  (Z.abs h < 2 ^ 52)%Z → (Z.abs mn < 2 ^ 52)%Z → (Z.abs mx < 2 ^ 52)%Z →
  (Z.abs lvl < 2 ^ 52)%Z → (mn ≤ mx)%Z →
  yFor h (Number.of_Z mn) (Number.of_Z mx) (Number.of_Z lvl)
  = Number.sub (Number.of_Z (h - 48))
      (Number.mul (Number.of_Z (lvl - mn))
         (Number.div (Number.of_Z (Z.max 1 (h - 96))) (Number.of_Z (mx - mn + 1)))).
Proof.
  intros Hh Hmn Hmx Hlvl Hle. unfold yFor, spacing.
  rewrite height_less_padding, innerHeight_of_Z, level_count_of_Z by done.
  by rewrite sub_of_Z by (unfold safe_integer; lia).
Qed.

(** A higher level is never pulled nearer to the bottom edge than a lower
    one: the rounded product grows with the level, and the rounded
    difference falls as the product grows. *)
Lemma yFor_monotone h mn mx l1 l2 :
  (Z.abs h < 2 ^ 52)%Z → (Z.abs mn < 2 ^ 52)%Z → (Z.abs mx < 2 ^ 52)%Z →
  (mn ≤ mx)%Z → (mn ≤ l1 ≤ l2)%Z → (Z.abs l2 < 2 ^ 52)%Z →
  Number.leb (yFor h (Number.of_Z mn) (Number.of_Z mx) (Number.of_Z l2))
             (yFor h (Number.of_Z mn) (Number.of_Z mx) (Number.of_Z l1)) = true.
Proof.
  intros Hh Hmn Hmx Hle Hl Hl2.
  rewrite !yFor_of_Z by (done || lia).
  destruct (div_accurate (Z.max 1 (h - 96)) (mx - mn + 1)) as (ms & es & -> & Hds & Hes & _);
    [lia|lia|unfold safe_integer; lia|unfold safe_integer; lia|].
  destruct (mul_scaled (l1 - mn) ms es) as [Hr1 Hs1]; [lia|unfold safe_integer; lia|done|lia|].
  destruct (mul_scaled (l2 - mn) ms es) as [Hr2 Hs2]; [lia|unfold safe_integer; lia|done|lia|].
  destruct (sub_scaled (h - 48) _ ltac:(unfold safe_integer; lia) Hr1) as [Hf1 Hv1].
  destruct (sub_scaled (h - 48) _ ltac:(unfold safe_integer; lia) Hr2) as [Hf2 Hv2].
  unfold Number.leb, SFleb. rewrite compare_regular by done.
  rewrite Hv1, Hv2, Hs1, Hs2.
  assert (0 < Zpos ms * 2 ^ (es + 400))%Z as HS.
  { apply Z.mul_pos_pos; [done|]. apply Z.pow_pos_nonneg; lia. }
  pose proof (round_int_mono ((l1 - mn) * (Zpos ms * 2 ^ (es + 400)))
                ((l2 - mn) * (Zpos ms * 2 ^ (es + 400))) ltac:(nia)) as Hprod.
  pose proof (sround_mono _ _ (proj1 (Z.sub_le_mono_l _ _ ((h - 48) * 2 ^ 400)) Hprod)) as Hdiff.
  by destruct (Z.compare_spec
                 (sround ((h - 48) * 2 ^ 400
                          - round_int ((l2 - mn) * (Zpos ms * 2 ^ (es + 400)))))
                 (sround ((h - 48) * 2 ^ 400
                          - round_int ((l1 - mn) * (Zpos ms * 2 ^ (es + 400)))))) as [|?|?];
    [..|lia].
Qed.

(** The target of a level of the range is at least
    [h - 48 - max 1 (h - 96)], the top of the band that ends at [h - 48]:
    the rounded quotient exceeds the exact one by so little that the
    rounded product stays within the inner height. *)
Lemma yFor_within h mn mx l :
  (Z.abs h < 2 ^ 52)%Z → (Z.abs mn < 2 ^ 52)%Z → (Z.abs mx < 2 ^ 52)%Z →
  (mn ≤ l ≤ mx)%Z →
  Number.leb (Number.of_Z (h - 48 - Z.max 1 (h - 96)))
             (yFor h (Number.of_Z mn) (Number.of_Z mx) (Number.of_Z l)) = true.
Proof.
  intros Hh Hmn Hmx Hl.
  rewrite yFor_of_Z by (done || lia).
  set (a := Z.max 1 (h - 96)). set (b := (mx - mn + 1)%Z). set (k := (l - mn)%Z).
  assert (0 < a < 2 ^ 53)%Z as Ha by (unfold a; lia).
  assert (0 < b < 2 ^ 53)%Z as Hb by (unfold b; lia).
  assert (0 ≤ k ≤ b - 1)%Z as Hk by (unfold k, b; lia).
  destruct (div_accurate a b) as (ms & es & -> & Hds & Hes & Hacc);
    [lia|lia|unfold safe_integer; lia|unfold safe_integer; lia|].
  destruct (mul_scaled k ms es) as [Hr Hs]; [lia|unfold safe_integer; lia|done|lia|].
  destruct (sub_scaled (h - 48) _ ltac:(unfold safe_integer; lia) Hr) as [Hf Hv].
  destruct (scaled_of_Z (h - 48 - a)) as [Hrl Hsl]; [unfold safe_integer, a; lia|].
  assert (regular 400 (Number.of_Z (h - 48 - a))) as Hrl'.
  { eapply regular_weaken; [|done]. lia. }
  unfold Number.leb, SFleb. rewrite compare_regular by done.
  rewrite Hv, Hs, Hsl.
  set (S := (Zpos ms * 2 ^ (es + 400))%Z) in *.
  assert (0 < S)%Z as HS.
  { apply Z.mul_pos_pos; [done|]. apply Z.pow_pos_nonneg; lia. }
  assert (0 < 2 ^ 400)%Z as H400 by (apply Z.pow_pos_nonneg; lia).
  assert (k * S ≤ a * 2 ^ 400)%Z as Hprod.
  { revert Hacc Ha Hb. generalize (2 ^ 53)%Z. generalize (2 ^ 400)%Z H400.
    intros A HA T Hacc Ha Hb.
    assert (k * (T + 1) ≤ b * T)%Z as Hk' by nia.
    assert (k * (S * b * T) ≤ k * (a * A * (T + 1)))%Z as H1
      by (apply Z.mul_le_mono_nonneg_l; lia).
    assert (a * A * (k * (T + 1)) ≤ a * A * (b * T))%Z as H2
      by (apply Z.mul_le_mono_nonneg_l; nia).
    assert (k * S * (b * T) ≤ a * A * (b * T))%Z as H3 by lia.
    apply Z.mul_le_mono_pos_r in H3; [done|nia]. }
  assert (round_int (k * S) ≤ a * 2 ^ 400)%Z as Hround.
  { etrans; [apply (round_int_mono (k * S) (a * 2 ^ 400)); nia|].
    apply Z.eq_le_incl.
    destruct a as [|p|p] eqn:Hp; [lia| |lia].
    apply round_int_exact; [|lia]. apply safe_digits. unfold safe_integer. simpl. lia. }
  assert (sround ((h - 48 - a) * 2 ^ 400) = ((h - 48 - a) * 2 ^ 400)%Z) as Hexact.
  { rewrite <-Hsl. by apply sround_regular. }
  pose proof (sround_mono ((h - 48 - a) * 2 ^ 400) ((h - 48) * 2 ^ 400 - round_int (k * S))
                ltac:(lia)) as Hm.
  rewrite Hexact in Hm.
  by destruct (Z.compare_spec ((h - 48 - a) * 2 ^ 400)
                 (sround ((h - 48) * 2 ^ 400 - round_int (k * S)))) as [|?|?]; [..|lia].
Qed.

(** C2, as stated, fails: the band force does not look at the distinct
    levels.  It divides the height by the number of integers between the
    least and the greatest level.  With levels 0 and 2 and a viewport 396
    high, level 2 is pulled to y = 148; two equal slices of the 300 inner
    pixels would put it at y = 198.  Both values are exact in doubles. *)
Lemma band_force_not_by_distinct_levels :
  ∃ y y', band_target true 396 (Some gap_graph) 2 = Some y
          ∧ BandSpec.band_y 396 gap_graph 2 = Some y'
          ∧ y = Number.of_Z 148 ∧ y' = Number.of_Z 198
          ∧ Number.ltb y y' = true.
Proof.
  do 2 eexists. split; [reflexivity|]. split; [reflexivity|].
  split; [vm_compute; reflexivity|]. split; vm_compute; reflexivity.
Qed.

(** C2, amended: for a viewport height other than 0 the band force pulls
    level [lvl] to
    [(h - 48) - (lvl - minLevel) * (max 1 (h - 96) / (maxLevel - minLevel + 1 || 1))],
    every operation being the one on doubles.  On a graph with nodes, when
    the levels and the height are integers below [2 ^ 52] in absolute value,
    [minLevel] and [maxLevel] are the least and the greatest level present
    and [h - 48], [lvl - minLevel], [max 1 (h - 96)] and
    [maxLevel - minLevel + 1] are exact, so that only the quotient, the
    product and the last difference round: every integer level of the range,
    present or not, gets an equal slice.  The least level sits at [h - 48],
    and a higher level is never nearer to the bottom edge than a lower one.
    When the levels present are contiguous and [h > 96] the target is the
    one of the allocation by sorted distinct levels.  With levels 0 and 1
    and height 400, level 0 is at 352 and level 1 at 200, so level 0 is
    nearer the bottom edge. *)
Theorem band_force_by_level_range :
  (∀ h ns,
     h ≠ 0%Z →
     ∃ f, levelY_effect true h (Some ns) = Some f
       ∧ (∀ lvl,
            f lvl =
              Number.sub (Number.sub (Number.of_Z h) (Number.of_Z 48))
                (Number.mul
                   (Number.sub (Number.of_Z lvl) (fst (minmaxLevel (Some ns))))
                   (Number.div
                      (Number.max (Number.of_Z 1)
                         (Number.sub (Number.of_Z h) (Number.of_Z 96)))
                      (Number.or_else
                         (Number.add
                            (Number.sub (snd (minmaxLevel (Some ns)))
                                        (fst (minmaxLevel (Some ns))))
                            (Number.of_Z 1))
                         (Number.of_Z 1)))))
       ∧ (ns ≠ [] → safe_levels ns → (Z.abs h < 2 ^ 52)%Z →
          ∃ mn mx,
            minmaxLevel (Some ns) = (Number.of_Z mn, Number.of_Z mx)
            ∧ mn ∈ levels_of ns ∧ mx ∈ levels_of ns
            ∧ (∀ z, z ∈ levels_of ns → (mn ≤ z ≤ mx)%Z)
            ∧ (∀ lvl, (Z.abs lvl < 2 ^ 52)%Z →
                 f lvl =
                   Number.sub (Number.of_Z (h - 48))
                     (Number.mul (Number.of_Z (lvl - mn))
                        (Number.div (Number.of_Z (Z.max 1 (h - 96)))
                                    (Number.of_Z (mx - mn + 1)))))
            ∧ f mn = Number.of_Z (h - 48)
            ∧ (∀ l1 l2, (mn ≤ l1 ≤ l2)%Z → (Z.abs l2 < 2 ^ 52)%Z →
                 Number.leb (f l2) (f l1) = true)
            ∧ ((96 < h)%Z → contiguous_levels ns →
               ∀ lvl, lvl ∈ levels_of ns →
                      BandSpec.band_y h ns lvl = Some (f lvl))))
  ∧ (∃ y0 y1, band_target true 400 (Some egg_graph) 0 = Some y0
              ∧ band_target true 400 (Some egg_graph) 1 = Some y1
              ∧ y0 = Number.of_Z 352 ∧ y1 = Number.of_Z 200
              ∧ Number.ltb (Number.sub (Number.of_Z 400) y0)
                           (Number.sub (Number.of_Z 400) y1) = true).
Proof.
  split.
  - intros h ns Hh.
    assert (levelY_effect true h (Some ns)
            = Some (λ lvl, yFor h (fst (minmaxLevel (Some ns)))
                             (snd (minmaxLevel (Some ns))) (Number.of_Z lvl))) as Hf.
    { unfold levelY_effect. simpl negb. simpl orb.
      by destruct (Z.eqb_spec h 0) as [|_]. }
    eexists. split; [exact Hf|]. split; [done|].
    intros Hne Hsafe Hsh.
    destruct (minmaxLevel_bounds ns Hne Hsafe) as (mn & mx & Hmm & Hmn & Hmx & Hall).
    pose proof (Hall mn Hmn) as Hord.
    pose proof (Hsafe mn Hmn) as Hsmn. pose proof (Hsafe mx Hmx) as Hsmx.
    exists mn, mx. rewrite Hmm. simpl fst. simpl snd.
    split; [done|]. split; [done|]. split; [done|]. split; [done|].
    split; [|split; [|split]].
    + intros lvl Hlvl. apply yFor_of_Z; (done || lia).
    + apply yFor_lowest; (done || lia).
    + intros l1 l2 Hl Hl2. apply yFor_monotone; (done || lia).
    + intros Hh' Hcont lvl Hlvl.
      rewrite (band_y_contiguous h ns lvl) by (done || lia).
      unfold band_target. rewrite Hf.
      change (Some (yFor h (fst (minmaxLevel (Some ns))) (snd (minmaxLevel (Some ns)))
                      (Number.of_Z lvl))
              = Some (yFor h (Number.of_Z mn) (Number.of_Z mx) (Number.of_Z lvl))).
      by rewrite Hmm.
  - do 2 eexists. split; [reflexivity|]. split; [reflexivity|].
    split; [vm_compute; reflexivity|]. split; vm_compute; reflexivity.
Qed.

Lemma band_force_by_level_range_witness :
  ∃ f, levelY_effect true 400 (Some egg_graph) = Some f
       ∧ f 0%Z = Number.of_Z 352
       ∧ Number.leb (f 1%Z) (f 0%Z) = true
       ∧ BandSpec.band_y 400 egg_graph 1 = Some (f 1%Z).
Proof.
  destruct band_force_by_level_range as [Hall _].
  destruct (Hall 400%Z egg_graph) as (f & Hf & _ & Hsafe); [done|].
  destruct Hsafe as (mn & mx & _ & Hmn & _ & Hleast & _ & Hlow & Hmono & Hspec).
  - done.
  - intros z Hz. apply elem_of_cons in Hz as [->|Hz]; [done|].
    apply elem_of_cons in Hz as [->|Hz]; [done|]. by apply elem_of_nil in Hz.
  - done.
  - assert (mn = 0%Z) as ->.
    { pose proof (Hleast 0%Z ltac:(left)) as H0.
      apply elem_of_cons in Hmn as [->|Hmn]; [done|].
      apply elem_of_cons in Hmn as [->|Hmn]; [simpl in H0; lia|]. by apply elem_of_nil in Hmn. }
    exists f. split; [exact Hf|]. split; [exact Hlow|].
    split; [apply Hmono; lia|].
    apply Hspec; [lia| |right; left].
    intros a b z Ha Hb Hz.
    assert (∀ x, x ∈ levels_of egg_graph → x = 0%Z ∨ x = 1%Z) as Hcases.
    { intros x Hx. apply elem_of_cons in Hx as [->|Hx]; [by left|].
      apply elem_of_cons in Hx as [->|Hx]; [by right|]. by apply elem_of_nil in Hx. }
    destruct (Hcases a Ha) as [-> | ->], (Hcases b Hb) as [-> | ->];
      assert (z = 0 ∨ z = 1)%Z as [-> | ->] by lia; first [left | right; left].
Defined.

(** ** Level colours *)

Lemma elem_of_fold_set_add xs : ∀ seen z,
  z ∈ fold_left set_add xs seen ↔ z ∈ seen ∨ z ∈ xs.
Proof.
  induction xs as [|x xs IH]; intros seen z; simpl.
  - rewrite elem_of_nil. tauto.
  - rewrite IH, elem_of_cons. unfold set_add. case_decide as Hx.
    + split; [tauto|]. intros [?|[->|?]]; auto.
    + rewrite elem_of_app, list_elem_of_singleton. tauto.
Qed.

Lemma NoDup_fold_set_add xs : ∀ seen, NoDup seen → NoDup (fold_left set_add xs seen).
Proof.
  induction xs as [|x xs IH]; intros seen Hseen; simpl; [done|].
  apply IH. unfold set_add. case_decide as Hx; [done|].
  apply NoDup_app. split; [done|]. split; [|apply NoDup_singleton].
  intros y Hy ->%list_elem_of_singleton. done.
Qed.

Lemma elem_of_array_from_set xs z : z ∈ array_from_set xs ↔ z ∈ xs.
Proof.
  unfold array_from_set. rewrite elem_of_fold_set_add, elem_of_nil. tauto.
Qed.

Lemma NoDup_array_from_set xs : NoDup (array_from_set xs).
Proof. apply NoDup_fold_set_add, NoDup_nil_2. Qed.

Lemma elem_of_sort_ascending xs z : z ∈ sort_ascending xs ↔ z ∈ xs.
Proof. unfold sort_ascending. by rewrite merge_sort_Permutation. Qed.

Lemma Sorted_sort_ascending xs : Sorted Z.le (sort_ascending xs).
Proof. apply Sorted_merge_sort. apply _. Qed.

Lemma NoDup_sort_ascending xs : NoDup xs → NoDup (sort_ascending xs).
Proof. unfold sort_ascending. by rewrite merge_sort_Permutation. Qed.

(** Sorting a sorted list changes nothing. *)
Lemma sort_ascending_sorted xs : Sorted Z.le xs → sort_ascending xs = xs.
Proof.
  intros Hs. apply (Sorted_unique Z.le); [apply Sorted_sort_ascending|done|].
  apply merge_sort_Permutation.
Qed.

(** A sorted list without repetition is strictly increasing. *)
Lemma Sorted_le_NoDup_lt xs : Sorted Z.le xs → NoDup xs → StronglySorted Z.lt xs.
Proof.
  intros Hs%Sorted_StronglySorted; [|apply _].
  induction Hs as [|x xs Hxs IH Hall]; intros Hnd; [constructor|].
  apply NoDup_cons in Hnd as [Hx Hnd]. constructor; [auto|].
  rewrite Forall_forall in *. intros y Hy. specialize (Hall y Hy).
  assert (x ≠ y) by (intros ->; done). lia.
Qed.

Lemma lookup_set_color palette m index lvl z :
  set_color palette m index lvl !! z =
    if decide (lvl = z)
    then palette_at palette (Z.rem (Z.of_nat index) (Z.of_nat (length palette)))
    else m !! z.
Proof.
  unfold set_color.
  destruct (palette_at palette _) as [c|]; case_decide as Hz; subst.
  - by rewrite lookup_insert_eq.
  - by rewrite lookup_insert_ne.
  - by rewrite lookup_delete_eq.
  - by rewrite lookup_delete_ne.
Qed.

Lemma lookup_assign_colors_other palette levels : ∀ index m z,
  z ∉ levels → assign_colors palette index levels m !! z = m !! z.
Proof.
  induction levels as [|lvl rest IH]; intros index m z Hz; simpl; [done|].
  apply not_elem_of_cons in Hz as [Hne Hz].
  rewrite IH by done. rewrite lookup_set_color. by rewrite decide_False.
Qed.

(** The entry of a level is the palette colour at its position, counted
    from the starting index. *)
Lemma lookup_assign_colors palette levels : ∀ index m i lvl,
  NoDup levels → levels !! i = Some lvl →
  assign_colors palette index levels m !! lvl =
    palette_at palette (Z.rem (Z.of_nat (index + i)) (Z.of_nat (length palette))).
Proof.
  induction levels as [|x rest IH]; intros index m i lvl Hnd Hi; [done|].
  apply NoDup_cons in Hnd as [Hx Hnd]. destruct i as [|i]; simpl in *.
  - injection Hi as ->. rewrite lookup_assign_colors_other by done.
    rewrite lookup_set_color, decide_True by done. by rewrite Nat.add_0_r.
  - rewrite (IH _ _ i lvl Hnd Hi). do 3 f_equal. lia.
Qed.

Lemma palette_at_rem palette (i : nat) :
  palette ≠ [] →
  palette_at palette (Z.rem (Z.of_nat i) (Z.of_nat (length palette)))
  = palette !! (i mod length palette)%nat.
Proof.
  intros Hne. assert (length palette ≠ 0%nat) by (by destruct palette).
  unfold palette_at. rewrite Z.rem_mod_nonneg by lia.
  rewrite <-Nat2Z.inj_mod. destruct (Z.ltb_spec (Z.of_nat (i mod length palette)) 0); [lia|].
  by rewrite Nat2Z.id.
Qed.

Lemma NoDup_LEVEL_PALETTE : NoDup LEVEL_PALETTE.
Proof. apply (bool_decide_unpack _). by vm_compute. Qed.

Lemma NoDup_canvas_levels ns : NoDup (canvas_levels ns).
Proof. apply NoDup_sort_ascending, NoDup_array_from_set. Qed.

Lemma elem_of_canvas_levels ns z : z ∈ canvas_levels (Some ns) ↔ z ∈ levels_of ns.
Proof.
  unfold canvas_levels. by rewrite elem_of_sort_ascending, elem_of_array_from_set.
Qed.

Lemma getLevelColor_at_rank ns i lvl :
  canvas_levels ns !! i = Some lvl →
  getLevelColor (levelColorMap ns) lvl = LEVEL_PALETTE !! (i mod 30)%nat
  ∧ is_Some (LEVEL_PALETTE !! (i mod 30)%nat).
Proof.
  intros Hi.
  assert (is_Some (LEVEL_PALETTE !! (i mod 30)%nat)) as Hsome.
  { apply lookup_lt_is_Some. change (length LEVEL_PALETTE) with 30%nat.
    apply Nat.mod_upper_bound. lia. }
  split; [|done]. unfold getLevelColor, color_or_fallback, levelColorMap.
  rewrite (lookup_assign_colors _ _ 0 ∅ i lvl (NoDup_canvas_levels ns) Hi).
  rewrite Nat.add_0_l, palette_at_rem by done.
  change (length LEVEL_PALETTE) with 30%nat. by destruct Hsome as [c ->].
Qed.

(** X1: the canvas colours a level by its rank among the sorted distinct
    levels of the graph, not by its value: the level at position [i] gets
    palette entry [i mod 30].  So every node of the graph has a colour, and
    in a graph with at most 30 distinct levels two nodes have the same
    colour only if they have the same level. *)
Theorem level_colour_by_rank ns :
  (∀ i lvl, canvas_levels (Some ns) !! i = Some lvl →
            getLevelColor (levelColorMap (Some ns)) lvl = LEVEL_PALETTE !! (i mod 30)%nat)
  ∧ (∀ n, n ∈ ns → is_Some (getLevelColor (levelColorMap (Some ns)) (level n)))
  ∧ ((length (canvas_levels (Some ns)) ≤ 30)%nat →
     ∀ n1 n2, n1 ∈ ns → n2 ∈ ns →
       getLevelColor (levelColorMap (Some ns)) (level n1)
       = getLevelColor (levelColorMap (Some ns)) (level n2) →
       level n1 = level n2).
Proof.
  split; [|split].
  - intros i lvl Hi. by apply getLevelColor_at_rank.
  - intros n Hn.
    assert (level n ∈ canvas_levels (Some ns)) as Hin.
    { apply elem_of_canvas_levels. by apply list_elem_of_fmap_2. }
    apply list_elem_of_lookup in Hin as [i Hi].
    destruct (getLevelColor_at_rank _ _ _ Hi) as [-> ?]. done.
  - intros Hlen n1 n2 Hn1 Hn2 Heq.
    assert (∀ n, n ∈ ns → ∃ i, canvas_levels (Some ns) !! i = Some (level n)) as Hrank.
    { intros n Hn. apply list_elem_of_lookup, elem_of_canvas_levels.
      by apply list_elem_of_fmap_2. }
    destruct (Hrank n1 Hn1) as [i1 Hi1]. destruct (Hrank n2 Hn2) as [i2 Hi2].
    destruct (getLevelColor_at_rank _ _ _ Hi1) as [H1 [c Hc]].
    destruct (getLevelColor_at_rank _ _ _ Hi2) as [H2 _].
    apply lookup_lt_Some in Hi1 as Hlt1. apply lookup_lt_Some in Hi2 as Hlt2.
    rewrite !Nat.mod_small in * by lia.
    rewrite H1, H2, Hc in Heq.
    assert (i1 = i2) as -> by (eapply NoDup_lookup; eauto using NoDup_LEVEL_PALETTE).
    congruence.
Qed.

Lemma level_colour_by_rank_witness :
  getLevelColor (levelColorMap (Some gap_graph)) 2 = Some "#10B981".
Proof.
  destruct (level_colour_by_rank gap_graph) as (Hrank & _ & _).
  apply (Hrank 1%nat 2%Z). reflexivity.
Defined.

(** X2: the [levels] list that App hands to the legend is strictly
    increasing and holds exactly the levels of the nodes of the index; it is
    empty when there is no index or the index has no node list. *)
Theorem app_levels_sorted_distinct indexData :
  StronglySorted Z.lt (app_levels indexData)
  ∧ (∀ z, z ∈ app_levels indexData ↔
          ∃ ns n, indexData ≫= nodes = Some ns ∧ n ∈ ns ∧ level n = z)
  ∧ (indexData ≫= nodes = None → app_levels indexData = []).
Proof.
  unfold app_levels. split; [|split].
  - apply Sorted_le_NoDup_lt; [apply Sorted_sort_ascending|].
    apply NoDup_sort_ascending, NoDup_array_from_set.
  - intros z. rewrite elem_of_sort_ascending, elem_of_array_from_set, list_elem_of_fmap.
    destruct (indexData ≫= nodes) as [ns|]; simpl.
    + split.
      * intros (n & -> & Hn). eauto.
      * intros (ns' & n & [= <-] & Hn & <-). eauto.
    + split.
      * intros (n & _ & Hn). by apply elem_of_nil in Hn.
      * intros (ns' & n & Hns & _). done.
  - intros ->. done.
Qed.

Lemma app_levels_sorted_distinct_witness :
  app_levels None = [] ∧ 2%Z ∈ app_levels (Some {| nodes := Some gap_graph |}).
Proof.
  destruct (app_levels_sorted_distinct None) as (_ & _ & Hnone).
  destruct (app_levels_sorted_distinct (Some {| nodes := Some gap_graph |}))
    as (_ & Hin & _).
  split; [by apply Hnone|]. apply Hin.
  exists gap_graph, {| id := "b"; label := None; description := None; level := 2 |}.
  split; [reflexivity|]. split; [|reflexivity]. right. left.
Defined.

Lemma app_levels_canvas_levels ns :
  app_levels (Some {| nodes := Some ns |}) = canvas_levels (Some ns).
Proof. reflexivity. Qed.

Lemma legend_palette_upper : toUpperCase <$> LEGEND_PALETTE = LEVEL_PALETTE.
Proof. reflexivity. Qed.

(** X3: the legend and the canvas give every level of the graph the same
    palette entry; the two palettes differ in one entry only, which the
    legend writes in lower case, so the two colours are equal up to letter
    case, and equal as strings unless the rank of the level is 21 modulo
    30. *)
Theorem legend_colour_agrees_with_canvas ns :
  ∀ i lvl, canvas_levels (Some ns) !! i = Some lvl →
    legend_getLevelColor
      (legend_levelColorMap (Some (app_levels (Some {| nodes := Some ns |})))) lvl
    = LEGEND_PALETTE !! (i mod 30)%nat
    ∧ toUpperCase <$>
        legend_getLevelColor
          (legend_levelColorMap (Some (app_levels (Some {| nodes := Some ns |})))) lvl
      = getLevelColor (levelColorMap (Some ns)) lvl
    ∧ ((i mod 30)%nat ≠ 21%nat →
       legend_getLevelColor
         (legend_levelColorMap (Some (app_levels (Some {| nodes := Some ns |})))) lvl
       = getLevelColor (levelColorMap (Some ns)) lvl).
Proof.
  intros i lvl Hi.
  destruct (getLevelColor_at_rank _ _ _ Hi) as [Hcanvas _].
  assert (legend_getLevelColor
      (legend_levelColorMap (Some (app_levels (Some {| nodes := Some ns |})))) lvl
    = LEGEND_PALETTE !! (i mod 30)%nat) as Hlegend.
  { unfold legend_getLevelColor, color_or_fallback, legend_levelColorMap.
    rewrite app_levels_canvas_levels.
    change (default [] (Some (canvas_levels (Some ns)))) with (canvas_levels (Some ns)).
    rewrite sort_ascending_sorted by apply Sorted_sort_ascending.
    rewrite (lookup_assign_colors _ _ 0 ∅ i lvl (NoDup_canvas_levels _) Hi).
    rewrite Nat.add_0_l, palette_at_rem by done.
    change (length LEGEND_PALETTE) with 30%nat.
    assert (is_Some (LEGEND_PALETTE !! (i mod 30)%nat)) as [c ->]; [|done].
    apply lookup_lt_is_Some. change (length LEGEND_PALETTE) with 30%nat.
    apply Nat.mod_upper_bound. lia. }
  split; [done|]. rewrite Hlegend, Hcanvas. split.
  - by rewrite <-legend_palette_upper, list_lookup_fmap.
  - assert (i mod 30 < 30)%nat as Hlt by (apply Nat.mod_upper_bound; lia).
    revert Hlt. generalize (i mod 30)%nat. intros j Hlt Hne.
    do 30 (destruct j as [|j]; [try done|]); lia.
Qed.

Lemma legend_colour_agrees_with_canvas_witness :
  legend_getLevelColor
    (legend_levelColorMap (Some (app_levels (Some {| nodes := Some gap_graph |})))) 2
  = Some "#10B981".
Proof.
  destruct (legend_colour_agrees_with_canvas gap_graph 1%nat 2%Z) as (H & _ & _);
    [reflexivity|]. exact H.
Defined.

(** ** Node styling *)

Lemma isHitNode_hasOverlay overlay n : isHitNode overlay n = true → hasOverlay overlay = true.
Proof.
  destruct overlay as [ov|]; simpl; [|done]. intros Hin%bool_decide_eq_true.
  destruct (Nat.eqb_spec (size (hitNodeIds ov)) 0) as [Hz|]; [|done].
  apply size_empty_inv in Hz. set_solver.
Qed.

Lemma isPathNode_hasOverlay overlay n : isPathNode overlay n = true → hasOverlay overlay = true.
Proof.
  destruct overlay as [ov|]; simpl; [|done]. intros Hin%bool_decide_eq_true.
  destruct (Nat.eqb_spec (size (pathNodeIds ov)) 0) as [Hz|].
  - apply size_empty_inv in Hz. set_solver.
  - by destruct (size (hitNodeIds ov) =? 0)%nat.
Qed.

(** X4: the style of a node depends only on whether it is a hit node or a
    path node; being a hit wins over being on a path.  A hit node glows and
    has radius 5 and the hit fill, a path node that is not a hit has radius 4
    and the path fill, every other node has radius 3 and its level colour,
    also under an overlay whose three sets are empty.  The label of a hit
    node is always drawn, that of another node only above zoom 4. *)
Theorem node_style_by_membership colors overlay n :
  (isHitNode overlay n = true →
     resolveNodeStyle colors overlay n =
       {| Style.fill := Some Style.HIT_FILL;
          Style.stroke := getLevelColor colors (level n);
          Style.lineWidth := 2; Style.glow := true; Style.r := 5 |})
  ∧ (isHitNode overlay n = false → isPathNode overlay n = true →
       resolveNodeStyle colors overlay n =
         {| Style.fill := Some Style.PATH_FILL;
            Style.stroke := getLevelColor colors (level n);
            Style.lineWidth := 2; Style.glow := false; Style.r := 4 |})
  ∧ (isHitNode overlay n = false → isPathNode overlay n = false →
       resolveNodeStyle colors overlay n =
         {| Style.fill := getLevelColor colors (level n);
            Style.stroke := Some "transparent";
            Style.lineWidth := 0; Style.glow := false; Style.r := 3 |})
  ∧ (∀ globalScale,
       label_drawn overlay n globalScale = true ↔
       isHitNode overlay n = true ∨ (4 < globalScale)%Q).
Proof.
  unfold resolveNodeStyle. split; [|split; [|split]].
  - intros Hhit. by rewrite (isHitNode_hasOverlay _ _ Hhit), Hhit.
  - intros Hhit Hpath. by rewrite (isPathNode_hasOverlay _ _ Hpath), Hhit, Hpath.
  - intros -> ->. by destruct (hasOverlay overlay).
  - intros globalScale. unfold label_drawn.
    destruct (isHitNode overlay n); simpl; [by split; auto|].
    rewrite negb_true_iff, <-not_true_iff_false, Qle_bool_iff.
    split.
    + intros Hn. right. by apply Qnot_le_lt.
    + intros [?|Hlt]; [done|]. by apply Qlt_not_le.
Qed.

Lemma node_style_by_membership_witness :
  Style.r (resolveNodeStyle (levelColorMap (Some egg_graph)) (Some egg_overlay) egg_node) = 5%Z
  ∧ Style.r (resolveNodeStyle (levelColorMap (Some egg_graph)) (Some egg_overlay) boil_node)
    = 4%Z
  ∧ Style.r (resolveNodeStyle (levelColorMap (Some egg_graph)) (Some emptyOverlay) egg_node)
    = 3%Z.
Proof.
  destruct (node_style_by_membership (levelColorMap (Some egg_graph))
              (Some egg_overlay) egg_node) as (H1 & _).
  destruct (node_style_by_membership (levelColorMap (Some egg_graph))
              (Some egg_overlay) boil_node) as (_ & H2 & _).
  destruct (node_style_by_membership (levelColorMap (Some egg_graph))
              (Some emptyOverlay) egg_node) as (_ & _ & H3 & _).
  rewrite H1, H2, H3 by reflexivity. done.
Defined.

(** ** Keys and signatures of names without the bar character *)

Lemma bar_free_app a b : bar_free (a ++ b) = bar_free a && bar_free b.
Proof.
  induction a as [|c a IH]; [done|].
  change (String c a ++ b) with (String c (a ++ b)). simpl.
  by rewrite IH, andb_assoc.
Qed.

(** Two strings that agree up to their first bar agree before it and after
    it. *)
Lemma bar_split_inj a b c d :
  bar_free a = true → bar_free c = true →
  a ++ String "|" b = c ++ String "|" d → a = c ∧ b = d.
Proof.
  revert c. induction a as [|x a IH]; intros [|y c] Ha Hc Heq.
  - by injection Heq as ->.
  - change (String y c ++ String "|" d) with (String y (c ++ String "|" d)) in Heq.
    injection Heq as <- _. done.
  - change (String x a ++ String "|" b) with (String x (a ++ String "|" b)) in Heq.
    injection Heq as -> _. done.
  - change (String x a ++ String "|" b) with (String x (a ++ String "|" b)) in Heq.
    change (String y c ++ String "|" d) with (String y (c ++ String "|" d)) in Heq.
    injection Heq as -> Heq. simpl in Ha, Hc.
    apply andb_true_iff in Ha as [_ Ha]. apply andb_true_iff in Hc as [_ Hc].
    destruct (IH c Ha Hc Heq) as [-> ->]. done.
Qed.

Lemma key_of_inj a b c d :
  bar_free a = true → bar_free c = true → key_of a b = key_of c d → a = c ∧ b = d.
Proof.
  intros Ha Hc Heq. unfold key_of in Heq.
  change ("||" ++ b) with (String "|" (String "|" b)) in Heq.
  change ("||" ++ d) with (String "|" (String "|" d)) in Heq.
  destruct (bar_split_inj _ _ _ _ Ha Hc Heq) as [-> Hbd]. by injection Hbd as ->.
Qed.

(** X5: when the names involved hold no bar character, a rendered link is
    a path edge exactly when its two normalized ends are the two normalized
    names of some reasoning-path entry, in either order; and reversing the
    link does not change the answer. *)
Theorem path_edge_exact res ns ov hits e s t :
  buildOverlay res ns = Ok ov →
  node_hits res = Some hits →
  (∀ p, p ∈ reasoning_of hits →
        bar_free (normalize (fst (src_tgt p))) = true
        ∧ bar_free (normalize (snd (src_tgt p))) = true) →
  endpoint_text (source e) = Ok s → endpoint_text (target e) = Ok t →
  bar_free s = true → bar_free t = true →
  (isPathEdge (Some ov) e = Ok true ↔
     ∃ p, p ∈ reasoning_of hits ∧
          ((s = normalize (fst (src_tgt p)) ∧ t = normalize (snd (src_tgt p)))
           ∨ (s = normalize (snd (src_tgt p)) ∧ t = normalize (fst (src_tgt p)))))
  ∧ isPathEdge (Some ov)
      {| source := target e; target := source e; edge_type := edge_type e |}
    = isPathEdge (Some ov) e.
Proof.
  intros Hov Hh Hbar Hs Ht Hbs Hbt.
  destruct (buildOverlay_Ok_inv _ _ _ Hov) as (hits' & datas & Hh' & Hd).
  assert (hits' = hits) as -> by congruence.
  destruct (buildOverlay_elems _ _ _ _ _ Hov Hh Hd) as (_ & _ & Hkeys).
  assert (∀ a b, bar_free a = true → bar_free b = true →
            key_of a b ∈ pathEdgeKeys ov ↔
            ∃ p, p ∈ reasoning_of hits ∧
              ((a = normalize (fst (src_tgt p)) ∧ b = normalize (snd (src_tgt p)))
               ∨ (a = normalize (snd (src_tgt p)) ∧ b = normalize (fst (src_tgt p)))))
    as Hexact.
  { intros a b Ha Hb. rewrite Hkeys. split.
    - intros (p & Hp & Hk). exists p. split; [done|].
      destruct (Hbar p Hp) as [Hb1 Hb2].
      destruct Hk as [Hk|Hk]; apply key_of_inj in Hk; auto.
    - intros (p & Hp & [[-> ->]|[-> ->]]); exists p; (split; [done|]);
        [by left|by right]. }
  assert (isPathEdge (Some ov) e = Ok (bool_decide (key_of s t ∈ pathEdgeKeys ov))) as He.
  { unfold isPathEdge, edgeKey. by rewrite Hs, Ht. }
  split.
  - rewrite He, <-(Hexact s t Hbs Hbt). split.
    + intros [= Hd']. by apply bool_decide_eq_true in Hd'.
    + intros Hin. by rewrite bool_decide_eq_true_2.
  - rewrite He. unfold isPathEdge, edgeKey. simpl. rewrite Ht, Hs. simpl.
    f_equal. apply bool_decide_ext.
    rewrite (Hexact t s Hbt Hbs), (Hexact s t Hbs Hbt).
    split; intros (p & Hp & Hcase); exists p; (split; [done|]); tauto.
Qed.

Lemma path_edge_exact_witness :
  isPathEdge (Some egg_overlay)
    {| source := EndpointString "boil"; target := EndpointString "egg";
       edge_type := "related" |}
  = isPathEdge (Some egg_overlay)
      {| source := EndpointString "egg"; target := EndpointString "boil";
         edge_type := "related" |}.
Proof.
  apply (path_edge_exact egg_retrieval egg_graph egg_overlay _
           {| source := EndpointString "egg"; target := EndpointString "boil";
              edge_type := "related" |} "EGG" "BOIL" buildOverlay_egg eq_refl);
    try reflexivity.
  intros p Hp. apply list_elem_of_singleton in Hp as ->. split; reflexivity.
Defined.

Lemma concat_bar_inj l1 : ∀ l2,
  Forall (λ x, bar_free x = true) l1 → Forall (λ x, bar_free x = true) l2 →
  l1 ≠ [] → l2 ≠ [] →
  String.concat "|" l1 = String.concat "|" l2 → l1 = l2.
Proof.
  induction l1 as [|x l1 IH]; intros [|y l2] H1 H2 Hn1 Hn2 Heq; try done.
  apply Forall_cons in H1 as [Hx H1]. apply Forall_cons in H2 as [Hy H2].
  destruct l1 as [|x' l1], l2 as [|y' l2].
  - simpl in Heq. by subst.
  - simpl in Heq. subst x. rewrite bar_free_app in Hx.
    apply andb_true_iff in Hx as [_ Hx]. done.
  - simpl in Heq. subst y. rewrite bar_free_app in Hy.
    apply andb_true_iff in Hy as [_ Hy]. done.
  - change (String.concat "|" (x :: x' :: l1))
      with (x ++ String "|" (String.concat "|" (x' :: l1))) in Heq.
    change (String.concat "|" (y :: y' :: l2))
      with (y ++ String "|" (String.concat "|" (y' :: l2))) in Heq.
    destruct (bar_split_inj _ _ _ _ Hx Hy Heq) as [-> Hrest].
    f_equal. by apply IH.
Qed.

Lemma signature_of_inj (fs1 fs2 : gset string) :
  (∀ x, x ∈ fs1 ∪ fs2 → bar_free x = true) →
  fs1 ≠ ∅ → fs2 ≠ ∅ →
  signature_of fs1 = signature_of fs2 → fs1 = fs2.
Proof.
  intros Hbar Hn1 Hn2 Hsig. unfold signature_of in Hsig.
  assert (∀ fs : gset string, fs ≠ ∅ → (∀ x, x ∈ fs → bar_free x = true) →
            Forall (λ x, bar_free x = true) (merge_sort String.le (elements fs))
            ∧ merge_sort String.le (elements fs) ≠ []) as Hprep.
  { intros fs Hne Hb. split.
    - apply Forall_forall. intros x Hx. apply Hb.
      rewrite merge_sort_Permutation in Hx. by apply elem_of_elements.
    - intros Hnil. apply Hne, leibniz_equiv, elements_empty_inv.
      apply Permutation_nil_r. rewrite <-Hnil. by rewrite merge_sort_Permutation. }
  destruct (Hprep fs1 Hn1) as [Hf1 Hne1]; [set_solver|].
  destruct (Hprep fs2 Hn2) as [Hf2 Hne2]; [set_solver|].
  pose proof (concat_bar_inj _ _ Hf1 Hf2 Hne1 Hne2 Hsig) as Hl.
  apply set_eq. intros x.
  rewrite <-!elem_of_elements.
  rewrite <-(merge_sort_Permutation String.le (elements fs1)).
  rewrite <-(merge_sort_Permutation String.le (elements fs2)). by rewrite Hl.
Qed.

(** X6: on focus sets that are not empty and whose ids hold no bar
    character the signature determines the set.  So, with the graph mounted
    and the signature of the focus set [prev] stored, an overlay whose focus
    set is another non-empty set always schedules a camera fit. *)
Theorem different_focus_set_schedules_fit :
  (∀ fs1 fs2 : gset string,
     (∀ x, x ∈ fs1 ∪ fs2 → bar_free x = true) →
     fs1 ≠ ∅ → fs2 ≠ ∅ →
     signature_of fs1 = signature_of fs2 → fs1 = fs2)
  ∧ (∀ c ov (prev : gset string),
       fg_mounted c = true →
       zoomSigRef c = signature_of prev →
       (∀ x, x ∈ prev ∪ focusSet_of ov → bar_free x = true) →
       prev ≠ ∅ → focusSet_of ov ≠ ∅ → focusSet_of ov ≠ prev →
       schedules_fit c ov = true
       ∧ zoomSigRef (overlay_effect c ov) = signature_of (focusSet_of ov)).
Proof.
  split; [apply signature_of_inj|].
  intros c ov prev Hm Hz Hbar Hprev Hne Hdiff.
  assert (signature_of (focusSet_of ov) ≠ zoomSigRef c) as Hsig.
  { rewrite Hz. intros Heq. apply Hdiff.
    apply signature_of_inj; [|done..]. intros x Hx. apply Hbar. set_solver. }
  assert (size (focusSet_of ov) ≠ 0%nat) as Hsize.
  { intros Hz'. apply Hne, leibniz_equiv, size_empty_inv, Hz'. }
  unfold schedules_fit. rewrite (overlay_effect_schedules c ov Hm Hsize Hsig). simpl.
  split; [|done]. rewrite length_app. simpl. apply Nat.ltb_lt. lia.
Qed.

Lemma different_focus_set_schedules_fit_witness :
  schedules_fit canvas_after_egg (Some {| hitNodeIds := {[ "n1" ]}; pathNodeIds := ∅;
                                          pathEdgeKeys := ∅ |}) = true.
Proof.
  destruct different_focus_set_schedules_fit as [_ Hfit].
  apply (Hfit canvas_after_egg _ {[ "n1"; "n2" ]}); try reflexivity.
  - intros x Hx. apply elem_of_union in Hx as [Hx|Hx].
    + apply elem_of_union in Hx as [->%elem_of_singleton| ->%elem_of_singleton];
        reflexivity.
    + simpl in Hx. apply elem_of_union in Hx as [->%elem_of_singleton|Hx];
        [reflexivity|]. by apply elem_of_empty in Hx.
  - apply (bool_decide_unpack _). by vm_compute.
  - apply (bool_decide_unpack _). by vm_compute.
  - apply (bool_decide_unpack _). by vm_compute.
Defined.

(** ** More on the overlay accumulator *)

Lemma mergeHistory_elems history ns ov :
  mergeHistory history ns = Ok ov →
  ∀ x, (x ∈ hitNodeIds ov ↔ derivable hitNodeIds ns history x)
       ∧ (x ∈ pathNodeIds ov ↔ derivable pathNodeIds ns history x)
       ∧ (x ∈ pathEdgeKeys ov ↔ derivable pathEdgeKeys ns history x).
Proof.
  intros (ovs & Hovs & ->)%mergeHistory_Ok_iff x. simpl.
  by rewrite !(elem_of_union_all _ _ _ _ _ Hovs).
Qed.

(** The loop returns exactly when the builder returns on every payload. *)
Lemma mergeHistory_returns_iff history ns :
  (∃ ov, mergeHistory history ns = Ok ov) ↔
  ∀ msg r, msg ∈ history → retrieval msg = Some r → ∃ o, buildOverlay r ns = Ok o.
Proof.
  split.
  - intros [ov (ovs & Hovs & _)%mergeHistory_Ok_iff] msg r Hin Hr.
    assert (buildOverlay r ns ∈ message_overlays ns history) as Hb.
    { unfold message_overlays. apply list_elem_of_omap. exists msg.
      split; [done|]. by rewrite Hr. }
    rewrite Hovs in Hb. apply list_elem_of_fmap in Hb as (o & -> & _). eauto.
  - intros Hall. destruct (mergeHistory history ns) as [ov|e] eqn:Hm; [eauto|].
    apply merge_loop_Throw in Hm as (msg & r & Hin & Hr & Hthrow).
    destruct (Hall msg r Hin Hr) as [o Ho]. congruence.
Qed.

Lemma derivable_mono sel ns h1 h2 x :
  (∀ msg, msg ∈ h1 → msg ∈ h2) → derivable sel ns h1 x → derivable sel ns h2 x.
Proof. intros Hsub (msg & r & o & Hin & H). exists msg, r, o. auto. Qed.

(** X7: the merged overlay depends only on which messages are in the
    history, not on their order or on how often one occurs: two histories
    with the same messages give the same result, be it an overlay or the
    error. *)
Theorem mergeHistory_order_irrelevant h1 h2 ns :
  (∀ msg, msg ∈ h1 ↔ msg ∈ h2) → mergeHistory h1 ns = mergeHistory h2 ns.
Proof.
  intros Hsame.
  assert ((∃ ov, mergeHistory h1 ns = Ok ov) ↔ (∃ ov, mergeHistory h2 ns = Ok ov)) as Hret.
  { rewrite !mergeHistory_returns_iff. by setoid_rewrite Hsame. }
  destruct (mergeHistory h1 ns) as [ov1|e1] eqn:H1,
           (mergeHistory h2 ns) as [ov2|e2] eqn:H2.
  - f_equal.
    pose proof (mergeHistory_elems _ _ _ H1) as He1.
    pose proof (mergeHistory_elems _ _ _ H2) as He2.
    apply overlay_eq; apply set_eq; intros x;
      destruct (He1 x) as (Ha1 & Hb1 & Hc1); destruct (He2 x) as (Ha2 & Hb2 & Hc2).
    + rewrite Ha1, Ha2. split; apply derivable_mono; intros m; apply Hsame.
    + rewrite Hb1, Hb2. split; apply derivable_mono; intros m; apply Hsame.
    + rewrite Hc1, Hc2. split; apply derivable_mono; intros m; apply Hsame.
  - destruct (proj1 Hret) as [ov Hov]; [eauto|done].
  - destruct (proj2 Hret) as [ov Hov]; [eauto|done].
  - by destruct e1, e2.
Qed.

Lemma mergeHistory_order_irrelevant_witness :
  mergeHistory (egg_history ++ egg_history) egg_graph
  = mergeHistory (reverse egg_history) egg_graph.
Proof.
  apply mergeHistory_order_irrelevant. intros msg.
  rewrite elem_of_app, elem_of_reverse. tauto.
Defined.

(** X8: highlights only accumulate.  If the merged overlay of a history
    exists, so does the merged overlay of any history made of some of its
    messages, and each of its three sets is included in the corresponding set
    of the larger history. *)
Theorem mergeHistory_monotone h1 h2 ns ov2 :
  (∀ msg, msg ∈ h1 → msg ∈ h2) →
  mergeHistory h2 ns = Ok ov2 →
  ∃ ov1, mergeHistory h1 ns = Ok ov1
         ∧ hitNodeIds ov1 ⊆ hitNodeIds ov2
         ∧ pathNodeIds ov1 ⊆ pathNodeIds ov2
         ∧ pathEdgeKeys ov1 ⊆ pathEdgeKeys ov2.
Proof.
  intros Hsub H2.
  assert (∃ ov1, mergeHistory h1 ns = Ok ov1) as [ov1 H1].
  { apply mergeHistory_returns_iff. intros msg r Hin Hr.
    eapply (proj1 (mergeHistory_returns_iff h2 ns)); eauto. }
  exists ov1. split; [done|].
  pose proof (mergeHistory_elems _ _ _ H1) as He1.
  pose proof (mergeHistory_elems _ _ _ H2) as He2.
  split; [|split]; intros x Hx;
    destruct (He1 x) as (Ha1 & Hb1 & Hc1); destruct (He2 x) as (Ha2 & Hb2 & Hc2).
  - apply Ha2, (derivable_mono _ _ h1); [done|]. by apply Ha1.
  - apply Hb2, (derivable_mono _ _ h1); [done|]. by apply Hb1.
  - apply Hc2, (derivable_mono _ _ h1); [done|]. by apply Hc1.
Qed.

Lemma mergeHistory_monotone_witness :
  ∃ ov1, mergeHistory [ {| msg_id := "q1_user"; retrieval := Some egg_retrieval |} ]
           egg_graph = Ok ov1
         ∧ hitNodeIds ov1 ⊆ hitNodeIds egg_overlay
         ∧ pathNodeIds ov1 ⊆ pathNodeIds egg_overlay
         ∧ pathEdgeKeys ov1 ⊆ pathEdgeKeys egg_overlay.
Proof.
  apply (mergeHistory_monotone
           [ {| msg_id := "q1_user"; retrieval := Some egg_retrieval |} ]
           egg_history egg_graph egg_overlay).
  - intros msg Hm. apply elem_of_cons in Hm as [->|Hm]; [left|].
    by apply elem_of_nil in Hm.
  - vm_compute. reflexivity.
Defined.

(** ** More on the identity index and the builder *)

(** X9: a retrieval name whose normal form is that of a non-empty
    attribute (id, label or description) of a node hits that node, and a
    reasoning-path end with such a name puts the node on the path; in
    particular a name that differs from the attribute only in letter case, or
    by quotes wrapped directly around it, does. *)
Theorem named_node_is_found ns n s :
  n ∈ ns → s ∈ indexed_texts n →
  (∀ q rp datas x,
     normalize x = normalize s →
     {| entity_name := x |} ∈ datas →
     ∃ ov, buildOverlay
             {| qid := q;
                node_hits := Some {| use_reasoning_path := rp;
                                     node_datas := Some datas |} |} ns = Ok ov
           ∧ id n ∈ hitNodeIds ov)
  ∧ (∀ q rp datas x y,
       normalize x = normalize s ∨ normalize y = normalize s →
       {| src_tgt := (x, y) |} ∈ rp →
       ∃ ov, buildOverlay
               {| qid := q;
                  node_hits := Some {| use_reasoning_path := Some rp;
                                       node_datas := Some datas |} |} ns = Ok ov
             ∧ id n ∈ pathNodeIds ov)
  ∧ normalize (toUpperCase s) = normalize s
  ∧ (∀ q1 q2, all_quotes q1 = true → all_quotes q2 = true →
              normalize (q1 ++ s ++ q2) = normalize s).
Proof.
  intros Hn Hs.
  assert (id n ∈ get_or_empty (buildNameMap ns) (normalize s)) as Hidx.
  { apply elem_of_buildNameMap. eauto 10. }
  split; [|split; [|split]].
  - intros q rp datas x Hx Hin.
    edestruct (buildOverlay_spec
      {| qid := q;
         node_hits := Some {| use_reasoning_path := rp; node_datas := Some datas |} |}
      ns) as (ov & Hov & Hhit & _); [done..|].
    exists ov. split; [done|]. apply Hhit. eexists. split; [done|]. simpl.
    by rewrite Hx.
  - intros q rp datas x y Hxy Hin.
    edestruct (buildOverlay_spec
      {| qid := q;
         node_hits := Some {| use_reasoning_path := Some rp; node_datas := Some datas |} |}
      ns) as (ov & Hov & _ & Hpath & _); [done..|].
    exists ov. split; [done|]. apply Hpath. eexists. split; [done|].
    unfold resolves. simpl. destruct Hxy as [-> | ->]; auto.
  - apply normalize_toUpperCase.
  - intros q1 q2. apply normalize_wrapped.
Qed.

Lemma named_node_is_found_witness :
  ∃ ov, buildOverlay
          {| qid := "q";
             node_hits := Some {| use_reasoning_path := None;
                                  node_datas := Some [ {| entity_name := " boil " |} ] |} |}
          egg_graph = Ok ov
        ∧ "n2" ∈ hitNodeIds ov.
Proof.
  destruct (named_node_is_found egg_graph boil_node "Boil") as (Hhit & _).
  - right. left.
  - right. left.
  - apply (Hhit "q" None [ {| entity_name := " boil " |} ] " boil ");
      [reflexivity|left].
Defined.

(** ** More on the level band force *)

(** X10: the band force is installed only when the graph is mounted and
    the viewport height is not 0.  When the levels and the height are safe,
    the target of every level present lies in the band of height
    [max 1 (h - 96)] that ends at [h - 48]: it is at most [h - 48] and at
    least [h - 48 - max 1 (h - 96)], which is the top padding 48 when the
    viewport is higher than 96.  When moreover the number of slices
    [maxLevel - minLevel + 1] divides the inner height [h - 96], nothing is
    rounded: the target of every level present is the integer
    [h - 48 - (lvl - minLevel) * q], where [q] is the height of a slice; it
    is above 48, and a higher level present has a strictly smaller
    target. *)
Theorem band_targets_within_padding :
  (∀ mounted ns, levelY_effect mounted 0 ns = None)
  ∧ (∀ h ns, levelY_effect false h ns = None)
  ∧ (∀ h ns lvl,
       h ≠ 0%Z → (Z.abs h < 2 ^ 52)%Z → safe_levels ns → lvl ∈ levels_of ns →
       ∃ y, band_target true h (Some ns) lvl = Some y
            ∧ Number.leb y (Number.of_Z (h - 48)) = true
            ∧ Number.leb (Number.of_Z (h - 48 - Z.max 1 (h - 96))) y = true
            ∧ ((96 < h)%Z → Number.leb (Number.of_Z 48) y = true))
  ∧ (∀ h ns mn mx q,
       (96 < h < 2 ^ 52)%Z → safe_levels ns →
       mn ∈ levels_of ns → mx ∈ levels_of ns →
       (∀ z, z ∈ levels_of ns → (mn ≤ z ≤ mx)%Z) →
       (h - 96 = q * (mx - mn + 1))%Z →
       ∀ lvl, lvl ∈ levels_of ns →
         band_target true h (Some ns) lvl
           = Some (Number.of_Z (h - 48 - (lvl - mn) * q))
         ∧ (48 < h - 48 - (lvl - mn) * q ≤ h - 48)%Z
         ∧ ∀ lvl', lvl' ∈ levels_of ns → (lvl < lvl')%Z →
             Number.ltb (Number.of_Z (h - 48 - (lvl' - mn) * q))
                        (Number.of_Z (h - 48 - (lvl - mn) * q)) = true).
Proof.
  split; [|split; [|split]].
  - intros mounted ns. unfold levelY_effect. by rewrite orb_true_r.
  - done.
  - intros h ns lvl Hh0 Hh Hsafe Hlvl.
    assert (ns ≠ []) as Hne.
    { intros ->. by apply elem_of_nil in Hlvl. }
    destruct (minmaxLevel_bounds ns Hne Hsafe) as (mn & mx & Hmm & Hmn & Hmx & Hall).
    pose proof (Hall lvl Hlvl) as Hr.
    pose proof (Hsafe mn Hmn) as Hsmn. pose proof (Hsafe mx Hmx) as Hsmx.
    pose proof (Hsafe lvl Hlvl) as Hslvl.
    exists (yFor h (Number.of_Z mn) (Number.of_Z mx) (Number.of_Z lvl)).
    split; [|split; [|split]].
    + unfold band_target, levelY_effect. simpl negb. simpl orb.
      destruct (Z.eqb_spec h 0) as [|_]; [done|]. by rewrite Hmm.
    + rewrite <-(yFor_lowest h mn mx) by (done || lia).
      apply yFor_monotone; (done || lia).
    + apply yFor_within; (done || lia).
    + intros Hbig.
      replace 48%Z with (h - 48 - Z.max 1 (h - 96))%Z at 1 by lia.
      apply yFor_within; (done || lia).
  - intros h ns mn mx q Hh Hsafe Hmn Hmx Hall Hq lvl Hlvl.
    assert (ns ≠ []) as Hne.
    { intros ->. by apply elem_of_nil in Hlvl. }
    destruct (minmaxLevel_bounds ns Hne Hsafe) as (mn' & mx' & Hmm & Hmn' & Hmx' & Hall').
    assert (mn' = mn) as ->.
    { pose proof (Hall mn' Hmn'). pose proof (Hall' mn Hmn). lia. }
    assert (mx' = mx) as ->.
    { pose proof (Hall mx' Hmx'). pose proof (Hall' mx Hmx). lia. }
    pose proof (Hall mn Hmn) as Hord.
    pose proof (Hsafe mn Hmn) as Hsmn. pose proof (Hsafe mx Hmx) as Hsmx.
    assert (0 < q)%Z as Hq0 by nia.
    assert (∀ l, l ∈ levels_of ns →
                 (0 ≤ (l - mn) * q ∧ (l - mn) * q + q ≤ h - 96)%Z) as Hprod.
    { intros l Hl. pose proof (Hall l Hl). nia. }
    pose proof (Hprod lvl Hlvl) as Hp. pose proof (Hall lvl Hlvl) as Hr.
    pose proof (Hsafe lvl Hlvl) as Hslvl.
    split; [|split].
    + unfold band_target, levelY_effect. simpl negb. simpl orb.
      destruct (Z.eqb_spec h 0) as [|_]; [lia|]. rewrite Hmm. simpl.
      rewrite yFor_of_Z by (done || lia). f_equal.
      replace (Z.max 1 (h - 96)) with (q * (mx - mn + 1))%Z by lia.
      rewrite div_of_Z by (unfold safe_integer; lia).
      destruct (decide (lvl = mn)) as [->|Hne'].
      * rewrite Z.sub_diag, mul_zero_of_Z by (unfold safe_integer; lia).
        rewrite sub_of_Z by (unfold safe_integer; simpl; lia). f_equal; lia.
      * rewrite mul_of_Z by (unfold safe_integer; lia).
        by rewrite sub_of_Z by (unfold safe_integer; lia).
    + lia.
    + intros lvl' Hlvl' Hlt. pose proof (Hprod lvl' Hlvl') as Hp'.
      rewrite ltb_of_Z by (unfold safe_integer; lia). apply Z.ltb_lt. nia.
Qed.

Lemma band_targets_within_padding_witness :
  (∃ y, band_target true 100 (Some (gap_graph ++ egg_graph)%list) 1 = Some y
        ∧ Number.leb y (Number.of_Z (100 - 48)) = true
        ∧ Number.leb (Number.of_Z (100 - 48 - Z.max 1 (100 - 96))) y = true
        ∧ ((96 < 100)%Z → Number.leb (Number.of_Z 48) y = true))
  ∧ band_target true 396 (Some gap_graph) 2 = Some (Number.of_Z (396 - 48 - (2 - 0) * 100))
  ∧ (48 < 396 - 48 - (2 - 0) * 100 ≤ 396 - 48)%Z.
Proof.
  destruct band_targets_within_padding as (_ & _ & Hin & Hb).
  split.
  - apply (Hin 100%Z (gap_graph ++ egg_graph)%list 1%Z); [done|done| |].
    + intros z Hz. repeat (apply elem_of_cons in Hz as [->|Hz]; [done|]).
      by apply elem_of_nil in Hz.
    + do 3 right. left.
  - destruct (Hb 396%Z gap_graph 0%Z 2%Z 100%Z) with (lvl := 2%Z) as (Ht & Hr & _).
    + lia.
    + intros z Hz. apply elem_of_cons in Hz as [->|Hz]; [done|].
      apply elem_of_cons in Hz as [->|Hz]; [done|]. by apply elem_of_nil in Hz.
    + left.
    + right. left.
    + intros z Hz. apply elem_of_cons in Hz as [->|Hz]; [simpl; lia|].
      apply elem_of_cons in Hz as [->|Hz]; [simpl; lia|]. by apply elem_of_nil in Hz.
    + done.
    + right. left.
    + split; [exact Ht|exact Hr].
Defined.

(** ** More on the focus tracker *)

(** X11: if the overlay effect schedules a focus fit and the reset effect
    runs before the next animation frame, that frame makes the focus fit and
    then the full-graph fit, and leaves the sentinel as the stored signature;
    so the same overlay presented again after the frame schedules a fit
    again, unless its signature is the sentinel itself. *)
Theorem reset_after_focus_fit_overrides_it c ov tick :
  fg_mounted c = true →
  pendingFrames c = [] →
  size (focusSet_of ov) ≠ 0%nat →
  signature_of (focusSet_of ov) ≠ zoomSigRef c →
  animation_frame (reset_effect (overlay_effect c ov) (Some tick))
  = ({| fg_mounted := true; zoomSigRef := "reset"; pendingFrames := [] |},
     [ZoomToFit (Some (focusSet_of ov)); ReheatSimulation;
      ZoomToFit None; ReheatSimulation])
  ∧ (signature_of (focusSet_of ov) ≠ "reset" →
     schedules_fit
       (fst (animation_frame (reset_effect (overlay_effect c ov) (Some tick)))) ov
     = true).
Proof.
  intros Hm Hp Hsize Hsig.
  assert (animation_frame (reset_effect (overlay_effect c ov) (Some tick))
    = ({| fg_mounted := true; zoomSigRef := "reset"; pendingFrames := [] |},
       [ZoomToFit (Some (focusSet_of ov)); ReheatSimulation;
        ZoomToFit None; ReheatSimulation])) as Hframe.
  { rewrite (overlay_effect_schedules c ov Hm Hsize Hsig), Hp. reflexivity. }
  split; [done|]. intros Hne. rewrite Hframe. simpl.
  unfold schedules_fit. rewrite overlay_effect_schedules; [done..|]. simpl. congruence.
Qed.

Lemma reset_after_focus_fit_overrides_it_witness :
  zoomSigRef
    (fst (animation_frame
            (reset_effect (overlay_effect initialCanvas (Some egg_overlay)) (Some 1%nat))))
  = "reset".
Proof.
  destruct (reset_after_focus_fit_overrides_it initialCanvas (Some egg_overlay) 1%nat)
    as [Hframe _]; [reflexivity|reflexivity|vm_compute; discriminate
                    |vm_compute; discriminate|].
  by rewrite Hframe.
Defined.

Lemma built_ids_of_nodes res ns ov x :
  buildOverlay res ns = Ok ov →
  x ∈ hitNodeIds ov ∪ pathNodeIds ov → ∃ n, n ∈ ns ∧ id n = x.
Proof.
  intros Hov Hx.
  destruct (buildOverlay_Ok_inv _ _ _ Hov) as (hits & datas & Hh & Hd).
  destruct (buildOverlay_elems _ _ _ _ _ Hov Hh Hd) as (Hhit & Hpath & _).
  assert (∃ k, x ∈ get_or_empty (buildNameMap ns) k) as [k Hk].
  { apply elem_of_union in Hx as [Hx|Hx].
    - destruct (proj1 (Hhit x) Hx) as (nd & _ & Hx'). eauto.
    - destruct (proj1 (Hpath x) Hx) as (p & _ & [Hx'|Hx']); eauto. }
  apply elem_of_buildNameMap in Hk as (n & Hn & Hid & _). eauto.
Qed.

(** X12: a camera fit scheduled for an overlay that was built from the
    node list of the graph, or merged from a history over it, always has a
    node of the graph to fit to: the node filter handed to the zoom accepts
    at least one node, and every id it accepts is the id of a node. *)
Theorem scheduled_fit_has_a_node c ns ov :
  (∃ res, buildOverlay res ns = Ok ov) ∨ (∃ history, mergeHistory history ns = Ok ov) →
  (∀ x, x ∈ focusSet_of (Some ov) → ∃ n, n ∈ ns ∧ id n = x)
  ∧ (schedules_fit c (Some ov) = true →
     pendingFrames (overlay_effect c (Some ov))
     = (pendingFrames c ++ [FocusFit (focusSet_of (Some ov))])%list
     ∧ ∃ n, n ∈ ns ∧ id n ∈ focusSet_of (Some ov)).
Proof.
  intros Hfrom.
  assert (∀ x, x ∈ focusSet_of (Some ov) → ∃ n, n ∈ ns ∧ id n = x) as Hids.
  { intros x Hx. simpl in Hx. destruct Hfrom as [[res Hov]|[history Hm]].
    - by eapply built_ids_of_nodes.
    - destruct (mergeHistory_elems _ _ _ Hm x) as (Hhit & Hpath & _).
      apply elem_of_union in Hx as [Hx|Hx].
      + destruct (proj1 Hhit Hx) as (msg & r & o & _ & _ & Ho & Hxo).
        eapply built_ids_of_nodes; [exact Ho|]. set_solver.
      + destruct (proj1 Hpath Hx) as (msg & r & o & _ & _ & Ho & Hxo).
        eapply built_ids_of_nodes; [exact Ho|]. set_solver. }
  split; [done|]. intros Hs. unfold schedules_fit in Hs.
  destruct (overlay_effect_cases c (Some ov)) as [Heq|[Hsize Heq]].
  - rewrite Heq in Hs. apply Nat.ltb_lt in Hs. lia.
  - rewrite Heq. simpl. split; [done|].
    destruct (set_choose_L (focusSet_of (Some ov))) as [x Hx].
    { intros Hempty. apply Hsize. rewrite Hempty. apply size_empty. }
    destruct (Hids x Hx) as (n & Hn & <-). eauto.
Qed.

Lemma scheduled_fit_has_a_node_witness :
  ∃ n, n ∈ egg_graph ∧ id n ∈ focusSet_of (Some egg_overlay).
Proof.
  destruct (scheduled_fit_has_a_node initialCanvas egg_graph egg_overlay) as [_ Hfit].
  - left. exists egg_retrieval. exact buildOverlay_egg.
  - apply Hfit. reflexivity.
Defined.

(** ** Responses of the client functions *)

(** The builder returns exactly on the results that carry [node_hits] and
    [node_datas]. *)
Lemma buildOverlay_returns_iff res ns :
  (∃ ov, buildOverlay res ns = Ok ov) ↔
  ∃ hits, node_hits res = Some hits ∧ is_Some (node_datas hits).
Proof.
  split.
  - intros [ov (hits & datas & Hh & Hd)%buildOverlay_Ok_inv]. eauto.
  - intros (hits & Hh & [datas Hd]).
    destruct (buildOverlay_spec res ns hits datas Hh Hd) as (ov & Hov & _). eauto.
Qed.

(** X13: whatever the backend sends, be it nothing, an object without
    [node_hits] or a [node_hits] without some of its lists, the response made
    by [normaliseRetrievePayload] has a query id and all four lists, so
    [buildOverlay] returns on it; with no [node_hits] in the input the
    overlay is empty.  The lists that were sent are kept. *)
Theorem normalised_payload_builds input fallbackKg :
  (is_Some (Api.qid (Api.normaliseRetrievePayload input fallbackKg))
   ∧ is_Some (Api.use_communities
                (Api.node_hits (Api.normaliseRetrievePayload input fallbackKg)))
   ∧ is_Some (Api.use_reasoning_path
                (Api.node_hits (Api.normaliseRetrievePayload input fallbackKg)))
   ∧ is_Some (Api.node_datas
                (Api.node_hits (Api.normaliseRetrievePayload input fallbackKg)))
   ∧ is_Some (Api.use_text_units
                (Api.node_hits (Api.normaliseRetrievePayload input fallbackKg))))
  ∧ (∀ ns, ∃ ov,
       buildOverlay (Api.as_retrieval (Api.normaliseRetrievePayload input fallbackKg)) ns
       = Ok ov)
  ∧ (∀ ns,
       (∀ p, Api.nullish (input ≫= Api.Raw.payload) (Api.Raw.fields <$> input) = Some p →
             Api.Raw.node_hits p = None) →
       buildOverlay (Api.as_retrieval (Api.normaliseRetrievePayload input fallbackKg)) ns
       = Ok emptyOverlay)
  ∧ (∀ p hits datas,
       Api.nullish (input ≫= Api.Raw.payload) (Api.Raw.fields <$> input) = Some p →
       Api.Raw.node_hits p = Some hits →
       Api.node_datas hits = Some datas →
       Api.node_datas (Api.node_hits (Api.normaliseRetrievePayload input fallbackKg))
       = Some datas).
Proof.
  assert (∀ A (a : option A) (x : A), is_Some (Api.nullish a (Some x))) as Hsome.
  { intros A [a|] x; simpl; eauto. }
  split; [|split; [|split]].
  - unfold Api.normaliseRetrievePayload. simpl. repeat split; eauto.
  - intros ns. apply buildOverlay_returns_iff. eexists. split; [reflexivity|].
    unfold Api.normaliseRetrievePayload. simpl. apply Hsome.
  - intros ns Hnone. unfold Api.normaliseRetrievePayload.
    destruct (Api.nullish (input ≫= Api.Raw.payload) (Api.Raw.fields <$> input))
      as [p|] eqn:Hp; simpl.
    + by rewrite (Hnone p eq_refl).
    + done.
  - intros p hits datas Hp Hh Hd. unfold Api.normaliseRetrievePayload.
    rewrite Hp. simpl. rewrite Hh. simpl. by rewrite Hd.
Qed.

Lemma normalised_payload_builds_witness :
  buildOverlay (Api.as_retrieval (Api.normaliseRetrievePayload None None)) egg_graph
  = Ok emptyOverlay.
Proof.
  destruct (normalised_payload_builds None None) as (_ & _ & Hempty & _).
  apply Hempty. intros p Hp. discriminate Hp.
Defined.



(** ** Selecting a message *)

Lemma msg_id_attach_retrieval msg ctx prev :
  msg_id <$> attach_retrieval msg ctx prev = msg_id <$> prev.
Proof.
  unfold attach_retrieval. rewrite <-list_fmap_compose. apply list_fmap_ext.
  intros i m _. simpl. by destruct (String.eqb _ _).
Qed.

Lemma attach_retrieval_selected msg ctx prev :
  msg_id msg ∈ msg_id <$> prev →
  {| msg_id := msg_id msg; retrieval := Some ctx |} ∈ attach_retrieval msg ctx prev.
Proof.
  intros (m & Hid & Hin)%list_elem_of_fmap. unfold attach_retrieval.
  apply list_elem_of_fmap. exists m. split; [|done].
  by rewrite <-Hid, String.eqb_refl.
Qed.

Lemma attach_retrieval_other msg ctx prev m :
  m ∈ prev → msg_id m ≠ msg_id msg → m ∈ attach_retrieval msg ctx prev.
Proof.
  intros Hin Hne. unfold attach_retrieval. apply list_elem_of_fmap. exists m.
  split; [|done]. by destruct (String.eqb_spec (msg_id m) (msg_id msg)).
Qed.

(** X15: selecting a message is all or nothing.  If the handler fails (the
    builder raised on the fetched context), the history, the active and the
    merged overlay and the reset tick are as before.  The handler never adds,
    drops or reorders messages.  If it succeeds, the active overlay is the
    one built from the context and is the one displayed, the reset tick
    moves by one, the messages with the id of the selected one carry the
    context and the others are untouched; and, if the selected message is in
    the history, the merged overlay that the effect computes next includes
    each set of the active overlay. *)
Theorem select_message_all_or_nothing st msg msg_qid ctx :
  (∀ e, snd (handleMessageSelect st msg msg_qid ctx) = Some e →
        chatHistory (fst (handleMessageSelect st msg msg_qid ctx)) = chatHistory st
        ∧ activeOverlay (fst (handleMessageSelect st msg msg_qid ctx)) = activeOverlay st
        ∧ mergedOverlay (fst (handleMessageSelect st msg msg_qid ctx)) = mergedOverlay st
        ∧ resetZoomTick (fst (handleMessageSelect st msg msg_qid ctx)) = resetZoomTick st)
  ∧ (msg_id <$> chatHistory (fst (handleMessageSelect st msg msg_qid ctx))
     = msg_id <$> chatHistory st)
  ∧ (∀ data c ov,
       falsy msg_qid = false → indexData st = Some data →
       falsy (selectedKg st) = false → ctx = Some c →
       buildOverlay_on (Api.as_retrieval c) data = Ok ov →
       snd (handleMessageSelect st msg msg_qid ctx) = None
       ∧ activeOverlay (fst (handleMessageSelect st msg msg_qid ctx)) = Some ov
       ∧ displayed_overlay (fst (handleMessageSelect st msg msg_qid ctx)) = Some ov
       ∧ resetZoomTick (fst (handleMessageSelect st msg msg_qid ctx))
         = S (resetZoomTick st)
       ∧ (∀ m, m ∈ chatHistory st → msg_id m ≠ msg_id msg →
               m ∈ chatHistory (fst (handleMessageSelect st msg msg_qid ctx)))
       ∧ (msg_id msg ∈ msg_id <$> chatHistory st →
          {| msg_id := msg_id msg; retrieval := Some (Api.as_retrieval c) |}
            ∈ chatHistory (fst (handleMessageSelect st msg msg_qid ctx))
          ∧ ∀ st', run_merge_effect (fst (handleMessageSelect st msg msg_qid ctx)) = Ok st' →
                   ∃ merged, mergedOverlay st' = Some merged
                             ∧ hitNodeIds ov ⊆ hitNodeIds merged
                             ∧ pathNodeIds ov ⊆ pathNodeIds merged
                             ∧ pathEdgeKeys ov ⊆ pathEdgeKeys merged)).
Proof.
  split; [|split].
  - intros e. unfold handleMessageSelect.
    destruct (falsy msg_qid); [done|]. destruct (indexData st) as [data|]; [|done].
    destruct (falsy (selectedKg st)); [done|]. destruct ctx as [c|]; [|done].
    by destruct (buildOverlay_on _ _).
  - unfold handleMessageSelect.
    destruct (falsy msg_qid); [done|]. destruct (indexData st) as [data|]; [|done].
    destruct (falsy (selectedKg st)); [done|]. destruct ctx as [c|]; [|done].
    destruct (buildOverlay_on _ _); simpl; [|done]. apply msg_id_attach_retrieval.
  - intros data c ov Hq Hdata Hkg -> Hov. unfold handleMessageSelect.
    rewrite Hq, Hdata, Hkg, Hov. simpl.
    split; [done|]. split; [done|]. split; [done|]. split; [done|].
    split; [intros m; apply attach_retrieval_other|].
    intros Hin. pose proof (attach_retrieval_selected msg (Api.as_retrieval c) _ Hin) as Hsel.
    split; [done|]. intros st'. unfold run_merge_effect, mergedOverlay_effect. simpl.
    unfold buildOverlay_on in Hov.
    destruct (nodes data) as [ns|] eqn:Hns; [|done]. simpl in Hov.
    change (merge_loop (Some ns) emptyOverlay ?h) with (mergeHistory h ns).
    destruct (mergeHistory _ ns) as [merged|e] eqn:Hm; simpl; [|done].
    intros [= <-]. simpl. exists merged. split; [done|].
    pose proof (mergeHistory_elems _ _ _ Hm) as Helems.
    split; [|split]; intros x Hx; destruct (Helems x) as (Ha & Hb & Hc).
    + apply Ha. eexists _, _, ov. eauto.
    + apply Hb. eexists _, _, ov. eauto.
    + apply Hc. eexists _, _, ov. eauto.
Qed.

Lemma select_message_all_or_nothing_witness :
  activeOverlay
    (fst (handleMessageSelect
            {| indexData := Some {| nodes := Some egg_graph |};
               selectedKg := Some "kg";
               chatHistory := egg_history;
               activeOverlay := None;
               mergedOverlay := None;
               resetZoomTick := 0;
               chatLoading := false;
               selectedNode := None;
               selectedLink := None |}
            {| msg_id := "q1_user"; retrieval := None |}
            (Some "q1")
            (Api.getContextData "kg" true Api.Raw.no_fields)))
  = Some emptyOverlay.
Proof.
  edestruct (select_message_all_or_nothing
    {| indexData := Some {| nodes := Some egg_graph |};
       selectedKg := Some "kg";
       chatHistory := egg_history;
       activeOverlay := None;
       mergedOverlay := None;
       resetZoomTick := 0;
       chatLoading := false;
       selectedNode := None;
       selectedLink := None |}
    {| msg_id := "q1_user"; retrieval := None |}
    (Some "q1")
    (Api.getContextData "kg" true Api.Raw.no_fields)) as (_ & _ & Hok).
  edestruct Hok as (_ & Hactive & _); [reflexivity..|]. exact Hactive.
Defined.



(** X17: the overlay depends only on which nodes are in the node list, not
    on their order, and it grows with the list: on a node list that holds
    every node of another, the builder returns whenever it does on the other,
    with hit and path sets that include the other's and with the same edge
    keys. *)
Theorem buildOverlay_monotone_in_nodes res ns1 ns2 ov1 :
  (∀ n, n ∈ ns1 → n ∈ ns2) →
  buildOverlay res ns1 = Ok ov1 →
  ∃ ov2, buildOverlay res ns2 = Ok ov2
         ∧ hitNodeIds ov1 ⊆ hitNodeIds ov2
         ∧ pathNodeIds ov1 ⊆ pathNodeIds ov2
         ∧ pathEdgeKeys ov1 = pathEdgeKeys ov2
         ∧ ((∀ n, n ∈ ns2 → n ∈ ns1) → ov2 = ov1).
Proof.
  intros Hsub Hov1.
  destruct (buildOverlay_Ok_inv _ _ _ Hov1) as (hits & datas & Hh & Hd).
  destruct (buildOverlay_elems _ _ _ _ _ Hov1 Hh Hd) as (Hhit1 & Hpath1 & Hkeys1).
  destruct (buildOverlay_spec res ns2 hits datas Hh Hd)
    as (ov2 & Hov2 & Hhit2 & Hpath2 & Hkeys2).
  assert (∀ nsa nsb k x, (∀ n, n ∈ nsa → n ∈ nsb) →
            x ∈ get_or_empty (buildNameMap nsa) k →
            x ∈ get_or_empty (buildNameMap nsb) k) as Hidx.
  { intros nsa nsb k x Hab. rewrite !elem_of_buildNameMap.
    intros (n & Hn & Hrest). exists n. auto. }
  assert (∀ nsa nsb ova ovb,
            (∀ n, n ∈ nsa → n ∈ nsb) →
            (∀ x, x ∈ hitNodeIds ova ↔
               ∃ nd, nd ∈ datas ∧
                     x ∈ get_or_empty (buildNameMap nsa) (normalize (entity_name nd))) →
            (∀ x, x ∈ hitNodeIds ovb ↔
               ∃ nd, nd ∈ datas ∧
                     x ∈ get_or_empty (buildNameMap nsb) (normalize (entity_name nd))) →
            hitNodeIds ova ⊆ hitNodeIds ovb) as Hhits.
  { intros nsa nsb ova ovb Hab Ha Hb x (nd & Hnd & Hx)%Ha. apply Hb. eauto. }
  assert (∀ nsa nsb ova ovb,
            (∀ n, n ∈ nsa → n ∈ nsb) →
            (∀ x, x ∈ pathNodeIds ova ↔
               ∃ p, p ∈ reasoning_of hits ∧ resolves (buildNameMap nsa) p x) →
            (∀ x, x ∈ pathNodeIds ovb ↔
               ∃ p, p ∈ reasoning_of hits ∧ resolves (buildNameMap nsb) p x) →
            pathNodeIds ova ⊆ pathNodeIds ovb) as Hpaths.
  { intros nsa nsb ova ovb Hab Ha Hb x (p & Hp & Hx)%Ha. apply Hb.
    exists p. split; [done|]. unfold resolves in *. destruct Hx; eauto. }
  assert (pathEdgeKeys ov1 = pathEdgeKeys ov2) as Hkeys.
  { apply set_eq. intros k. by rewrite Hkeys1, Hkeys2. }
  exists ov2. split; [done|]. split; [by eapply Hhits|]. split; [by eapply Hpaths|].
  split; [done|]. intros Hsup. apply overlay_eq; [| |done].
  - apply set_eq. intros x. split; [by eapply (Hhits ns2 ns1)|by eapply (Hhits ns1 ns2)].
  - apply set_eq. intros x. split; [by eapply (Hpaths ns2 ns1)|by eapply (Hpaths ns1 ns2)].
Qed.

Lemma buildOverlay_monotone_in_nodes_witness :
  ∃ ov2, buildOverlay egg_retrieval (boil_node :: egg_twin_node :: egg_graph) = Ok ov2
         ∧ hitNodeIds egg_overlay ⊆ hitNodeIds ov2.
Proof.
  destruct (buildOverlay_monotone_in_nodes egg_retrieval egg_graph
              (boil_node :: egg_twin_node :: egg_graph) egg_overlay)
    as (ov2 & Hov2 & Hhit & _).
  - intros n Hn. by do 2 right.
  - exact buildOverlay_egg.
  - eauto.
Defined.

(** ** Paths of knowledge-graph ids *)

Lemma append_assoc (a b c : string) : (a ++ b) ++ c = a ++ (b ++ c).
Proof.
  induction a as [|x a IH]; [done|].
  change ((String x a ++ b) ++ c) with (String x ((a ++ b) ++ c)). by rewrite IH.
Qed.

Lemma split_nonempty sep s : split sep s ≠ [].
Proof.
  destruct s as [|c s]; simpl; [done|].
  destruct (Ascii.eqb c sep); [done|]. by destruct (split sep s).
Qed.

(** Splitting at the slashes, encoding the pieces and joining them is the
    character-wise escape that keeps the slashes. *)
Lemma encodeKgPath_escape_path kg : encodeKgPath kg = escape_path kg.
Proof.
  unfold encodeKgPath. induction kg as [|c kg IH]; [done|]. simpl.
  destruct (Ascii.eqb_spec c "/") as [->|Hne].
  - rewrite fmap_cons.
    destruct (encodeURIComponent <$> split "/" kg) as [|p ps] eqn:Hps.
    { apply fmap_nil_inv in Hps. by apply split_nonempty in Hps. }
    simpl in *. by rewrite IH.
  - destruct (split "/" kg) as [|piece pieces] eqn:Hsp.
    { by apply split_nonempty in Hsp. }
    rewrite !fmap_cons in *. simpl.
    destruct (encodeURIComponent <$> pieces) as [|p ps]; simpl in *.
    + rewrite <-IH. done.
    + rewrite <-IH. by rewrite append_assoc.
Qed.

Lemma all_chars_app p a b : all_chars p (a ++ b) = all_chars p a && all_chars p b.
Proof.
  induction a as [|x a IH]; [done|].
  change (String x a ++ b) with (String x (a ++ b)). simpl.
  by rewrite IH, andb_assoc.
Qed.

Lemma count_char_app c a b : count_char c (a ++ b) = (count_char c a + count_char c b)%nat.
Proof.
  induction a as [|x a IH]; [done|].
  change (String x a ++ b) with (String x (a ++ b)). simpl. rewrite IH. lia.
Qed.

Lemma escape_char_safe c :
  all_chars path_safe
    (if Ascii.eqb c "/" then "/"
     else if is_unreserved c then String c EmptyString else percent_encode c) = true.
Proof. by destruct c as [[] [] [] [] [] [] [] []]. Qed.

Lemma escape_char_slashes c :
  count_char "/"
    (if Ascii.eqb c "/" then "/"
     else if is_unreserved c then String c EmptyString else percent_encode c)
  = if Ascii.eqb c "/" then 1%nat else 0%nat.
Proof. by destruct c as [[] [] [] [] [] [] [] []]. Qed.

Lemma unescape_escape_char c rest :
  unescape_path
    ((if Ascii.eqb c "/" then "/"
      else if is_unreserved c then String c EmptyString else percent_encode c) ++ rest)
  = String c (unescape_path rest).
Proof. by destruct c as [[] [] [] [] [] [] [] []]. Qed.

Lemma unescape_escape_path s : unescape_path (escape_path s) = s.
Proof.
  induction s as [|c s IH]; [done|]. simpl.
  by rewrite unescape_escape_char, IH.
Qed.

(** X18: the path of a knowledge-graph id holds only unreserved
    characters, percent signs and slashes, and exactly as many slashes as the
    id; an id made of unreserved characters and slashes is its own path. *)
Theorem encodeKgPath_is_url_safe kg :
  all_chars path_safe (encodeKgPath kg) = true
  ∧ count_char "/" (encodeKgPath kg) = count_char "/" kg
  ∧ (all_chars (λ c, is_unreserved c || Ascii.eqb c "/") kg = true →
     encodeKgPath kg = kg).
Proof.
  rewrite encodeKgPath_escape_path. split; [|split].
  - induction kg as [|c kg IH]; [done|]. simpl.
    by rewrite all_chars_app, escape_char_safe, IH.
  - induction kg as [|c kg IH]; [done|]. simpl.
    by rewrite count_char_app, escape_char_slashes, IH.
  - induction kg as [|c kg IH]; [done|]. simpl.
    intros [Hc Hkg]%andb_true_iff. rewrite (IH Hkg).
    destruct (Ascii.eqb_spec c "/") as [->|_]; [done|].
    rewrite orb_false_r in Hc. by rewrite Hc.
Qed.

Lemma encodeKgPath_is_url_safe_witness : encodeKgPath "runs/kg_1.v2" = "runs/kg_1.v2".
Proof.
  destruct (encodeKgPath_is_url_safe "runs/kg_1.v2") as (_ & _ & Hid).
  by apply Hid.
Defined.

(** X19: two different knowledge-graph ids never have the same path. *)
Theorem encodeKgPath_injective kg1 kg2 :
  kg1 ≠ kg2 → encodeKgPath kg1 ≠ encodeKgPath kg2.
Proof.
  intros Hne Heq. apply Hne. rewrite !encodeKgPath_escape_path in Heq.
  by rewrite <-(unescape_escape_path kg1), Heq, unescape_escape_path.
Qed.

Lemma encodeKgPath_injective_witness : encodeKgPath "a/b" ≠ encodeKgPath "a%2Fb".
Proof. apply encodeKgPath_injective. discriminate. Defined.
